(** * dvc: stage serialisation, plots and the add / cache contract

    A shallow embedding of [dvc/stage/serialize.py] (pipeline-file and
    lockfile serialisation of a stage) and of [dvc/repo/plots/__init__.py]
    (collecting, preparing and modifying plots), together with a model of
    the add / cache / hasher contract exercised by
    [tests/func/test_add.py]. *)

From stdpp Require Import gmap strings list sorting.
From Stdlib Require Import String Ascii.

Open Scope string_scope.
Open Scope list_scope.

(** ** Python values *)

#[local] Set Warnings "-register-all".

(** The YAML-serialisable values the serialisers build: [None], booleans,
    integers, strings, lists and insertion-ordered dictionaries. *)
Inductive yaml : Type :=
| YNone
| YBool (b : bool)
| YInt (z : Z)
| YStr (s : string)
| YList (l : list yaml)
| YDict (d : list (string * yaml)).

(** Python truthiness, as used by [if value] and [not flags]. *)
Definition truthy (v : yaml) : bool :=
  match v with
  | YNone => false
  | YBool b => b
  | YInt z => negb (Z.eqb z 0)
  | YStr s => negb (String.eqb s "")
  | YList l => negb (bool_decide (l = []))
  | YDict d => negb (bool_decide (d = []))
  end.

#[global] Instance yaml_inhabited : Inhabited yaml := populate YNone.

Definition yaml_of_option (o : option string) : yaml :=
  match o with
  | Some s => YStr s
  | None => YNone
  end.

(** Exceptions raised by the modelled code. *)
Inductive exn : Type :=
| AssertionError
| OutputDuplicationError
| OverlappingOutputPathsError
| OutputDoesNotExistError
| CacheError
| ConflictError.

Inductive result (A : Type) : Type :=
| Return (a : A)
| Raise (e : exn).
Arguments Return {A} a.
Arguments Raise {A} e.

#[global] Instance result_ret : MRet result := λ A, Return.
#[global] Instance result_bind : MBind result :=
  λ A B k m, match m with Return a => k a | Raise e => Raise e end.

(** [assert v] *)
Definition assert (v : yaml) : result unit :=
  if truthy v then Return () else Raise AssertionError.

(** ** collections.OrderedDict *)

Module OrderedDict.
Section ordered_dict.
Context {V : Type}.

Definition t : Type := list (string * V).

Fixpoint get (k : string) (d : t) : option V :=
  match d with
  | [] => None
  | (k', v) :: d' => if String.eqb k k' then Some v else get k d'
  end.

(** [d[k] = v]: an existing key keeps its position, a new key goes last. *)
Fixpoint set (k : string) (v : V) (d : t) : t :=
  match d with
  | [] => [(k, v)]
  | (k', v') :: d' =>
      if String.eqb k k' then (k, v) :: d' else (k', v') :: set k v d'
  end.

Fixpoint remove (k : string) (d : t) : t :=
  match d with
  | [] => []
  | (k', v') :: d' =>
      if String.eqb k k' then remove k d' else (k', v') :: remove k d'
  end.

(** [d.move_to_end(k, last=False)] for a key that is present. *)
Definition move_to_front (k : string) (d : t) : t :=
  match get k d with
  | Some v => (k, v) :: remove k d
  | None => d
  end.

(** [OrderedDict(pairs)]. *)
Definition of_pairs (l : list (string * V)) : t :=
  fold_left (fun d kv => set kv.1 kv.2 d) l [].

Definition keys (d : t) : list string := d.*1.
End ordered_dict.
Arguments t : clear implicits.
End OrderedDict.

(** ** sorted(..., key=...) *)

(** Python's [sorted] is stable and compares [str] keys by code point; a
    stable insertion sort over [String.leb] computes the same list. *)
Section sorted.
Context {A : Type} (key : A → string).

Fixpoint insert_sorted (x : A) (l : list A) : list A :=
  match l with
  | [] => [x]
  | y :: l' =>
      if String.leb (key x) (key y) then x :: l else y :: insert_sorted x l'
  end.

Definition sorted (l : list A) : list A := foldr insert_sorted [] l.
End sorted.

(** [attrgetter("def_path")] works on every object with that attribute. *)
Class HasDefPath (A : Type) := def_path : A → string.

(** [sort_by_path = partial(sorted, key=attrgetter("def_path"))] *)
Definition sort_by_path {A} `{HasDefPath A} : list A → list A :=
  sorted def_path.

(** The order [sorted] establishes on keys. *)
Definition str_le (a b : string) : Prop := String.leb a b = true.

(** ** Stage data model *)

(** [out.plot] and [out.metric] hold either a boolean or a dictionary of
    properties. *)
Inductive flag : Type :=
| FlagBool (b : bool)
| FlagDict (props : list (string * yaml)).

Definition flag_truthy (f : flag) : bool :=
  match f with
  | FlagBool b => b
  | FlagDict props => negb (bool_decide (props = []))
  end.

Record Output : Type := mkOutput {
  out_def_path : string;
  use_cache : bool;
  persist : bool;
  metric : flag;
  plot : flag;
  out_checksum_type : string;
  out_checksum : yaml;
}.

Record Dependency : Type := mkDependency {
  dep_def_path : string;
  dep_checksum_type : string;
  dep_checksum : yaml;
}.

(** The parameters of a [ParamsDependency]: a dictionary key -> value once
    filled, a bare list of keys on [no_exec]. *)
Inductive params_t : Type :=
| ParamsDict (d : gmap string yaml)
| ParamsList (l : list string).

Record ParamsDependency : Type := mkParamsDependency {
  params_def_path : string;
  params : params_t;
}.

#[global] Instance Output_def_path : HasDefPath Output := out_def_path.
#[global] Instance Dependency_def_path : HasDefPath Dependency := dep_def_path.
#[global] Instance Params_def_path : HasDefPath ParamsDependency :=
  params_def_path.

(** [checksum_type] / [checksum] are read from dependencies and outputs
    alike. *)
Class HasChecksum (A : Type) := {
  checksum_type : A → string;
  checksum : A → yaml;
}.
#[global] Instance Output_checksum : HasChecksum Output :=
  {| checksum_type := out_checksum_type; checksum := out_checksum |}.
#[global] Instance Dependency_checksum : HasChecksum Dependency :=
  {| checksum_type := dep_checksum_type; checksum := dep_checksum |}.

Inductive dep : Type :=
| PathDep (d : Dependency)
| ParamsDep (p : ParamsDependency).

Record Stage : Type := mkStage {
  name : string;
  cmd : option string;
  wdir : string;
  path : string;
  deps : list dep;
  outs : list Output;
  frozen : bool;
  always_changed : bool;
}.

(** ** dvc/stage/serialize.py *)

(** Modelled from the spec: the key names are class constants of
    [StageParams], [BaseOutput] and [ParamsDependency], which live outside
    the serialiser; they are the record keys listed for the pipeline
    definition record and the lock record file. *)
Definition PARAM_CMD := "cmd".
Definition PARAM_WDIR := "wdir".
Definition PARAM_DEPS := "deps".
Definition PARAM_PARAMS := "params".
Definition PARAM_OUTS := "outs".
Definition PARAM_METRICS := "metrics".
Definition PARAM_PLOTS := "plots".
Definition PARAM_FROZEN := "frozen".
Definition PARAM_ALWAYS_CHANGED := "always_changed".
Definition PARAM_PATH := "path".
Definition PARAM_CACHE := "cache".
Definition PARAM_METRIC := "metric".
Definition PARAM_PLOT := "plot".
Definition PARAM_PERSIST := "persist".
Definition DEFAULT_PARAMS_FILE := "params.yaml".

(** Modelled from the spec: [split_params_deps] of [dvc/stage/utils.py]
    separates the parameter dependencies of [stage.deps] from the path
    dependencies, keeping the order of each. *)
Definition split_params_deps (stage : Stage)
  : list ParamsDependency * list Dependency :=
  (omap (λ d, match d with ParamsDep p => Some p | PathDep _ => None end)
        (deps stage),
   omap (λ d, match d with PathDep p => Some p | ParamsDep _ => None end)
        (deps stage)).

(** Modelled from the spec: [ParamsDependency.dumpd] reports the
    dependency's path and its parameters (a dictionary or a list). *)
Definition dumpd (p : ParamsDependency) : string * params_t :=
  (def_path p, params p).

Definition _get_flags (out : Output) : OrderedDict.t yaml :=
  OrderedDict.of_pairs
    ((if negb (use_cache out) then [(PARAM_CACHE, YBool false)] else [])
     ++ (if persist out then [(PARAM_PERSIST, YBool true)] else [])
     ++ (match plot out with
         | FlagDict props => if flag_truthy (plot out) then props else []
         | FlagBool _ => []
         end)).

Definition _serialize_out (out : Output) : yaml :=
  let flags := _get_flags out in
  if negb (truthy (YDict flags)) then YStr (def_path out)
  else YDict [(def_path out, YDict flags)].

Definition _serialize_outs (outputs : list Output)
  : list yaml * list yaml * list yaml :=
  fold_left
    (λ '(outs, metrics, plots) out,
       if flag_truthy (plot out) then
         (outs, metrics, plots ++ [_serialize_out out])
       else if flag_truthy (metric out) then
         (outs, metrics ++ [_serialize_out out], plots)
       else (outs ++ [_serialize_out out], metrics, plots))
    (sort_by_path outputs) ([], [], []).

(** [params.keys() if isinstance(params, dict) else params] *)
Definition params_keys (p : params_t) : list string :=
  match p with
  | ParamsDict d => (map_to_list d).*1
  | ParamsList l => l
  end.

Definition _serialize_params_keys (params : list ParamsDependency)
  : list yaml :=
  fold_left
    (λ keys param_dep,
       let '(path, params) := dumpd param_dep in
       let k := sorted id (params_keys params) in
       if bool_decide (k = []) then keys
       else if String.eqb path DEFAULT_PARAMS_FILE then (YStr <$> k) ++ keys
       else keys ++ [YDict [(path, YList (YStr <$> k))]])
    (sort_by_path params) [].

Definition _serialize_params_values (params : list ParamsDependency)
  : OrderedDict.t (OrderedDict.t yaml) :=
  fold_left
    (λ key_vals param_dep,
       let '(path, params) := dumpd param_dep in
       match params with
       | ParamsDict d =>
           let kv :=
             (λ key, (key, d !!! key)) <$> sorted id (params_keys params) in
           let key_vals :=
             OrderedDict.set path (OrderedDict.of_pairs kv) key_vals in
           if String.eqb path DEFAULT_PARAMS_FILE
           then OrderedDict.move_to_front path key_vals
           else key_vals
       | ParamsList _ => key_vals
       end)
    (sort_by_path params) [].

(** [OrderedDict([(PARAM_PATH, item.def_path),
                  (item.checksum_type, item.checksum)])] *)
Definition lock_entry {A} `{HasDefPath A, HasChecksum A} (item : A)
  : OrderedDict.t yaml :=
  OrderedDict.of_pairs
    [(PARAM_PATH, YStr (def_path item)); (checksum_type item, checksum item)].

Definition to_single_stage_lockfile (stage : Stage)
  : result (OrderedDict.t yaml) :=
  _ ← assert (yaml_of_option (cmd stage));
  let res := OrderedDict.of_pairs [("cmd", yaml_of_option (cmd stage))] in
  let '(params, deps) := split_params_deps stage in
  let deps := lock_entry <$> sort_by_path deps in
  let outs := lock_entry <$> sort_by_path (outs stage) in
  let params := _serialize_params_values params in
  let res :=
    if truthy (YList (YDict <$> deps))
    then OrderedDict.set PARAM_DEPS (YList (YDict <$> deps)) res else res in
  let res :=
    if bool_decide (params = []) then res
    else OrderedDict.set PARAM_PARAMS
           (YDict (prod_map id YDict <$> params)) res in
  let res :=
    if truthy (YList (YDict <$> outs))
    then OrderedDict.set PARAM_OUTS (YList (YDict <$> outs)) res else res in
  Return res.

(** [{stage.name: to_single_stage_lockfile(stage)}] *)
Definition to_lockfile (stage : Stage) : result (list (string * yaml)) :=
  _ ← assert (YStr (name stage));
  r ← to_single_stage_lockfile stage;
  Return [(name stage, YDict r)].

Section pipeline_file.
(** [resolve_wdir] of [dvc/stage/utils.py] relates the working directory
    to the directory of the stage file; the serialiser only forwards its
    result. *)
Variable resolve_wdir : string → string → option string.

(** The [res] list of [to_pipeline_file], before the empty values are
    dropped. *)
Definition pipeline_fields (stage : Stage) : list (string * yaml) :=
  let wdir := resolve_wdir (wdir stage) (path stage) in
  let '(params, deps) := split_params_deps stage in
  let deps := sorted id (def_path <$> deps) in
  let params := _serialize_params_keys params in
  let '(outs, metrics, plots) := _serialize_outs (outs stage) in
  [ (PARAM_CMD, yaml_of_option (cmd stage));
    (PARAM_WDIR, yaml_of_option wdir);
    (PARAM_DEPS, YList (YStr <$> deps));
    (PARAM_PARAMS, YList params);
    (PARAM_OUTS, YList outs);
    (PARAM_METRICS, YList metrics);
    (PARAM_PLOTS, YList plots);
    (PARAM_FROZEN, YBool (frozen stage));
    (PARAM_ALWAYS_CHANGED, YBool (always_changed stage)) ].

Definition to_pipeline_file (stage : Stage) : list (string * yaml) :=
  let res := pipeline_fields stage in
  [(name stage,
    YDict (OrderedDict.of_pairs (filter (λ kv, truthy kv.2) res)))].
End pipeline_file.

(** ** Vocabulary of the statements on serialisation *)

(** The order [sorted] establishes on the elements. *)
Definition key_le {A : Type} (key : A → string) (x y : A) : Prop :=
  str_le (key x) (key y).

Definition in_plots (out : Output) : Prop := flag_truthy (plot out).
Definition in_metrics (out : Output) : Prop :=
  ¬ flag_truthy (plot out) ∧ flag_truthy (metric out).
Definition in_outs (out : Output) : Prop :=
  ¬ flag_truthy (plot out) ∧ ¬ flag_truthy (metric out).

#[global] Instance in_plots_dec out : Decision (in_plots out).
Proof. unfold in_plots. apply _. Defined.
#[global] Instance in_metrics_dec out : Decision (in_metrics out).
Proof. unfold in_metrics. apply _. Defined.
#[global] Instance in_outs_dec out : Decision (in_outs out).
Proof. unfold in_outs. apply _. Defined.

(** An entry [{path, checksum}] of the [deps] / [outs] list of a lock
    record. *)
Definition lock_item {A} `{HasDefPath A, HasChecksum A} (item : A) : yaml :=
  YDict [(PARAM_PATH, YStr (def_path item));
         (checksum_type item, checksum item)].

(** A key that is only written for a non-empty list. *)
Definition optional_field {A} (k : string) (l : list A) (v : yaml)
  : list (string * yaml) :=
  match l with
  | [] => []
  | _ :: _ => [(k, v)]
  end.

Definition is_default (p : ParamsDependency) : Prop :=
  def_path p = DEFAULT_PARAMS_FILE.

Definition is_dict (p : ParamsDependency) : Prop :=
  match params p with
  | ParamsDict _ => True
  | ParamsList _ => False
  end.

#[global] Instance is_default_dec p : Decision (is_default p).
Proof. unfold is_default. apply _. Defined.
#[global] Instance is_dict_dec p : Decision (is_dict p).
Proof. unfold is_dict. destruct (params p); apply _. Defined.

(** The keys of one parameter file, in ascending order. *)
Definition sorted_keys (p : ParamsDependency) : list string :=
  sorted id (params_keys (params p)).

(** The pipeline-file entry [{path: [key, ...]}] of a non-default file. *)
Definition grouped_entry (p : ParamsDependency) : yaml :=
  YDict [(def_path p, YList (YStr <$> sorted_keys p))].

(** The lockfile entry [path: {key: value, ...}] of a parameter file. *)
Definition lock_params (p : ParamsDependency) : string * OrderedDict.t yaml :=
  (def_path p,
   match params p with
   | ParamsDict d => (λ key, (key, d !!! key)) <$> sorted_keys p
   | ParamsList _ => []
   end).

(** The path an entry of an [outs], [metrics] or [plots] list is about:
    the entry itself, or the single key of its mapping. *)
Definition entry_path (entry : yaml) : option string :=
  match entry with
  | YStr p => Some p
  | YDict [(p, _)] => Some p
  | _ => None
  end.

(** ** The add / cache / hasher contract *)

(** [Module Repo] models what stands behind [dvc add] ([dvc/repo/add.py],
    [dvc/cache], [dvc/state.py], [dvc/output]) from the specification, with
    the behaviour [tests/func/test_add.py] pins down. *)
Module Repo.

(** Modelled from the spec: [PathInfo] of [dvc/path_info.py]. A path is the
    list of its components; one path overlaps another when they are equal or
    one lies below the other. *)
Definition path_info : Type := list string.

Definition ContentId : Type := string.

Definition posix (p : path_info) : string := String.concat "/" p.

Definition overlapping (a b : path_info) : Prop :=
  a `prefix_of` b ∨ b `prefix_of` a.

Definition is_under (d p : path_info) : Prop := d `prefix_of` p ∧ d ≠ p.

(** Modelled from the spec: the cache types of [dvc/cache], the link
    strategies of [materialize]. *)
Inductive strategy : Type := Hardlink | Symlink | Copy | Reflink.

(** Modelled from the spec: the file system under [LocalRemoteTree]. Bytes,
    modification time and the read-only bit belong to an inode; a workspace
    name is a hard link to an inode or a symbolic link to a cache entry. *)
Record inode : Type := mkInode {
  data : string;
  mtime : N;
  writable : bool;
}.

Inductive entry : Type :=
| Hard (ino : N)
| Sym (target : ContentId).

(** The mutation fingerprint [(size, mtime, inode)]. *)
Definition fingerprint : Type := N * N * N.

(** The instrumentation hook: calls that hash content, copy into the cache,
    link into the workspace or change protection are logged. *)
Inductive event : Type :=
| EvHash (p : path_info)
| EvStore (h : ContentId)
| EvLink (p : path_info) (s : strategy)
| EvProtect (ino : N)
| EvUnprotect (p : path_info)
| EvWarn (d : path_info).

(** Modelled from the spec: [Repo] of [dvc/repo], the repository-scoped
    context object: file system, cache (CacheEntry: ContentId -> blob),
    directory objects, the mutation-fingerprint table keyed by path, the
    Outputs recorded by the stages (path -> owning stage file and
    ContentId), the link strategy in effect, a clock that also numbers new
    inodes, and the call log. *)
Record repo : Type := mkRepo {
  inodes : gmap N inode;
  workspace : gmap path_info entry;
  cache : gmap ContentId N;
  dir_objects : gmap ContentId (list (path_info * ContentId));
  state : gmap path_info (fingerprint * ContentId);
  outputs : gmap path_info (string * ContentId);
  link_type : strategy;
  clock : N;
  trace : list event;
}.

Definition set_inodes (f : gmap N inode → gmap N inode) (r : repo) : repo :=
  mkRepo (f (inodes r)) (workspace r) (cache r) (dir_objects r) (state r)
    (outputs r) (link_type r) (clock r) (trace r).

Definition set_workspace
    (f : gmap path_info entry → gmap path_info entry) (r : repo) : repo :=
  mkRepo (inodes r) (f (workspace r)) (cache r) (dir_objects r) (state r)
    (outputs r) (link_type r) (clock r) (trace r).

Definition set_cache (f : gmap ContentId N → gmap ContentId N) (r : repo)
  : repo :=
  mkRepo (inodes r) (workspace r) (f (cache r)) (dir_objects r) (state r)
    (outputs r) (link_type r) (clock r) (trace r).

Definition set_dir_objects
    (f : gmap ContentId (list (path_info * ContentId)) →
         gmap ContentId (list (path_info * ContentId))) (r : repo) : repo :=
  mkRepo (inodes r) (workspace r) (cache r) (f (dir_objects r)) (state r)
    (outputs r) (link_type r) (clock r) (trace r).

Definition set_state
    (f : gmap path_info (fingerprint * ContentId) →
         gmap path_info (fingerprint * ContentId)) (r : repo) : repo :=
  mkRepo (inodes r) (workspace r) (cache r) (dir_objects r) (f (state r))
    (outputs r) (link_type r) (clock r) (trace r).

Definition set_outputs
    (f : gmap path_info (string * ContentId) →
         gmap path_info (string * ContentId)) (r : repo) : repo :=
  mkRepo (inodes r) (workspace r) (cache r) (dir_objects r) (state r)
    (f (outputs r)) (link_type r) (clock r) (trace r).

Definition tick (r : repo) : repo :=
  mkRepo (inodes r) (workspace r) (cache r) (dir_objects r) (state r)
    (outputs r) (link_type r) (N.succ (clock r)) (trace r).

Definition emit (e : event) (r : repo) : repo :=
  mkRepo (inodes r) (workspace r) (cache r) (dir_objects r) (state r)
    (outputs r) (link_type r) (clock r) (trace r ++ [e]).

(** Commands run on the repository and may raise; the repository reached
    when an exception is raised is kept. *)
Definition M (A : Type) : Type := repo → result A * repo.

#[global] Instance M_ret : MRet M := λ A a r, (Return a, r).
#[global] Instance M_bind : MBind M := λ A B k m r,
  match m r with
  | (Return a, r') => k a r'
  | (Raise e, r') => (Raise e, r')
  end.

Definition raise {A} (e : exn) : M A := λ r, (Raise e, r).

Definition get : M repo := λ r, (Return r, r).

Definition modify (f : repo → repo) : M unit := λ r, (Return (), f r).

Definition unwrap {A} (e : exn) (o : option A) : M A :=
  match o with
  | Some a => mret a
  | None => raise e
  end.

(** The stage file [dvc add] writes for a path. *)
Definition stage_file (p : path_info) : string := posix p +:+ ".dvc".

(** [stat] of a workspace path; symbolic links are followed into the
    cache. *)
Definition resolve (r : repo) (p : path_info) : option (N * inode) :=
  match workspace r !! p with
  | Some (Hard i) => (λ f, (i, f)) <$> inodes r !! i
  | Some (Sym h) => i ← cache r !! h; (λ f, (i, f)) <$> inodes r !! i
  | None => None
  end.

(** The files below a directory, in path order. *)
Definition members (r : repo) (d : path_info) : list path_info :=
  sorted posix (filter (is_under d) (map_to_list (workspace r)).*1).

Definition relative (d p : path_info) : path_info := drop (List.length d) p.

Definition file_fingerprint (i : N) (f : inode) : fingerprint :=
  (N.of_nat (String.length (data f)), mtime f, i).

(** A directory is fingerprinted by its files: total size and latest
    modification time. *)
Definition dir_fingerprint (r : repo) (d : path_info) : option fingerprint :=
  match omap (resolve r) (members r d) with
  | [] => None
  | fs =>
      Some (foldr (λ '(_, f) n, N.of_nat (String.length (data f)) + n)%N 0%N fs,
            foldr (λ '(_, f) n, N.max (mtime f) n) 0%N fs,
            0%N)
  end.

Definition fingerprint_of (r : repo) (p : path_info) : option fingerprint :=
  match resolve r p with
  | Some (i, f) => Some (file_fingerprint i f)
  | None => dir_fingerprint r p
  end.

Section core.
(** The digest of a blob and the serialised form of a directory listing are
    left abstract, like the threshold of the large-directory advisory
    ([LARGE_DIR_SIZE] of [dvc/utils]). *)
Variable digest : string → ContentId.
Variable serialize : list (path_info * ContentId) → string.
Variable LARGE_DIR_SIZE : nat.

(** Modelled from the spec: the Hasher's memoization ([dvc/state.py]). The
    fingerprint table is consulted first; on a matching record the stored
    ContentId is returned and nothing else happens; otherwise the content is
    hashed and the record upserted. *)
Definition memoized (p : path_info) (fp : fingerprint) (compute : M ContentId)
  : M ContentId :=
  r ← get;
  match state r !! p with
  | Some (fp', h) =>
      if bool_decide (fp' = fp) then mret h
      else h ← compute; _ ← modify (set_state <[p := (fp, h)]>); mret h
  | None => h ← compute; _ ← modify (set_state <[p := (fp, h)]>); mret h
  end.

(** Modelled from the spec: [hash(path)] of a file ([file_md5] behind the
    tree's [get_hash]). *)
Definition hash_file (p : path_info) : M ContentId :=
  r ← get;
  '(i, f) ← unwrap OutputDoesNotExistError (resolve r p);
  memoized p (file_fingerprint i f)
    (_ ← modify (emit (EvHash p)); mret (digest (data f))).

(** Modelled from the spec: [hash(path)] of a directory ([get_dir_hash] of
    [LocalRemoteTree]): every file below it is hashed into a DirEntry, the
    entries are taken in path order, serialised and hashed; the DirObject is
    stored under its tagged identity. *)
Definition hash_dir (d : path_info) : M ContentId :=
  r ← get;
  entries ← mapM (λ q, h ← hash_file q; mret (relative d q, h)) (members r d);
  let h := digest (serialize entries) +:+ ".dir" in
  _ ← modify (emit (EvHash d));
  _ ← modify (set_dir_objects <[h := entries]>);
  mret h.

(** Modelled from the spec: the Hasher, [hash(path) -> ContentId]
    ([get_hash] of the tree). *)
Definition hash (p : path_info) : M ContentId :=
  r ← get;
  match resolve r p with
  | Some _ => hash_file p
  | None =>
      fp ← unwrap OutputDoesNotExistError (dir_fingerprint r p);
      memoized p fp (hash_dir p)
  end.

(** Modelled from the spec: [has(id)] of the Cache Store ([dvc/cache]), an
    existence check. *)
Definition has (h : ContentId) (r : repo) : bool :=
  bool_decide (is_Some (cache r !! h)).

(** Modelled from the spec: [store(sourcePath, id)] of the Cache Store
    transfers the bytes into a new read-only cache entry. *)
Definition store (p : path_info) (h : ContentId) : M unit :=
  r ← get;
  '(_, f) ← unwrap OutputDoesNotExistError (resolve r p);
  let i := clock r in
  _ ← modify (set_inodes <[i := mkInode (data f) (clock r) false]>);
  _ ← modify (set_cache <[h := i]>);
  _ ← modify tick;
  modify (emit (EvStore h)).

(** Modelled from the spec: [protect] of the tree sets the read-only bit. *)
Definition protect (i : N) : M unit :=
  _ ← modify (set_inodes (alter (λ f, mkInode (data f) (mtime f) false) i));
  modify (emit (EvProtect i)).

(** Modelled from the spec: [materialize(id, destPath, strategy)] of the
    Cache Store, with the strategy in effect. A hard link shares the inode
    of the cache entry, which is then marked read-only; a symbolic link
    resolves through the cache; a copy or reflink gets bytes of its own,
    left writable as [test_should_protect_on_repeated_add] observes. *)
Definition materialize (h : ContentId) (p : path_info) : M unit :=
  r ← get;
  i ← unwrap CacheError (cache r !! h);
  f ← unwrap CacheError (inodes r !! i);
  match link_type r with
  | Hardlink =>
      _ ← modify (set_workspace <[p := Hard i]>);
      _ ← protect i;
      modify (emit (EvLink p Hardlink))
  | Symlink =>
      _ ← modify (set_workspace <[p := Sym h]>);
      _ ← protect i;
      modify (emit (EvLink p Symlink))
  | (Copy | Reflink) as s =>
      let j := clock r in
      _ ← modify (set_inodes <[j := mkInode (data f) (clock r) true]>);
      _ ← modify (set_workspace <[p := Hard j]>);
      _ ← modify tick;
      modify (emit (EvLink p s))
  end.

Definition in_cache (i : N) (r : repo) : Prop :=
  map_Exists (λ _ j, j = i) (cache r).

(** Modelled from the spec: [unprotect] of the tree ([dvc unprotect]) makes
    a workspace file editable in place. A file that shares its bytes with
    the cache is first given bytes of its own, so that the cache entry is
    never mutated. *)
Definition unprotect (p : path_info) : M unit :=
  r ← get;
  '(i, f) ← unwrap OutputDoesNotExistError (resolve r p);
  _ ← (if bool_decide (in_cache i r) then
         let j := clock r in
         _ ← modify (set_inodes <[j := mkInode (data f) (clock r) true]>);
         _ ← modify (set_workspace <[p := Hard j]>);
         modify tick
       else
         modify (set_inodes (alter (λ f, mkInode (data f) (mtime f) true) i)));
  modify (emit (EvUnprotect p)).

(** The workspace file is the link the strategy in effect produces, with
    its protection in place. *)
Definition link_ok (r : repo) (p : path_info) (h : ContentId) : bool :=
  match cache r !! h with
  | None => false
  | Some i =>
      match link_type r, workspace r !! p with
      | Hardlink, Some (Hard j) =>
          bool_decide (j = i)
          && bool_decide (writable <$> inodes r !! i = Some false)
      | Symlink, Some (Sym h') =>
          bool_decide (h' = h)
          && bool_decide (writable <$> inodes r !! i = Some false)
      | (Copy | Reflink), Some (Hard j) => bool_decide (j ≠ i)
      | _, _ => false
      end
  end.

(** Modelled from the spec: the structural validation of the Stage Graph
    ([check_modified_graph] of [dvc/repo]). An Output owned by another stage
    at the same path is a duplication, one above or below the path an
    overlap; re-adding a path replaces its own stage file
    ([test_not_raises_on_re_add]). *)
Definition validate (p : path_info) : M unit :=
  r ← get;
  _ ← match outputs r !! p with
      | Some (s, _) =>
          if bool_decide (s = stage_file p) then mret ()
          else raise OutputDuplicationError
      | None => mret ()
      end;
  if bool_decide (map_Exists (λ q _, q ≠ p ∧ overlapping p q) (outputs r))
  then raise OverlappingOutputPathsError
  else mret ().

(** Refreshing the mutation fingerprint of a path. *)
Definition refresh (p : path_info) (h : ContentId) : M unit :=
  r ← get;
  match fingerprint_of r p with
  | Some fp => modify (set_state <[p := (fp, h)]>)
  | None => mret ()
  end.

(** Modelled from the spec: committing one file to the cache ([save] of
    [dvc/cache]): content new to the cache is stored; the workspace file is
    linked again only when it is not the link the strategy produces or has
    lost its protection ([TestAddUnprotected],
    [test_should_relink_on_repeated_add],
    [test_should_protect_on_repeated_add]); the fingerprint is refreshed. *)
Definition commit_file (p : path_info) (h : ContentId) : M unit :=
  r ← get;
  _ ← (if has h r then mret () else store p h);
  r ← get;
  _ ← (if link_ok r p h then mret () else materialize h p);
  refresh p h.

(** Modelled from the spec: [loadDirObject] of the Cache Store, with the
    entries placed below directory [p]. *)
Definition load_dir_object (p : path_info) (h : ContentId)
  : M (list (path_info * ContentId)) :=
  r ← get;
  entries ← unwrap CacheError (dir_objects r !! h);
  mret ((λ '(rel, hf), (p ++ rel, hf)) <$> entries).

(** Modelled from the spec: [add(path)] of [dvc/repo/add.py]: validation
    first, then hashing, committing the file (or every file of the
    directory) and recording the Output. *)
Definition add (p : path_info) : M unit :=
  _ ← validate p;
  h ← hash p;
  r ← get;
  targets ← (if bool_decide (is_Some (resolve r p)) then mret [(p, h)]
             else load_dir_object p h);
  _ ← mapM (λ '(q, hq), commit_file q hq) targets;
  _ ← refresh p h;
  modify (set_outputs <[p := (stage_file p, h)]>).

(** Modelled from the spec: [status] of [dvc/repo] compares the current
    ContentId of a path with the recorded one. *)
Definition status (p : path_info) : M bool :=
  h ← hash p;
  r ← get;
  mret (bool_decide (snd <$> outputs r !! p ≠ Some h)).

(** Modelled from the spec: [run] of [dvc/repo]; running a stage hashes its
    dependency. *)
Definition run_dep (p : path_info) : M unit :=
  _ ← hash p; mret ().

(** Modelled from the spec: [checkout] of [dvc/repo]: content already in
    place and correct is skipped, different content is a conflict, missing
    content is materialized from the cache. *)
Definition checkout (p : path_info) : M unit :=
  r ← get;
  '(_, h) ← unwrap OutputDoesNotExistError (outputs r !! p);
  match fingerprint_of r p with
  | Some _ =>
      h' ← hash p;
      if bool_decide (h' = h) then mret () else raise ConflictError
  | None =>
      targets ← (if bool_decide (is_Some (dir_objects r !! h))
                 then load_dir_object p h else mret [(p, h)]);
      _ ← mapM (λ '(q, hq), _ ← materialize hq q; refresh q hq) targets;
      refresh p h
  end.

(** Modelled from the spec: [add(path, recursive=True)] of [dvc/repo/add.py]
    adds every file below the directory on its own, after the
    large-directory advisory. *)
Definition add_recursive (d : path_info) : M unit :=
  r ← get;
  let targets := members r d in
  _ ← (if bool_decide (LARGE_DIR_SIZE < List.length targets)
       then modify (emit (EvWarn d)) else mret ());
  _ ← mapM add targets;
  mret ().

(** Modelled from the spec: [main] of [dvc/main.py], the exit status of the
    command. *)
Definition main_add_recursive (d : path_info) (r : repo) : Z * repo :=
  match add_recursive d r with
  | (Return _, r') => (0%Z, r')
  | (Raise _, r') => (1%Z, r')
  end.

Inductive op : Type := Status | Run | Checkout.

Definition step (p : path_info) (o : op) : M unit :=
  match o with
  | Status => _ ← status p; mret ()
  | Run => run_dep p
  | Checkout => checkout p
  end.

Definition steps (p : path_info) (ops : list op) : M unit :=
  foldr (λ o k, _ ← step p o; k) (mret ()) ops.

(** The targets [add p] commits: the file itself, or the entries of the
    directory object. *)
Definition add_targets (p : path_info) (r : repo)
  : list (path_info * ContentId) :=
  match hash p r with
  | (Return h, r1) =>
      if bool_decide (is_Some (resolve r1 p)) then [(p, h)]
      else match load_dir_object p h r1 with
           | (Return targets, _) => targets
           | (Raise _, _) => []
           end
  | (Raise _, _) => []
  end.
End core.

(** *** Vocabulary of the statements *)

Definition is_hash (e : event) : bool :=
  match e with
  | EvHash _ => true
  | _ => false
  end.

Definition hash_count (r : repo) : nat :=
  List.length (filter (λ e, is_hash e = true) (trace r)).

(** The tables and the log that hashing may touch. *)
Definition hasher_update
    (st : gmap path_info (fingerprint * ContentId))
    (dobj : gmap ContentId (list (path_info * ContentId)))
    (tr : list event) (r : repo) : repo :=
  mkRepo (inodes r) (workspace r) (cache r) dobj st (outputs r)
    (link_type r) (clock r) tr.

Definition hasher_only (r r' : repo) : Prop :=
  ∃ st dobj evs, r' = hasher_update st dobj (trace r ++ evs) r
                 ∧ Forall (λ e, is_hash e = true) evs.

(** Every cache entry has its blob, every workspace entry its target. *)
Definition well_formed (r : repo) : Prop :=
  (∀ h i, cache r !! h = Some i → is_Some (inodes r !! i))
  ∧ (∀ p i, workspace r !! p = Some (Hard i) → is_Some (inodes r !! i))
  ∧ (∀ p h, workspace r !! p = Some (Sym h) → is_Some (cache r !! h)).

(** The target of a workspace entry exists. *)
Definition entry_ok (r : repo) (e : entry) : Prop :=
  match e with
  | Hard i => is_Some (inodes r !! i)
  | Sym h => is_Some (cache r !! h)
  end.

#[global] Instance entry_ok_dec r e : Decision (entry_ok r e).
Proof. destruct e; apply _. Defined.

(** No Output of another stage is [p], above [p] or below [p]. *)
Definition can_add (r : repo) (p : path_info) : Prop :=
  (∀ s h, outputs r !! p = Some (s, h) → s = stage_file p)
  ∧ ∀ q v, outputs r !! q = Some v → q ≠ p → ¬ overlapping p q.

(** No file of the workspace lies below another file. *)
Definition prefix_free (r : repo) : Prop :=
  ∀ p q, is_Some (workspace r !! p) → is_Some (workspace r !! q) →
         p `prefix_of` q → p = q.


(** The path is in the workspace, its fingerprint record is current and
    names the recorded ContentId. *)
Definition clean (r : repo) (p : path_info) : Prop :=
  ∃ fp s h, fingerprint_of r p = Some fp
            ∧ state r !! p = Some (fp, h)
            ∧ outputs r !! p = Some (s, h).

(** Re-adding [p] touches nothing but the Hasher's tables: no copy into the
    cache, no link, no change of protection. *)
Definition readd_is_noop
    (digest : string → ContentId)
    (serialize : list (path_info * ContentId) → string)
    (r : repo) (p : path_info) : Prop :=
  ∀ res r', add digest serialize p r = (res, r') →
    inodes r' = inodes r ∧ workspace r' = workspace r ∧ cache r' = cache r
    ∧ ∃ evs, trace r' = trace r ++ evs ∧ Forall (λ e, is_hash e = true) evs.

(** Re-add idempotence as the specification words it: the recorded
    ContentId being the current one is all it asks for. *)
Definition readd_idempotent
    (digest : string → ContentId)
    (serialize : list (path_info * ContentId) → string)
    (r : repo) (p : path_info) : Prop :=
  ∀ s h, outputs r !! p = Some (s, h) →
         (hash digest serialize p r).1 = Return h →
         readd_is_noop digest serialize r p.
End Repo.

(** Python's [==] on the values above: booleans compare as the integers 0
    and 1, lists element by element, dictionaries as mappings whatever the
    order of their keys. *)
Fixpoint py_eq (a b : yaml) : bool :=
  match a, b with
  | YNone, YNone => true
  | YBool x, YBool y => Bool.eqb x y
  | YBool x, YInt z | YInt z, YBool x => Z.eqb z (if x then 1 else 0)
  | YInt x, YInt y => Z.eqb x y
  | YStr x, YStr y => String.eqb x y
  | YList l, YList l' =>
      (fix go (l l' : list yaml) : bool :=
         match l, l' with
         | [], [] => true
         | x :: l, y :: l' => py_eq x y && go l l'
         | _, _ => false
         end) l l'
  | YDict d, YDict d' =>
      Nat.eqb (List.length d) (List.length d')
      && (fix go (d : list (string * yaml)) : bool :=
            match d with
            | [] => true
            | (k, v) :: d =>
                match OrderedDict.get k d' with
                | Some v' => py_eq v v'
                | None => false
                end && go d
            end) d
  | _, _ => false
  end.

(** ** dvc/repo/plots/__init__.py *)

Module Plots.

Inductive error : Type :=
| NotAPlotError (out : string)
| PropsNotFoundError (missing : gset string)
| DvcException (msg : string)
| OutputNotFoundError
| NoPlotsError
| NoMetricInHistoryError (target : string)
| KeyError (key : string)
| ValueError.

Inductive res (A : Type) : Type :=
| Ok (a : A)
| Err (e : error).
Arguments Ok {A} a.
Arguments Err {A} e.

#[global] Instance res_ret : MRet res := λ A, Ok.
#[global] Instance res_bind : MBind res :=
  λ A B k m, match m with Ok a => k a | Err e => Err e end.

(** A dictionary of display properties. *)
Definition props_t : Type := OrderedDict.t yaml.

(** [out.plot]: a boolean, a dictionary of properties or a list. *)
Inductive plot_t : Type :=
| PlotBool (b : bool)
| PlotDict (props : props_t)
| PlotList (l : list yaml).

Definition plot_truthy (p : plot_t) : bool :=
  match p with
  | PlotBool b => b
  | PlotDict props => negb (bool_decide (props = []))
  | PlotList l => negb (bool_decide (l = []))
  end.

(** The part of an output the plots code reads and writes. *)
Record Out : Type := mkOut {
  path_info : string;
  plot : plot_t;
}.

(** The part of the repository the plots code reads, as checked out at
    one revision: the outputs of its stages, [find_outs_by_path] and
    [RepoTree.open] followed by [read], [None] standing for
    [FileNotFoundError]. *)
Record Repo : Type := mkRepo {
  stages : list (list Out);
  find_outs_by_path : string → res (list Out);
  open_ : string → option string;
}.

(** [d.update(other)] *)
Definition update (d other : props_t) : props_t :=
  fold_left (λ d kv, OrderedDict.set kv.1 kv.2 d) other d.

(** [out.plot.pop(prop)]; the second component is the dictionary the call
    leaves behind. *)
Definition pop (prop : string) (plot : props_t) : res unit * props_t :=
  match OrderedDict.get prop plot with
  | Some _ => (Ok (), OrderedDict.remove prop plot)
  | None => (Err (KeyError prop), plot)
  end.

(** [for prop in props: out.plot.pop(prop)] *)
Fixpoint pop_all (props : list string) (plot : props_t)
  : res unit * props_t :=
  match props with
  | [] => (Ok (), plot)
  | prop :: props =>
      match pop prop plot with
      | (Ok _, plot) => pop_all props plot
      | (Err e, plot) => (Err e, plot)
      end
  end.

(** [Plots._unset], on the dictionary [out.plot]. *)
Definition _unset (props : list string) (plot : props_t)
  : res unit * props_t :=
  let missing : gset string :=
    list_to_set props ∖ list_to_set (OrderedDict.keys plot) in
  if bool_decide (missing ≠ ∅)
  then (Err (PropsNotFoundError missing), plot)
  else pop_all props plot.

(** [out.plot] once [if not isinstance(out.plot, dict): out.plot = {}] has
    run. *)
Definition as_dict (p : plot_t) : props_t :=
  match p with
  | PlotDict d => d
  | PlotBool _ | PlotList _ => []
  end.

(** The plot attribute as the stage serialiser reads it. *)
Definition as_flag (p : plot_t) : option flag :=
  match p with
  | PlotBool b => Some (FlagBool b)
  | PlotDict d => Some (FlagDict d)
  | PlotList _ => None
  end.

Section modify.
(** [repo.plot_templates.get_template] and [out.verify_metric] belong to
    other modules; [modify] only lets their errors through. *)
Variable get_template : yaml → res unit.
Variable verify_metric : Out → res unit.

(** [Plots.modify]; the result is the output as it is handed to
    [Dvcfile.dump]. *)
Definition modify (repo : Repo) (path : string) (props : option props_t)
    (unset : option (list string)) : res Out :=
  let props := default [] props in
  _ ← match OrderedDict.get "template" props with
      | Some template =>
          if truthy template then get_template template else Ok ()
      | None => Ok ()
      end;
  found ← find_outs_by_path repo path;
  match found with
  | [out] =>
      if negb (plot_truthy (plot out)) && bool_decide (is_Some unset)
      then Err (NotAPlotError (path_info out))
      else
        let plot0 := as_dict (plot out) in
        plot1 ← match unset with
                 | Some ((_ :: _) as unset) =>
                     match _unset unset plot0 with
                     | (Ok _, d) => Ok d
                     | (Err e, _) => Err e
                     end
                 | _ => Ok plot0
                 end;
        let plot2 := update plot1 props in
        let out :=
          mkOut (path_info out)
            (if bool_decide (plot2 = []) then PlotBool true
             else PlotDict plot2) in
        _ ← verify_metric out;
        Ok out
  | _ => Err ValueError
  end.
End modify.

(** What a generator hands to its consumer: an output, a logged warning,
    or an exception that ends it. *)
Inductive item : Type :=
| Yield (out : Out)
| Warning (target rev : string)
| Raise (e : error).

(** What the plots code logs or prints. *)
Inductive event : Type :=
| NotFound (target rev : string)
| Printed (path : string)
| Inconsistent (datafile rev0 rev : string).

(** [{"props": ..., "data": ...}] for one data file at one revision; the
    data is only there when the file could be read. *)
Record desc : Type := mkDesc {
  desc_props : props_t;
  desc_data : option string;
}.

(** [{rev: {datafile: desc}}] *)
Definition data_t : Type := OrderedDict.t (OrderedDict.t desc).

(** [{"props": ..., "data": {rev: blob}}] for one data file. *)
Record plot_desc : Type := mkPlotDesc {
  plot_props : props_t;
  plot_data : OrderedDict.t string;
}.

(** [[targets] if isinstance(targets, str) else targets or []] *)
Definition as_list (targets : option (string + list string)) : list string :=
  match targets with
  | Some (inl t) => [t]
  | Some (inr l) => l
  | None => []
  end.

(** A loop over [l] that threads a state and stops at the first
    exception. *)
Fixpoint for_each {S A : Type} (body : S → A → res unit * S)
    (l : list A) (st : S) : res unit * S :=
  match l with
  | [] => (Ok (), st)
  | x :: l =>
      match body st x with
      | (Ok _, st) => for_each body l st
      | (Err e, st) => (Err e, st)
      end
  end.

Section collect.
(** [funcy.project(·, PLOT_PROPS)]: the properties of the plot schema. *)
Variable project : props_t → props_t.
(** [repo.brancher(revs=revs)] yields the revisions, the repository being
    switched to each in turn; [relpath(·, repo.root_dir)]. *)
Variable brancher : option (list string) → list (string * Repo).
Variable relpath : string → string.

Definition _plot_props (out : Out) : res props_t :=
  if negb (plot_truthy (plot out)) then Err (NotAPlotError (path_info out))
  else match plot out with
       | PlotList _ =>
           Err (DvcException "Multiple plots per data file not supported.")
       | PlotBool _ => Ok []
       | PlotDict props => Ok (project props)
       end.

Definition _targets_to_outs (repo : Repo) (rev : string)
    (targets : list string) : list item :=
  (λ t, match find_outs_by_path repo t with
        | Ok [out] => Yield out
        | Ok _ => Raise ValueError
        | Err OutputNotFoundError => Warning t rev
        | Err e => Raise e
        end) <$> targets.

(** [{out.path_info: _plot_props(out) for out in outs}], the generator
    being run as far as the comprehension asks for items; the second
    component collects what is logged on the way. *)
Fixpoint comprehension (outs : list item) (acc : OrderedDict.t props_t)
    (log : list event) : res (OrderedDict.t props_t) * list event :=
  match outs with
  | [] => (Ok acc, log)
  | Yield out :: outs =>
      match _plot_props out with
      | Ok props =>
          comprehension outs (OrderedDict.set (path_info out) props acc) log
      | Err e => (Err e, log)
      end
  | Warning t rev :: outs => comprehension outs acc (log ++ [NotFound t rev])
  | Raise e :: _ => (Err e, log)
  end.

Definition _collect_plots (repo : Repo) (targets : list string)
    (rev : string) : res (OrderedDict.t props_t) * list event :=
  let outs :=
    match targets with
    | _ :: _ => _targets_to_outs repo rev targets
    | [] =>
        Yield <$> filter (λ out, plot_truthy (plot out) = true)
                         (List.concat (stages repo))
    end in
  comprehension outs [] [].

(** The body of [for path_info, props in plots.items()] in [collect]. *)
Definition collect_plot (repo : Repo) (rev : string)
    (st : data_t * list event) (entry : string * props_t)
  : data_t * list event :=
  let '(data, log) := st in
  let '(path_info, props) := entry in
  let datafile := relpath path_info in
  let data :=
    match OrderedDict.get rev data with
    | Some _ => data
    | None => OrderedDict.set rev [] data
    end in
  let files :=
    OrderedDict.set datafile (mkDesc props None)
      (default [] (OrderedDict.get rev data)) in
  match open_ repo path_info with
  | Some blob =>
      (OrderedDict.set rev
         (OrderedDict.set datafile (mkDesc props (Some blob)) files) data,
       log)
  | None => (OrderedDict.set rev files data, log ++ [Printed path_info])
  end.

(** [Plots.collect] *)
Definition collect (targets : option (string + list string))
    (revs : option (list string)) : res data_t * list event :=
  let targets := as_list targets in
  let '(r, st) :=
    for_each
      (λ (st : data_t * list event) (b : string * Repo),
         let '(rev, repo) := b in
         if bool_decide (is_Some revs)
            && bool_decide (rev ∉ default [] revs)
         then (Ok (), st)
         else
           let rev := if String.eqb rev "" then "workspace" else rev in
           match _collect_plots repo targets rev with
           | (Ok plots, log) =>
               (Ok (),
                fold_left (collect_plot repo rev) plots (st.1, st.2 ++ log))
           | (Err e, log) => (Err e, (st.1, st.2 ++ log))
           end)
      (brancher revs) ([], []) in
  (match r with Ok _ => Ok st.1 | Err e => Err e end, st.2).
End collect.

(** [{**a, **b}] *)
Definition merge (a b : props_t) : props_t := OrderedDict.of_pairs (a ++ b).

(** The state of the loop of [_prepare_plots]. *)
Record prepared : Type := mkPrepared {
  plots : OrderedDict.t plot_desc;
  props_revs : OrderedDict.t string;
  warnings : list event;
}.

(** The body of [for datafile, desc in data[rev].items()]. *)
Definition prepare_plot (props : props_t) (rev : string) (st : prepared)
    (entry : string * desc) : res unit * prepared :=
  let '(datafile, d) := entry in
  let full_props := merge (desc_props d) props in
  match OrderedDict.get datafile (plots st) with
  | Some saved =>
      let warned :=
        if negb (py_eq (YDict (plot_props saved)) (YDict full_props))
        then match OrderedDict.get datafile (props_revs st) with
             | Some rev0 =>
                 Ok (mkPrepared (plots st) (props_revs st)
                       (warnings st ++ [Inconsistent datafile rev0 rev]))
             | None => Err (KeyError datafile)
             end
        else Ok st in
      match warned with
      | Ok st =>
          match desc_data d with
          | Some blob =>
              (Ok (),
               mkPrepared
                 (OrderedDict.set datafile
                    (mkPlotDesc (plot_props saved)
                       (OrderedDict.set rev blob (plot_data saved)))
                    (plots st))
                 (props_revs st) (warnings st))
          | None => (Err (KeyError "data"), st)
          end
      | Err e => (Err e, st)
      end
  | None =>
      match desc_data d with
      | Some blob =>
          (Ok (),
           mkPrepared
             (OrderedDict.set datafile
                (mkPlotDesc full_props [(rev, blob)]) (plots st))
             (OrderedDict.set datafile rev (props_revs st))
             (warnings st))
      | None => (Err (KeyError "data"), st)
      end
  end.

Definition _prepare_plots (data : data_t) (revs : option (list string))
    (props : props_t) : res (OrderedDict.t plot_desc) * list event :=
  let revs :=
    match revs with
    | None => OrderedDict.keys data
    | Some revs => revs
    end in
  let '(r, st) :=
    for_each
      (λ st rev,
         match OrderedDict.get rev data with
         | None => (Ok (), st)
         | Some files => for_each (prepare_plot props rev) files st
         end)
      revs (mkPrepared [] [] []) in
  (match r with Ok _ => Ok (plots st) | Err e => Err e end, warnings st).

(** Every data file that has a plot has the revision its properties came
    from on record. *)
Definition linked (st : prepared) : Prop :=
  ∀ k, is_Some (OrderedDict.get k (plots st)) →
       is_Some (OrderedDict.get k (props_revs st)).

Section show.
Variable project : props_t → props_t.
Variable brancher : option (list string) → list (string * Repo).
Variable relpath : string → string.
(** [_render(datafile, datas, props, templates)] parses the data and fills
    the template. *)
Variable _render : string → OrderedDict.t string → props_t → res string.

(** [Plots.render] *)
Definition render (data : data_t) (revs : option (list string))
    (props : option props_t)
  : res (OrderedDict.t string) * list event :=
  let props := default [] props in
  match _prepare_plots data revs props with
  | (Ok plots, log) =>
      (mapM (λ '(datafile, d),
               r ← _render datafile (plot_data d) (plot_props d);
               Ok (datafile, r)) plots,
       log)
  | (Err e, log) => (Err e, log)
  end.

(** [any("data" in d[target] for d in data.values())] *)
Fixpoint any_data (target : string) (values : list (OrderedDict.t desc))
  : res bool :=
  match values with
  | [] => Ok false
  | d :: values =>
      match OrderedDict.get target d with
      | Some entry =>
          if bool_decide (is_Some (desc_data entry)) then Ok true
          else any_data target values
      | None => Err (KeyError target)
      end
  end.

(** [Plots.show] *)
Definition show (targets : option (string + list string))
    (revs : option (list string)) (props : option props_t)
  : res (OrderedDict.t string) * list event :=
  match collect project brancher relpath targets revs with
  | (Ok data, log) =>
      let checked :=
        for_each
          (λ (_ : unit) target,
             match any_data target data.*2 with
             | Ok true => (Ok (), ())
             | Ok false => (Err (NoMetricInHistoryError target), ())
             | Err e => (Err e, ())
             end)
          (as_list targets) () in
      match checked.1 with
      | Ok _ =>
          if bool_decide (data = []) then (Err NoPlotsError, log)
          else
            let '(r, log') := render data revs props in (r, log ++ log')
      | Err e => (Err e, log)
      end
  | (Err e, log) => (Err e, log)
  end.
End show.
End Plots.

(** ** Worked examples *)

Definition params_default : ParamsDependency :=
  mkParamsDependency "params.yaml"
    (ParamsDict (<["lr" := YInt 1]> (<["alpha" := YInt 2]> ∅))).
Definition params_a : ParamsDependency :=
  mkParamsDependency "a.yaml" (ParamsList ["z"; "b"]).
Definition params_z : ParamsDependency :=
  mkParamsDependency "z.yaml" (ParamsDict (<["k" := YStr "v"]> ∅)).

Definition out_model : Output :=
  mkOutput "model.pkl" true false (FlagBool false) (FlagBool false)
    "md5" (YStr "m1").
Definition out_scores : Output :=
  mkOutput "scores.json" false true (FlagBool true) (FlagBool false)
    "md5" (YStr "s1").
Definition out_curve : Output :=
  mkOutput "curve.csv" true false (FlagBool true) (FlagDict [("x", YStr "fpr")])
    "md5" (YStr "c1").

Definition stage_train : Stage :=
  mkStage "train" (Some "python train.py") "." "dvc.yaml"
    [ ParamsDep params_z;
      PathDep (mkDependency "train.py" "md5" (YStr "t1"));
      ParamsDep params_default;
      PathDep (mkDependency "data" "md5" (YStr "d1"));
      ParamsDep params_a ]
    [out_model; out_scores; out_curve] false true.

Definition example_digest (s : string) : Repo.ContentId := "#" +:+ s.

Definition example_serialize (l : list (Repo.path_info * Repo.ContentId))
  : string :=
  String.concat ";" ((λ '(p, h), Repo.posix p +:+ "=" +:+ h) <$> l).

(** A workspace with the files [foo], [bar] and three files below [dir];
    nothing is tracked yet. *)
Definition example_repo (s : Repo.strategy) : Repo.repo :=
  Repo.mkRepo
    (<[1%N := Repo.mkInode "foo" 1 true]>
       (<[2%N := Repo.mkInode "bar" 2 true]>
          (<[3%N := Repo.mkInode "a" 3 true]>
             (<[4%N := Repo.mkInode "b" 4 true]>
                (<[5%N := Repo.mkInode "c" 5 true]> ∅)))))
    (<[["foo"] := Repo.Hard 1%N]>
       (<[["bar"] := Repo.Hard 2%N]>
          (<[["dir"; "a"] := Repo.Hard 3%N]>
             (<[["dir"; "b"] := Repo.Hard 4%N]>
                (<[["dir"; "sub"; "c"] := Repo.Hard 5%N]> ∅)))))
    ∅ ∅ ∅ ∅ s 10%N [].

(** [foo] added with hard links, then unprotected. *)
Definition repo_added : Repo.repo :=
  (Repo.add example_digest example_serialize ["foo"]
     (example_repo Repo.Hardlink)).2.

Definition repo_unprotected : Repo.repo :=
  (Repo.unprotect ["foo"] repo_added).2.

(** The directory [dir] tracked as a whole. *)
Definition repo_dir_tracked : Repo.repo :=
  (Repo.add example_digest example_serialize ["dir"]
     (example_repo Repo.Symlink)).2.

(** Outputs and repositories for the plots examples. *)
Definition plot_curve : Plots.Out :=
  Plots.mkOut "curve.csv"
    (Plots.PlotDict [("x", YStr "fpr"); ("y", YStr "tpr")]).
Definition plot_loss : Plots.Out :=
  Plots.mkOut "loss.csv" (Plots.PlotBool true).
Definition plain_model : Plots.Out :=
  Plots.mkOut "model.pkl" (Plots.PlotBool false).

Definition example_find (outs : list Plots.Out) (path : string)
  : Plots.res (list Plots.Out) :=
  match filter (λ out, Plots.path_info out = path) outs with
  | [] => Plots.Err Plots.OutputNotFoundError
  | found => Plots.Ok found
  end.

Definition plots_repo (outs : list Plots.Out)
    (readable : list (string * string)) : Plots.Repo :=
  Plots.mkRepo [outs] (example_find outs)
    (λ path, OrderedDict.get path readable).

Definition repo_v1 : Plots.Repo :=
  plots_repo [plot_curve; plain_model] [("curve.csv", "fpr,tpr")].
Definition repo_v2 : Plots.Repo :=
  plots_repo [plot_curve; plot_loss; plain_model]
    [("curve.csv", "fpr,tpr"); ("loss.csv", "loss")].
Definition repo_no_cache : Plots.Repo := plots_repo [plot_curve] [].

Definition example_brancher (workspace : Plots.Repo)
    (revs : option (list string)) : list (string * Plots.Repo) :=
  [("", workspace); ("v1", repo_v1); ("v2", repo_v2)].

Definition example_project (props : Plots.props_t) : Plots.props_t :=
  filter (λ kv, kv.1 ∈ ["template"; "x"; "y"; "title"]) props.

Definition example_render (datafile : string) (datas : OrderedDict.t string)
    (props : Plots.props_t) : Plots.res string :=
  Plots.Ok datafile.

Definition data_two_revs : Plots.data_t :=
  [("v1", [("curve.csv",
            Plots.mkDesc [("x", YStr "fpr")] (Some "fpr,tpr"))]);
   ("v2", [("curve.csv",
            Plots.mkDesc [("x", YStr "tpr")] (Some "tpr,fpr"))])].

(** * Properties *)

(** ** The order on path strings *)

Lemma ascii_compare_refl (a : ascii) : Ascii.compare a a = Eq.
Proof. unfold Ascii.compare. apply N.compare_refl. Qed.

Lemma string_compare_refl (s : string) : String.compare s s = Eq.
Proof.
  induction s as [|a s IH]; simpl; [done|].
  by rewrite ascii_compare_refl.
Qed.

Lemma string_compare_trans (c : comparison) (s1 s2 s3 : string) :
  String.compare s1 s2 = c → String.compare s2 s3 = c →
  String.compare s1 s3 = c.
Proof.
  revert s2 s3.
  induction s1 as [|a1 s1 IH]; intros [|a2 s2] [|a3 s3]; simpl;
    try congruence.
  unfold Ascii.compare.
  destruct (N.compare_spec (N_of_ascii a1) (N_of_ascii a2)) as [E12|L12|G12];
    destruct (N.compare_spec (N_of_ascii a2) (N_of_ascii a3)) as [E23|L23|G23];
    destruct (N.compare_spec (N_of_ascii a1) (N_of_ascii a3)) as [E13|L13|G13];
    try congruence; try lia; eauto.
Qed.

#[global] Instance str_le_refl : Reflexive str_le.
Proof. intros s. unfold str_le, String.leb. by rewrite string_compare_refl. Qed.

#[global] Instance str_le_total : Total str_le.
Proof. intros a b. apply String.leb_total. Qed.

#[global] Instance str_le_antisym : AntiSymm (=) str_le.
Proof. intros a b. apply String.leb_antisym. Qed.

#[global] Instance str_le_trans : Transitive str_le.
Proof.
  intros a b c. unfold str_le, String.leb.
  destruct (String.compare a b) eqn:Eab; [|intros _|done].
  - apply String.compare_eq_iff in Eab as ->. done.
  - destruct (String.compare b c) eqn:Ebc; [| |done]; intros _.
    + apply String.compare_eq_iff in Ebc as <-. by rewrite Eab.
    + by rewrite (string_compare_trans Lt a b c).
Qed.

Lemma str_le_false (a b : string) : String.leb a b = false → str_le b a.
Proof.
  intros H. destruct (String.leb_total a b) as [H'|H']; [congruence|done].
Qed.

(** ** [sorted] returns an ordered, stable rearrangement *)

Section sorted_facts.
Context {A : Type} (key : A → string).

Lemma insert_sorted_perm x l : insert_sorted key x l ≡ₚ x :: l.
Proof.
  induction l as [|y l IH]; simpl; [done|].
  destruct (String.leb (key x) (key y)); [done|].
  rewrite IH. apply Permutation_swap.
Qed.

Lemma sorted_perm l : sorted key l ≡ₚ l.
Proof.
  induction l as [|x l IH]; simpl; [done|].
  by rewrite insert_sorted_perm, IH.
Qed.

Lemma sorted_length l : List.length (sorted key l) = List.length l.
Proof. by rewrite sorted_perm. Qed.

Lemma insert_sorted_hd x y l :
  key_le key y x → HdRel (key_le key) y l →
  HdRel (key_le key) y (insert_sorted key x l).
Proof.
  intros Hyx Hl. destruct l as [|z l]; simpl; [by constructor|].
  destruct (String.leb (key x) (key z)); constructor; [done|].
  by inversion Hl.
Qed.

Lemma insert_sorted_Sorted x l :
  Sorted (key_le key) l → Sorted (key_le key) (insert_sorted key x l).
Proof.
  induction 1 as [|y l Hl IH Hhd]; simpl; [by repeat constructor|].
  destruct (String.leb (key x) (key y)) eqn:E.
  - constructor; [by constructor|]. by constructor.
  - constructor; [done|]. apply insert_sorted_hd; [|done].
    by apply str_le_false.
Qed.

Lemma sorted_Sorted l : Sorted (key_le key) (sorted key l).
Proof.
  induction l as [|x l IH]; simpl; [constructor|].
  by apply insert_sorted_Sorted.
Qed.

Lemma sorted_keys_Sorted l : Sorted str_le (key <$> sorted key l).
Proof.
  induction (sorted_Sorted l) as [|y l' Hl IH Hhd]; simpl; constructor;
    [done|].
  destruct Hhd; simpl; by constructor.
Qed.

Lemma sorted_nil_inv l : sorted key l = [] → l = [].
Proof.
  intros H. apply Permutation_nil_r. by rewrite <- H, sorted_perm.
Qed.

(** An ordered list is left as it is. *)
Lemma sorted_id_on_Sorted l : Sorted (key_le key) l → sorted key l = l.
Proof.
  induction 1 as [|x l Hl IH Hhd]; simpl; [done|].
  rewrite IH. destruct Hhd as [|y l' Hxy]; simpl; [done|].
  unfold key_le, str_le in Hxy. by rewrite Hxy.
Qed.
End sorted_facts.

Lemma sort_by_path_perm {A} `{HasDefPath A} (l : list A) :
  sort_by_path l ≡ₚ l.
Proof. apply sorted_perm. Qed.

Lemma sort_by_path_Sorted {A} `{HasDefPath A} (l : list A) :
  Sorted str_le (def_path <$> sort_by_path l).
Proof. apply sorted_keys_Sorted. Qed.

Lemma sorted_id_Sorted (l : list string) : Sorted str_le (sorted id l).
Proof. rewrite <- (list_fmap_id (sorted id l)). apply sorted_keys_Sorted. Qed.

(** ** [_serialize_outs]: the three buckets *)

Lemma serialize_outs_loop (l : list Output) (outs metrics plots : list yaml) :
  fold_left
    (λ '(outs, metrics, plots) out,
       if flag_truthy (plot out) then
         (outs, metrics, plots ++ [_serialize_out out])
       else if flag_truthy (metric out) then
         (outs, metrics ++ [_serialize_out out], plots)
       else (outs ++ [_serialize_out out], metrics, plots))
    l (outs, metrics, plots)
  = (outs ++ (_serialize_out <$> filter in_outs l),
     metrics ++ (_serialize_out <$> filter in_metrics l),
     plots ++ (_serialize_out <$> filter in_plots l)).
Proof.
  revert outs metrics plots.
  induction l as [|o l IH]; intros outs metrics plots; simpl.
  { by rewrite !app_nil_r. }
  rewrite !filter_cons.
  destruct (flag_truthy (plot o)) eqn:Ep;
    [|destruct (flag_truthy (metric o)) eqn:Em];
    rewrite IH.
  - rewrite decide_False, decide_False, decide_True;
      unfold in_outs, in_metrics, in_plots; rewrite ?Ep; simpl; try tauto.
    by rewrite <- app_assoc.
  - rewrite decide_False, decide_True, decide_False;
      unfold in_outs, in_metrics, in_plots; rewrite ?Ep, ?Em; simpl; try tauto.
    by rewrite <- app_assoc.
  - rewrite decide_True, decide_False, decide_False;
      unfold in_outs, in_metrics, in_plots; rewrite ?Ep, ?Em; simpl; try tauto.
    by rewrite <- app_assoc.
Qed.

Lemma bucket_partition_length (l : list Output) :
  List.length (filter in_outs l) + List.length (filter in_metrics l)
  + List.length (filter in_plots l) = List.length l.
Proof.
  induction l as [|o l IH]; [done|].
  rewrite !filter_cons.
  repeat case_decide; simpl; unfold in_outs, in_metrics, in_plots in *;
    destruct (flag_truthy (plot o)), (flag_truthy (metric o));
    simpl in *; try tauto; lia.
Qed.

(** C9: [_serialize_outs] walks the outputs in path order and puts each one
    in exactly one bucket: under [plots] when its plot flag is set (whatever
    the metric flag), under [metrics] when only the metric flag is set, under
    [outs] when neither is.  The three buckets together hold as many entries
    as there are outputs. *)
Theorem serialize_outs_buckets (outputs : list Output) :
  let l := sort_by_path outputs in
  l ≡ₚ outputs ∧
  _serialize_outs outputs =
    (_serialize_out <$> filter in_outs l,
     _serialize_out <$> filter in_metrics l,
     _serialize_out <$> filter in_plots l) ∧
  (∀ out, flag_truthy (plot out) → flag_truthy (metric out) →
          in_plots out ∧ ¬ in_metrics out ∧ ¬ in_outs out) ∧
  (∀ out, ¬ flag_truthy (plot out) → ¬ flag_truthy (metric out) →
          in_outs out ∧ ¬ in_metrics out ∧ ¬ in_plots out) ∧
  List.length (_serialize_outs outputs).1.1
  + List.length (_serialize_outs outputs).1.2
  + List.length (_serialize_outs outputs).2 = List.length outputs.
Proof.
  intros l.
  assert (Hl : l ≡ₚ outputs) by apply sort_by_path_perm.
  assert (He : _serialize_outs outputs =
    (_serialize_out <$> filter in_outs l,
     _serialize_out <$> filter in_metrics l,
     _serialize_out <$> filter in_plots l)).
  { unfold _serialize_outs. by rewrite serialize_outs_loop. }
  split_and!; [done|done| | |].
  - unfold in_plots, in_metrics, in_outs. tauto.
  - unfold in_plots, in_metrics, in_outs. tauto.
  - rewrite He. simpl. rewrite !length_fmap, bucket_partition_length.
    by rewrite Hl.
Qed.

(** ** [to_single_stage_lockfile]: the command assertion *)

(** C10: a lock record is only produced for a stage with a command; with
    [cmd] absent or empty the assertion fails and no record is returned. *)
Theorem lockfile_requires_cmd (stage : Stage) :
  cmd stage = None ∨ cmd stage = Some "" →
  to_single_stage_lockfile stage = Raise AssertionError
  ∧ ∀ r, to_single_stage_lockfile stage ≠ Return r.
Proof.
  intros H.
  assert (E : to_single_stage_lockfile stage = Raise AssertionError).
  { unfold to_single_stage_lockfile. by destruct H as [-> | ->]. }
  split; [done|]. intros r. by rewrite E.
Qed.

Lemma lockfile_requires_cmd_witness :
  to_single_stage_lockfile
    (mkStage "train" None "." "dvc.yaml" [] [] false false)
  = Raise AssertionError
  ∧ to_single_stage_lockfile
      (mkStage "train" (Some "") "." "dvc.yaml" [] [] false false)
    = Raise AssertionError.
Proof.
  split.
  - apply (lockfile_requires_cmd
             (mkStage "train" None "." "dvc.yaml" [] [] false false)).
    left. reflexivity.
  - apply (lockfile_requires_cmd
             (mkStage "train" (Some "") "." "dvc.yaml" [] [] false false)).
    right. reflexivity.
Defined.

(** ** [OrderedDict] facts *)

Section ordered_dict_facts.
Context {V : Type}.
Implicit Types (d l : list (string * V)) (k : string).

Lemma od_get_None k d : OrderedDict.get k d = None ↔ k ∉ d.*1.
Proof.
  induction d as [|[k' v] d IH]; simpl.
  - split; [intros _; apply not_elem_of_nil|done].
  - rewrite not_elem_of_cons. destruct (String.eqb_spec k k') as [->|Hne].
    + split; [done|]. intros [? _]. done.
    + rewrite IH. tauto.
Qed.

Lemma od_get_elem_of k v d : OrderedDict.get k d = Some v → (k, v) ∈ d.
Proof.
  induction d as [|[k' v'] d IH]; simpl; [done|].
  destruct (String.eqb_spec k k') as [->|Hne].
  - intros [= ->]. apply list_elem_of_here.
  - intros H. apply list_elem_of_further. auto.
Qed.

Lemma od_get_NoDup k v d :
  NoDup d.*1 → (k, v) ∈ d → OrderedDict.get k d = Some v.
Proof.
  induction d as [|[k' v'] d IH]; simpl.
  - intros _ H. by apply elem_of_nil in H.
  - rewrite NoDup_cons. intros [Hk' Hd] [[= -> ->]|Hin]%elem_of_cons.
    + by rewrite String.eqb_refl.
    + destruct (String.eqb_spec k k') as [->|Hne]; [|auto].
      exfalso. apply Hk'. apply list_elem_of_fmap. by exists (k', v).
Qed.

Lemma od_set_fresh k (v : V) d :
  k ∉ d.*1 → OrderedDict.set k v d = d ++ [(k, v)].
Proof.
  induction d as [|[k' v'] d IH]; simpl; [done|].
  rewrite not_elem_of_cons. intros [Hne Hd].
  destruct (String.eqb_spec k k'); [done|]. by rewrite IH.
Qed.

Lemma od_get_set k k' (v : V) d :
  OrderedDict.get k (OrderedDict.set k' v d)
  = if String.eqb k k' then Some v else OrderedDict.get k d.
Proof.
  induction d as [|[k'' v''] d IH]; simpl; [done|].
  destruct (String.eqb_spec k' k'') as [->|Hne]; simpl.
  - by destruct (String.eqb_spec k k'').
  - destruct (String.eqb_spec k k'') as [->|Hne'].
    + destruct (String.eqb_spec k'' k'); [congruence|done].
    + done.
Qed.

Lemma od_set_keys_subseteq k (v : V) d :
  (OrderedDict.set k v d).*1 ⊆ k :: d.*1.
Proof.
  induction d as [|[k' v'] d IH]; simpl; [done|].
  destruct (String.eqb_spec k k') as [->|Hne]; simpl; intros x Hx.
  - by apply list_elem_of_further.
  - apply elem_of_cons in Hx as [->|Hx].
    + apply list_elem_of_further, list_elem_of_here.
    + apply IH, elem_of_cons in Hx as [->|Hx]; [apply list_elem_of_here|].
      by do 2 apply list_elem_of_further.
Qed.

Lemma od_fold_set_fresh l d :
  NoDup (d ++ l).*1 →
  fold_left (λ d kv, OrderedDict.set kv.1 kv.2 d) l d = d ++ l.
Proof.
  revert d. induction l as [|[k v] l IH]; intros d Hnd; simpl.
  { by rewrite app_nil_r. }
  assert (Hk : k ∉ d.*1).
  { rewrite fmap_app in Hnd. apply NoDup_app in Hnd as (_ & Hd & _).
    intros Hin. apply (Hd k Hin). simpl. apply list_elem_of_here. }
  rewrite od_set_fresh by done. rewrite IH.
  - by rewrite <- app_assoc.
  - by rewrite <- app_assoc.
Qed.

(** [OrderedDict(pairs)] keeps a list of pairs with distinct keys as it
    is. *)
Lemma od_of_pairs_NoDup l : NoDup l.*1 → OrderedDict.of_pairs l = l.
Proof. intros H. unfold OrderedDict.of_pairs. by rewrite od_fold_set_fresh. Qed.

Lemma od_fold_set_keys l d k :
  k ∈ (fold_left (λ d kv, OrderedDict.set kv.1 kv.2 d) l d).*1 →
  k ∈ d.*1 ∨ k ∈ l.*1.
Proof.
  revert d. induction l as [|[k' v] l IH]; intros d; simpl; [auto|].
  intros [Hin|Hin]%IH; [|right; by apply list_elem_of_further].
  apply od_set_keys_subseteq in Hin. simpl in Hin.
  apply elem_of_cons in Hin as [->|Hin]; [right; apply list_elem_of_here|auto].
Qed.

Lemma od_of_pairs_keys l k : k ∈ (OrderedDict.of_pairs l).*1 → k ∈ l.*1.
Proof.
  intros [Hin|Hin]%od_fold_set_keys; [|done]. by apply elem_of_nil in Hin.
Qed.
End ordered_dict_facts.

(** ** [to_pipeline_file]: empty and default values are left out *)

Section pipeline_file_facts.
Variable resolve_wdir : string → string → option string.

#[local] Abbreviation fields := (pipeline_fields resolve_wdir).

Lemma pipeline_fields_keys stage :
  (fields stage).*1 =
    [PARAM_CMD; PARAM_WDIR; PARAM_DEPS; PARAM_PARAMS; PARAM_OUTS;
     PARAM_METRICS; PARAM_PLOTS; PARAM_FROZEN; PARAM_ALWAYS_CHANGED].
Proof.
  unfold fields, pipeline_fields.
  destruct (split_params_deps stage) as [ps ds].
  by destruct (_serialize_outs (outs stage)) as [[os ms] pl].
Qed.

Lemma pipeline_fields_NoDup stage : NoDup (fields stage).*1.
Proof.
  rewrite pipeline_fields_keys.
  refine (bool_decide_unpack _ _). by vm_compute.
Qed.

Lemma filter_keys_NoDup {V} (P : string * V → Prop) `{∀ x, Decision (P x)}
    (l : list (string * V)) :
  NoDup l.*1 → NoDup (filter P l).*1.
Proof.
  intros Hnd. eapply sublist_NoDup; [exact Hnd|].
  apply fmap_sublist, sublist_filter.
Qed.

Lemma pipeline_record_eq stage :
  to_pipeline_file resolve_wdir stage
  = [(name stage, YDict (filter (λ kv, truthy kv.2) (fields stage)))].
Proof.
  unfold to_pipeline_file. rewrite od_of_pairs_NoDup; [done|].
  apply filter_keys_NoDup, pipeline_fields_NoDup.
Qed.

Lemma pipeline_record_kept stage k v :
  OrderedDict.get k (filter (λ kv, truthy kv.2) (fields stage)) = Some v →
  (k, v) ∈ fields stage ∧ truthy v = true.
Proof.
  intros [Hin Ht]%od_get_elem_of%list_elem_of_filter. simpl in Ht.
  split; [done|]. by apply Is_true_true.
Qed.

Lemma pipeline_record_dropped stage k v :
  (k, v) ∈ fields stage → truthy v = false →
  OrderedDict.get k (filter (λ kv, truthy kv.2) (fields stage)) = None.
Proof.
  intros Hin Hf.
  destruct (OrderedDict.get k _) as [v'|] eqn:E; [|done].
  apply pipeline_record_kept in E as [Hin' Ht].
  pose proof (pipeline_fields_NoDup stage) as Hnd.
  pose proof (od_get_NoDup _ _ _ Hnd Hin) as E1.
  pose proof (od_get_NoDup _ _ _ Hnd Hin') as E2.
  congruence.
Qed.

Lemma pipeline_record_present stage k v :
  (k, v) ∈ fields stage → truthy v = true →
  OrderedDict.get k (filter (λ kv, truthy kv.2) (fields stage)) = Some v.
Proof.
  intros Hin Ht. apply od_get_NoDup.
  - apply filter_keys_NoDup, pipeline_fields_NoDup.
  - apply list_elem_of_filter. split; [|done]. simpl. by apply Is_true_true.
Qed.
End pipeline_file_facts.

Ltac field_in_list :=
  repeat first [apply list_elem_of_here | apply list_elem_of_further].

Lemma get_flags_default (out : Output) :
  use_cache out = true → persist out = false →
  (∀ props, plot out = FlagDict props → props = []) →
  _get_flags out = [].
Proof.
  intros Hc Hp Hplot. unfold _get_flags. rewrite Hc, Hp. simpl.
  destruct (plot out) as [b|props]; [done|].
  by rewrite (Hplot props eq_refl).
Qed.

Lemma get_flags_no_cache (out : Output) :
  use_cache out = true →
  (∀ props, plot out = FlagDict props → PARAM_CACHE ∉ props.*1) →
  OrderedDict.get PARAM_CACHE (_get_flags out) = None.
Proof.
  intros Hc Hplot. apply od_get_None. intros Hin%od_of_pairs_keys.
  rewrite Hc in Hin. simpl in Hin.
  destruct (persist out); simpl in Hin;
    [apply elem_of_cons in Hin as [?|Hin]; [done|]|];
    (destruct (plot out) as [b|props] eqn:E; [by apply elem_of_nil in Hin|];
     destruct (flag_truthy _); [|by apply elem_of_nil in Hin];
     by apply (Hplot props)).
Qed.

Lemma get_flags_no_persist (out : Output) :
  persist out = false →
  (∀ props, plot out = FlagDict props → PARAM_PERSIST ∉ props.*1) →
  OrderedDict.get PARAM_PERSIST (_get_flags out) = None.
Proof.
  intros Hc Hplot. apply od_get_None. intros Hin%od_of_pairs_keys.
  rewrite Hc in Hin. simpl in Hin.
  destruct (use_cache out); simpl in Hin;
    [|apply elem_of_cons in Hin as [?|Hin]; [done|]];
    (destruct (plot out) as [b|props] eqn:E; [by apply elem_of_nil in Hin|];
     destruct (flag_truthy _); [|by apply elem_of_nil in Hin];
     by apply (Hplot props)).
Qed.

(** C5: the record [to_pipeline_file] writes under the stage name holds a key
    only when its value is non-empty: without path dependencies there is no
    [deps] key, with an empty params / outs / metrics / plots list there is
    no such key, [frozen] and [always_changed] are left out when false
    (likewise [cmd] and [wdir] when absent), and an output whose flags are at
    their defaults is written as its bare path. *)
Theorem pipeline_file_omits_defaults
    (resolve_wdir : string → string → option string) (stage : Stage) :
  let r := filter (λ kv, truthy kv.2) (pipeline_fields resolve_wdir stage) in
  to_pipeline_file resolve_wdir stage = [(name stage, YDict r)]
  ∧ (∀ k v, OrderedDict.get k r = Some v → truthy v = true)
  ∧ (cmd stage = None → OrderedDict.get PARAM_CMD r = None)
  ∧ (resolve_wdir (wdir stage) (path stage) = None →
     OrderedDict.get PARAM_WDIR r = None)
  ∧ ((split_params_deps stage).2 = [] → OrderedDict.get PARAM_DEPS r = None)
  ∧ (_serialize_params_keys (split_params_deps stage).1 = [] →
     OrderedDict.get PARAM_PARAMS r = None)
  ∧ ((_serialize_outs (outs stage)).1.1 = [] →
     OrderedDict.get PARAM_OUTS r = None)
  ∧ ((_serialize_outs (outs stage)).1.2 = [] →
     OrderedDict.get PARAM_METRICS r = None)
  ∧ ((_serialize_outs (outs stage)).2 = [] →
     OrderedDict.get PARAM_PLOTS r = None)
  ∧ (frozen stage = false → OrderedDict.get PARAM_FROZEN r = None)
  ∧ (always_changed stage = false →
     OrderedDict.get PARAM_ALWAYS_CHANGED r = None)
  ∧ (∀ out, use_cache out = true → persist out = false →
       (∀ props, plot out = FlagDict props → props = []) →
       _serialize_out out = YStr (def_path out))
  ∧ (∀ out, use_cache out = true →
       (∀ props, plot out = FlagDict props → PARAM_CACHE ∉ props.*1) →
       OrderedDict.get PARAM_CACHE (_get_flags out) = None)
  ∧ (∀ out, persist out = false →
       (∀ props, plot out = FlagDict props → PARAM_PERSIST ∉ props.*1) →
       OrderedDict.get PARAM_PERSIST (_get_flags out) = None).
Proof.
  intros r. subst r.
  split_and!.
  - apply pipeline_record_eq.
  - intros k v H. by apply pipeline_record_kept in H as [_ ?].
  - intros H. apply (pipeline_record_dropped _ _ _ YNone); [|done].
    unfold pipeline_fields. rewrite H.
    destruct (split_params_deps stage) as [ps ds].
    destruct (_serialize_outs (outs stage)) as [[os ms] pl]. field_in_list.
  - intros H. apply (pipeline_record_dropped _ _ _ YNone); [|done].
    unfold pipeline_fields. rewrite H.
    destruct (split_params_deps stage) as [ps ds].
    destruct (_serialize_outs (outs stage)) as [[os ms] pl]. field_in_list.
  - intros H. apply (pipeline_record_dropped _ _ _ (YList [])); [|done].
    unfold pipeline_fields.
    destruct (split_params_deps stage) as [ps ds]. simpl in H. subst ds.
    destruct (_serialize_outs (outs stage)) as [[os ms] pl]. field_in_list.
  - intros H. apply (pipeline_record_dropped _ _ _ (YList [])); [|done].
    unfold pipeline_fields.
    destruct (split_params_deps stage) as [ps ds]. simpl in H. rewrite H.
    destruct (_serialize_outs (outs stage)) as [[os ms] pl]. field_in_list.
  - intros H. apply (pipeline_record_dropped _ _ _ (YList [])); [|done].
    unfold pipeline_fields.
    destruct (split_params_deps stage) as [ps ds].
    destruct (_serialize_outs (outs stage)) as [[os ms] pl].
    simpl in H. subst os. field_in_list.
  - intros H. apply (pipeline_record_dropped _ _ _ (YList [])); [|done].
    unfold pipeline_fields.
    destruct (split_params_deps stage) as [ps ds].
    destruct (_serialize_outs (outs stage)) as [[os ms] pl].
    simpl in H. subst ms. field_in_list.
  - intros H. apply (pipeline_record_dropped _ _ _ (YList [])); [|done].
    unfold pipeline_fields.
    destruct (split_params_deps stage) as [ps ds].
    destruct (_serialize_outs (outs stage)) as [[os ms] pl].
    simpl in H. subst pl. field_in_list.
  - intros H. apply (pipeline_record_dropped _ _ _ (YBool false)); [|done].
    unfold pipeline_fields. rewrite H.
    destruct (split_params_deps stage) as [ps ds].
    destruct (_serialize_outs (outs stage)) as [[os ms] pl]. field_in_list.
  - intros H. apply (pipeline_record_dropped _ _ _ (YBool false)); [|done].
    unfold pipeline_fields. rewrite H.
    destruct (split_params_deps stage) as [ps ds].
    destruct (_serialize_outs (outs stage)) as [[os ms] pl]. field_in_list.
  - intros out Hc Hp Hplot. unfold _serialize_out.
    by rewrite get_flags_default.
  - apply get_flags_no_cache.
  - apply get_flags_no_persist.
Qed.

(** ** Lockfile records *)

Lemma lock_entry_item {A} `{HasDefPath A, HasChecksum A} (item : A) :
  checksum_type item ≠ PARAM_PATH →
  YDict (lock_entry item) = lock_item item.
Proof.
  intros Hne. unfold lock_entry, lock_item. rewrite od_of_pairs_NoDup; [done|].
  simpl. apply NoDup_cons. split; [|apply NoDup_singleton].
  intros Hin%list_elem_of_singleton. by apply Hne.
Qed.

Lemma lock_entries_items {A} `{HasDefPath A, HasChecksum A} (l : list A) :
  Forall (λ item, checksum_type item ≠ PARAM_PATH) l →
  YDict <$> (lock_entry <$> l) = lock_item <$> l.
Proof.
  induction 1 as [|x l Hx Hl IH]; [done|].
  rewrite !fmap_cons. by rewrite IH, lock_entry_item.
Qed.

Lemma truthy_YList_fmap {A} (f : A → yaml) (l : list A) :
  truthy (YList (f <$> l)) = match l with [] => false | _ => true end.
Proof. by destruct l. Qed.

Lemma truthy_YStr (s : string) : s ≠ "" → truthy (YStr s) = true.
Proof. intros H. simpl. by destruct (String.eqb_spec s ""). Qed.

(** C4: for a stage with a command, [to_single_stage_lockfile] returns the
    record [{cmd, deps: [{path, checksum}], params: {file: {key: value}},
    outs: [{path, checksum}]}] (a list key being present when the list is
    non-empty), [to_lockfile] maps the stage name to it, and the [deps] and
    [outs] entries are those of the stage's dependencies and outputs in
    ascending path order. *)
Theorem lockfile_record_sorted (stage : Stage) (c : string) :
  cmd stage = Some c → c ≠ "" → name stage ≠ "" →
  Forall (λ d, checksum_type d ≠ PARAM_PATH) (split_params_deps stage).2 →
  Forall (λ o, checksum_type o ≠ PARAM_PATH) (outs stage) →
  let ds := sort_by_path (split_params_deps stage).2 in
  let os := sort_by_path (outs stage) in
  let ps := _serialize_params_values (split_params_deps stage).1 in
  let r :=
    [(PARAM_CMD, YStr c)]
    ++ optional_field PARAM_DEPS ds (YList (lock_item <$> ds))
    ++ optional_field PARAM_PARAMS ps (YDict (prod_map id YDict <$> ps))
    ++ optional_field PARAM_OUTS os (YList (lock_item <$> os)) in
  to_single_stage_lockfile stage = Return r
  ∧ to_lockfile stage = Return [(name stage, YDict r)]
  ∧ ds ≡ₚ (split_params_deps stage).2
  ∧ Sorted str_le (def_path <$> ds)
  ∧ os ≡ₚ outs stage
  ∧ Sorted str_le (def_path <$> os).
Proof.
  intros Hcmd Hc Hname Hds Hos ds os ps r.
  assert (Hds' : Forall (λ d, checksum_type d ≠ PARAM_PATH) ds).
  { unfold ds. by rewrite sort_by_path_perm. }
  assert (Hos' : Forall (λ o, checksum_type o ≠ PARAM_PATH) os).
  { unfold os. by rewrite sort_by_path_perm. }
  assert (E : to_single_stage_lockfile stage = Return r).
  { unfold to_single_stage_lockfile. rewrite Hcmd.
    unfold assert. cbn [yaml_of_option]. rewrite (truthy_YStr c Hc).
    cbn [mbind result_bind].
    subst r ps ds os. destruct (split_params_deps stage) as [params deps].
    cbn [fst snd] in *.
    rewrite <- !list_fmap_compose, !truthy_YList_fmap.
    rewrite !list_fmap_compose, !lock_entries_items by done.
    destruct (sort_by_path deps) as [|d0 ds0];
      destruct (_serialize_params_values params) as [|p0 ps0];
      destruct (sort_by_path (outs stage)) as [|o0 os0];
      repeat case_bool_decide; try done. }
  split_and!; [done| | | | |].
  - unfold to_lockfile, assert. rewrite (truthy_YStr _ Hname). simpl.
    by rewrite E.
  - apply sort_by_path_perm.
  - apply sort_by_path_Sorted.
  - apply sort_by_path_perm.
  - apply sort_by_path_Sorted.
Qed.

(** ** Parameter files: default file first, the others in path order *)

Lemma sorted_keys_ordered p : Sorted str_le (sorted_keys p).
Proof. apply sorted_id_Sorted. Qed.

Lemma serialize_params_keys_loop
    (l : list ParamsDependency) (keys : list yaml) :
  fold_left
    (λ keys param_dep,
       let '(path, params) := dumpd param_dep in
       let k := sorted id (params_keys params) in
       if bool_decide (k = []) then keys
       else if String.eqb path DEFAULT_PARAMS_FILE then (YStr <$> k) ++ keys
       else keys ++ [YDict [(path, YList (YStr <$> k))]])
    l keys
  = (YStr <$> List.concat (reverse (sorted_keys <$> filter is_default l)))
    ++ keys
    ++ (grouped_entry <$>
          filter (λ p, ¬ is_default p ∧ sorted_keys p ≠ []) l).
Proof.
  revert keys. induction l as [|p l IH]; intros keys.
  { simpl. by rewrite app_nil_r. }
  cbn [fold_left]. rewrite IH. clear IH. rewrite !filter_cons.
  unfold dumpd. fold (sorted_keys p).
  destruct (String.eqb_spec (def_path p) DEFAULT_PARAMS_FILE) as [Hd|Hd].
  - rewrite (decide_True (P := is_default p)) by done.
    rewrite decide_False by tauto.
    rewrite fmap_cons, reverse_cons, concat_app, fmap_app. simpl.
    rewrite app_nil_r.
    case_bool_decide as Hk.
    + rewrite Hk. simpl. by rewrite app_nil_r.
    + by rewrite <- !app_assoc.
  - rewrite (decide_False (P := is_default p)) by done.
    case_bool_decide as Hk.
    + by rewrite decide_False by tauto.
    + rewrite decide_True by tauto. rewrite fmap_cons.
      by rewrite <- !app_assoc.
Qed.

(** Among dependencies on pairwise distinct files at most one is the
    default file. *)
Lemma filter_path_unique (l : list ParamsDependency) (f : string) :
  NoDup (def_path <$> l) →
  filter (λ p, def_path p = f) l = []
  ∨ ∃ p, filter (λ p, def_path p = f) l = [p].
Proof.
  induction l as [|p l IH]; [by left|].
  rewrite fmap_cons, NoDup_cons. intros [Hp Hl]. rewrite filter_cons.
  case_decide as E; [|auto].
  right. exists p. f_equal.
  destruct (filter _ l) as [|q l'] eqn:Eq; [done|]. exfalso.
  assert (Hq : q ∈ filter (λ p, def_path p = f) l).
  { rewrite Eq. apply list_elem_of_here. }
  apply list_elem_of_filter in Hq as [Hqf Hql]. apply Hp.
  rewrite E, <- Hqf. by apply list_elem_of_fmap_2.
Qed.

Lemma filter_none {A} (P : A → Prop) `{∀ x, Decision (P x)} (l : list A) :
  (∀ x, x ∈ l → ¬ P x) → filter P l = [].
Proof.
  induction l as [|x l IH]; intros Hl; [done|].
  rewrite filter_cons, decide_False by (apply Hl, list_elem_of_here).
  apply IH. intros y Hy. by apply Hl, list_elem_of_further.
Qed.

Lemma od_remove_fresh_app {V} (k : string) (v : V) (d : list (string * V)) :
  k ∉ d.*1 → OrderedDict.remove k (d ++ [(k, v)]) = d.
Proof.
  induction d as [|[k' v'] d IH]; simpl.
  - intros _. by rewrite String.eqb_refl.
  - rewrite not_elem_of_cons. intros [Hne Hd].
    destruct (String.eqb_spec k k'); [done|]. by rewrite IH.
Qed.

Lemma od_get_fresh_app {V} (k : string) (v : V) (d : list (string * V)) :
  k ∉ d.*1 → OrderedDict.get k (d ++ [(k, v)]) = Some v.
Proof.
  induction d as [|[k' v'] d IH]; simpl.
  - intros _. by rewrite String.eqb_refl.
  - rewrite not_elem_of_cons. intros [Hne Hd].
    destruct (String.eqb_spec k k'); [done|]. by rewrite IH.
Qed.

Lemma od_set_move_to_front {V} (k : string) (v : V) (d : list (string * V)) :
  k ∉ d.*1 →
  OrderedDict.move_to_front k (OrderedDict.set k v d) = (k, v) :: d.
Proof.
  intros Hk. rewrite od_set_fresh by done. unfold OrderedDict.move_to_front.
  by rewrite od_get_fresh_app, od_remove_fresh_app.
Qed.

Lemma sorted_keys_NoDup (d : gmap string yaml) :
  NoDup (sorted id (params_keys (ParamsDict d))).
Proof. rewrite sorted_perm. simpl. apply NoDup_fst_map_to_list. Qed.

Lemma fmap_fst_pairing {V} (f : string → V) (l : list string) :
  ((λ key, (key, f key)) <$> l).*1 = l.
Proof.
  induction l as [|k l IH]; [done|]. rewrite !fmap_cons. by rewrite IH.
Qed.

Lemma lock_params_dict (p : ParamsDependency) (d : gmap string yaml) :
  params p = ParamsDict d →
  OrderedDict.of_pairs
    ((λ key, (key, d !!! key)) <$> sorted id (params_keys (ParamsDict d)))
  = (lock_params p).2.
Proof.
  intros E. unfold lock_params, sorted_keys. rewrite E. simpl.
  apply od_of_pairs_NoDup. rewrite fmap_fst_pairing.
  apply sorted_keys_NoDup.
Qed.

Lemma serialize_params_values_loop
    (l : list ParamsDependency) (acc : OrderedDict.t (OrderedDict.t yaml)) :
  NoDup (acc.*1 ++ (def_path <$> l)) →
  fold_left
    (λ key_vals param_dep,
       let '(path, params) := dumpd param_dep in
       match params with
       | ParamsDict d =>
           let kv :=
             (λ key, (key, d !!! key)) <$> sorted id (params_keys params) in
           let key_vals :=
             OrderedDict.set path (OrderedDict.of_pairs kv) key_vals in
           if String.eqb path DEFAULT_PARAMS_FILE
           then OrderedDict.move_to_front path key_vals
           else key_vals
       | ParamsList _ => key_vals
       end)
    l acc
  = (lock_params <$> filter (λ p, is_default p ∧ is_dict p) l)
    ++ acc
    ++ (lock_params <$> filter (λ p, ¬ is_default p ∧ is_dict p) l).
Proof.
  revert acc. induction l as [|p l IH]; intros acc Hnd.
  { simpl. by rewrite app_nil_r. }
  rewrite fmap_cons in Hnd.
  assert (Hp : def_path p ∉ acc.*1).
  { apply NoDup_app in Hnd as (_ & Hd & _). intros Hin.
    apply (Hd _ Hin), list_elem_of_here. }
  assert (Hl : NoDup (acc.*1 ++ (def_path <$> l))).
  { rewrite <- Permutation_middle in Hnd. by apply NoDup_cons in Hnd as [_ ?]. }
  assert (Hpl : def_path p ∉ def_path <$> l).
  { apply NoDup_app in Hnd as (_ & _ & Hd).
    by apply NoDup_cons in Hd as [? _]. }
  cbn [fold_left]. rewrite !filter_cons.
  change (dumpd p) with (def_path p, params p). cbv beta iota.
  destruct (params p) as [d|ks] eqn:Ep; cbv zeta.
  - assert (Hdict : is_dict p) by (unfold is_dict; by rewrite Ep).
    rewrite (lock_params_dict p d Ep).
    destruct (String.eqb_spec (def_path p) DEFAULT_PARAMS_FILE) as [Hd|Hd].
    + rewrite decide_True by done. rewrite decide_False by tauto.
      rewrite od_set_move_to_front by done.
      change (def_path p, (lock_params p).2) with (lock_params p).
      rewrite IH.
      * assert (filter (λ p, is_default p ∧ is_dict p) l = []) as ->; [|done].
        apply filter_none. intros q Hq [Hqd _].
        apply Hpl. rewrite Hd, <- Hqd. by apply list_elem_of_fmap_2.
      * simpl. apply NoDup_cons. split; [|done].
        rewrite elem_of_app. tauto.
    + rewrite decide_False by tauto. rewrite decide_True by done.
      rewrite od_set_fresh by done.
      change (def_path p, (lock_params p).2) with (lock_params p).
      rewrite IH.
      * rewrite fmap_cons. by rewrite <- !app_assoc.
      * by rewrite fmap_app, <- app_assoc.
  - assert (Hdict : ¬ is_dict p) by (unfold is_dict; rewrite Ep; tauto).
    rewrite !decide_False by tauto. by apply IH.
Qed.

Section filter_sorted.
Context {A : Type} (key : A → string).

#[local] Instance key_le_trans : Transitive (key_le key).
Proof. intros x y z. unfold key_le. apply str_le_trans. Qed.

Lemma Sorted_key_fmap (l : list A) :
  Sorted (key_le key) l → Sorted str_le (key <$> l).
Proof.
  induction 1 as [|x l Hl IH Hhd]; simpl; constructor; [done|].
  destruct Hhd; simpl; by constructor.
Qed.

Lemma StronglySorted_filter (P : A → Prop) `{∀ x, Decision (P x)} (l : list A) :
  StronglySorted (key_le key) l → StronglySorted (key_le key) (filter P l).
Proof.
  induction 1 as [|x l Hl IH Hx]; [constructor|].
  rewrite filter_cons. case_decide; [|done].
  constructor; [done|]. apply Forall_forall.
  intros y [_ Hy]%list_elem_of_filter.
  by apply (proj1 (Forall_forall _ _) Hx).
Qed.

(** Dropping elements from the result of [sorted] keeps the order. *)
Lemma sorted_filter_Sorted (P : A → Prop) `{∀ x, Decision (P x)} (l : list A) :
  Sorted str_le (key <$> filter P (sorted key l)).
Proof.
  apply Sorted_key_fmap, StronglySorted_Sorted, StronglySorted_filter.
  apply Sorted_StronglySorted; [apply _|]. apply sorted_Sorted.
Qed.
End filter_sorted.

(** C6: for parameter dependencies on pairwise distinct files, both
    serialisations list the default parameter file first and the other
    files after it in ascending path order, every file with its keys in
    ascending order; in the pipeline file the default file's keys stand
    bare and every other file is a one-entry mapping [{path: keys}]. *)
Theorem params_default_first (ps : list ParamsDependency) :
  NoDup (def_path <$> ps) →
  let l := sort_by_path ps in
  let others_keys := filter (λ p, ¬ is_default p ∧ sorted_keys p ≠ []) l in
  let others_vals := filter (λ p, ¬ is_default p ∧ is_dict p) l in
  l ≡ₚ ps
  ∧ _serialize_params_keys ps =
      (YStr <$> List.concat (sorted_keys <$> filter is_default l))
      ++ (grouped_entry <$> others_keys)
  ∧ _serialize_params_values ps =
      (lock_params <$> filter (λ p, is_default p ∧ is_dict p) l)
      ++ (lock_params <$> others_vals)
  ∧ (List.length (filter is_default l) ≤ 1)%nat
  ∧ Sorted str_le (List.concat (sorted_keys <$> filter is_default l))
  ∧ Sorted str_le (def_path <$> others_keys)
  ∧ Sorted str_le (def_path <$> others_vals)
  ∧ (∀ p, Sorted str_le (sorted_keys p))
  ∧ (∀ p, is_dict p → (lock_params p).2.*1 = sorted_keys p).
Proof.
  intros Hnd l others_keys others_vals.
  assert (Hperm : l ≡ₚ ps) by apply sort_by_path_perm.
  assert (Hndl : NoDup (def_path <$> l)) by (by rewrite Hperm).
  assert (Hone : filter is_default l = [] ∨ ∃ p, filter is_default l = [p]).
  { apply (filter_path_unique l DEFAULT_PARAMS_FILE Hndl). }
  split_and!.
  - done.
  - unfold _serialize_params_keys. rewrite serialize_params_keys_loop.
    fold l. fold others_keys. simpl.
    by destruct Hone as [-> | [p ->]].
  - unfold _serialize_params_values. rewrite serialize_params_values_loop.
    + done.
    + done.
  - destruct Hone as [-> | [p ->]]; simpl; lia.
  - destruct Hone as [-> | [p ->]]; simpl; [constructor|].
    rewrite app_nil_r. apply sorted_keys_ordered.
  - apply sorted_filter_Sorted.
  - apply sorted_filter_Sorted.
  - apply sorted_keys_ordered.
  - intros p Hp. unfold lock_params, is_dict in *. simpl.
    destruct (params p); [|done]. apply fmap_fst_pairing.
Qed.

(** ** The worked stage *)

Example stage_train_pipeline_file :
  to_pipeline_file (λ _ _, None) stage_train =
    [("train",
      YDict
        [("cmd", YStr "python train.py");
         ("deps", YList [YStr "data"; YStr "train.py"]);
         ("params",
          YList [YStr "alpha"; YStr "lr";
                 YDict [("a.yaml", YList [YStr "b"; YStr "z"])];
                 YDict [("z.yaml", YList [YStr "k"])]]);
         ("outs", YList [YStr "model.pkl"]);
         ("metrics",
          YList [YDict [("scores.json",
                         YDict [("cache", YBool false);
                                ("persist", YBool true)])]]);
         ("plots", YList [YDict [("curve.csv", YDict [("x", YStr "fpr")])]]);
         ("always_changed", YBool true)])].
Proof. by vm_compute. Qed.

(** Two dependencies on the default file are each prepended in turn, so
    their keys do not come out in one ascending run; the loaders merge the
    keys of a file into one dependency. *)
Example params_keys_same_file_twice :
  _serialize_params_keys
    [ mkParamsDependency "params.yaml" (ParamsList ["a"]);
      mkParamsDependency "params.yaml" (ParamsList ["b"]) ]
  = [YStr "b"; YStr "a"].
Proof. by vm_compute. Qed.

Lemma lockfile_record_sorted_witness :
  to_lockfile stage_train =
    Return
      [("train",
        YDict
          [("cmd", YStr "python train.py");
           ("deps",
            YList [YDict [("path", YStr "data"); ("md5", YStr "d1")];
                   YDict [("path", YStr "train.py"); ("md5", YStr "t1")]]);
           ("params",
            YDict [("params.yaml",
                    YDict [("alpha", YInt 2); ("lr", YInt 1)]);
                   ("z.yaml", YDict [("k", YStr "v")])]);
           ("outs",
            YList [YDict [("path", YStr "curve.csv"); ("md5", YStr "c1")];
                   YDict [("path", YStr "model.pkl"); ("md5", YStr "m1")];
                   YDict [("path", YStr "scores.json");
                          ("md5", YStr "s1")]])])].
Proof.
  destruct (lockfile_record_sorted stage_train "python train.py")
    as (_ & H & _).
  - reflexivity.
  - discriminate.
  - discriminate.
  - repeat constructor; discriminate.
  - repeat constructor; discriminate.
  - rewrite H. vm_compute. reflexivity.
Defined.

Lemma params_default_first_witness :
  _serialize_params_keys [params_z; params_default; params_a] =
    [YStr "alpha"; YStr "lr";
     YDict [("a.yaml", YList [YStr "b"; YStr "z"])];
     YDict [("z.yaml", YList [YStr "k"])]]
  ∧ _serialize_params_values [params_z; params_default; params_a] =
      [("params.yaml", [("alpha", YInt 2); ("lr", YInt 1)]);
       ("z.yaml", [("k", YStr "v")])].
Proof.
  destruct (params_default_first [params_z; params_default; params_a])
    as (_ & Hk & Hv & _).
  - repeat constructor; vm_compute; intros H; inversion H; subst;
      repeat match goal with
             | H : _ ∈ _ |- _ => inversion H; clear H; subst
             end.
  - rewrite Hk, Hv. vm_compute. split; reflexivity.
Defined.

(** ** Declaration order does not matter *)

Lemma NoDup_key_inj {A} (key : A → string) (l : list A) (x y : A) :
  NoDup (key <$> l) → x ∈ l → y ∈ l → key x = key y → x = y.
Proof.
  induction l as [|z l IH]; [by intros _ ?%elem_of_nil|].
  rewrite fmap_cons, NoDup_cons. intros [Hz Hl] Hx Hy E.
  apply elem_of_cons in Hx as [->|Hx]; apply elem_of_cons in Hy as [->|Hy].
  - done.
  - exfalso. apply Hz. rewrite E. by apply list_elem_of_fmap_2.
  - exfalso. apply Hz. rewrite <- E. by apply list_elem_of_fmap_2.
  - by apply IH.
Qed.

Lemma key_le_transitive {A} (key : A → string) : Transitive (key_le key).
Proof. intros x y z. unfold key_le. apply str_le_trans. Qed.

(** Lists with the same elements, no two under one key, sort alike. *)
Lemma sorted_Permutation {A} (key : A → string) (l l' : list A) :
  l' ≡ₚ l → NoDup (key <$> l) → sorted key l' = sorted key l.
Proof.
  intros Hp Hnd. symmetry. symmetry in Hp.
  apply (Sorted_unique_strong (key_le key)
           (Transitive0 := key_le_transitive key)).
  - intros x y Hx Hy Hxy Hyx.
    rewrite sorted_perm in Hx. rewrite sorted_perm, <- Hp in Hy.
    apply (NoDup_key_inj key l); [done..|].
    by apply (anti_symm str_le).
  - apply sorted_Sorted.
  - apply sorted_Sorted.
  - by rewrite !sorted_perm.
Qed.

Lemma sorted_strings_Permutation (l l' : list string) :
  l' ≡ₚ l → sorted id l' = sorted id l.
Proof.
  intros Hp. apply (Sorted_unique str_le).
  - apply sorted_id_Sorted.
  - apply sorted_id_Sorted.
  - by rewrite !sorted_perm.
Qed.

Lemma split_params_deps_Permutation (s s' : Stage) :
  deps s ≡ₚ deps s' →
  (split_params_deps s).1 ≡ₚ (split_params_deps s').1
  ∧ (split_params_deps s).2 ≡ₚ (split_params_deps s').2.
Proof. intros Hp. unfold split_params_deps. simpl. by rewrite Hp. Qed.

Lemma serialize_outs_Permutation (l l' : list Output) :
  l' ≡ₚ l → NoDup (def_path <$> l) → _serialize_outs l' = _serialize_outs l.
Proof.
  intros Hp Hnd. unfold _serialize_outs, sort_by_path.
  by rewrite (sorted_Permutation def_path l l').
Qed.

Lemma serialize_params_keys_Permutation (l l' : list ParamsDependency) :
  l' ≡ₚ l → NoDup (def_path <$> l) →
  _serialize_params_keys l' = _serialize_params_keys l.
Proof.
  intros Hp Hnd. unfold _serialize_params_keys, sort_by_path.
  by rewrite (sorted_Permutation def_path l l').
Qed.

Lemma serialize_params_values_Permutation (l l' : list ParamsDependency) :
  l' ≡ₚ l → NoDup (def_path <$> l) →
  _serialize_params_values l' = _serialize_params_values l.
Proof.
  intros Hp Hnd. unfold _serialize_params_values, sort_by_path.
  by rewrite (sorted_Permutation def_path l l').
Qed.

(** X1: the lock record of a stage does not depend on the order in which
    its dependencies and outputs are declared, nor on [wdir], [path],
    [frozen] or [always_changed], as long as no two parameter files, no two
    path dependencies and no two outputs share a path. *)
Theorem lockfile_order_independent (s s' : Stage) :
  name s' = name s → cmd s' = cmd s →
  deps s' ≡ₚ deps s → outs s' ≡ₚ outs s →
  NoDup (def_path <$> (split_params_deps s).1) →
  NoDup (def_path <$> (split_params_deps s).2) →
  NoDup (def_path <$> outs s) →
  to_single_stage_lockfile s' = to_single_stage_lockfile s
  ∧ to_lockfile s' = to_lockfile s.
Proof.
  intros Hn Hc Hd Ho Hps Hds Hos.
  destruct (split_params_deps_Permutation s' s Hd) as [Hp1 Hp2].
  assert (to_single_stage_lockfile s' = to_single_stage_lockfile s) as E.
  { unfold to_single_stage_lockfile. rewrite Hc.
    destruct (split_params_deps s) as [ps ds] eqn:Es.
    destruct (split_params_deps s') as [ps' ds'] eqn:Es'.
    simpl in Hp1, Hp2, Hps, Hds.
    rewrite (serialize_params_values_Permutation ps ps') by done.
    unfold sort_by_path.
    rewrite (sorted_Permutation def_path ds ds') by done.
    by rewrite (sorted_Permutation def_path (outs s) (outs s')). }
  split; [done|]. unfold to_lockfile. by rewrite Hn, E.
Qed.

(** X2: the pipeline-file record of a stage does not depend on the order
    in which its dependencies and outputs are declared, as long as no two
    parameter files and no two outputs share a path. *)
Theorem pipeline_file_order_independent
    (resolve_wdir : string → string → option string) (s s' : Stage) :
  name s' = name s → cmd s' = cmd s → wdir s' = wdir s → path s' = path s →
  frozen s' = frozen s → always_changed s' = always_changed s →
  deps s' ≡ₚ deps s → outs s' ≡ₚ outs s →
  NoDup (def_path <$> (split_params_deps s).1) →
  NoDup (def_path <$> outs s) →
  to_pipeline_file resolve_wdir s' = to_pipeline_file resolve_wdir s.
Proof.
  intros Hn Hc Hw Hp Hf Ha Hd Ho Hps Hos.
  destruct (split_params_deps_Permutation s' s Hd) as [Hp1 Hp2].
  unfold to_pipeline_file, pipeline_fields.
  rewrite Hn, Hc, Hw, Hp, Hf, Ha.
  destruct (split_params_deps s) as [ps ds] eqn:Es.
  destruct (split_params_deps s') as [ps' ds'] eqn:Es'.
  simpl in Hp1, Hp2, Hps.
  rewrite (serialize_params_keys_Permutation ps ps') by done.
  rewrite (serialize_outs_Permutation (outs s) (outs s')) by done.
  rewrite (sorted_strings_Permutation (def_path <$> ds) (def_path <$> ds'));
    [done|]. by rewrite Hp2.
Qed.

Lemma lockfile_order_independent_witness :
  to_lockfile
    (mkStage "train" (Some "python train.py") "sub" "other.yaml"
       (reverse (deps stage_train)) (reverse (outs stage_train)) true false)
  = to_lockfile stage_train.
Proof.
  refine (proj2 (lockfile_order_independent stage_train
    (mkStage "train" (Some "python train.py") "sub" "other.yaml"
       (reverse (deps stage_train)) (reverse (outs stage_train)) true false)
    _ _ _ _ _ _ _)).
  - reflexivity.
  - reflexivity.
  - apply reverse_Permutation.
  - apply reverse_Permutation.
  - refine (bool_decide_unpack _ _). by vm_compute.
  - refine (bool_decide_unpack _ _). by vm_compute.
  - refine (bool_decide_unpack _ _). by vm_compute.
Defined.

Lemma pipeline_file_order_independent_witness :
  to_pipeline_file (λ _ _, None)
    (mkStage "train" (Some "python train.py") "." "dvc.yaml"
       (reverse (deps stage_train)) (reverse (outs stage_train)) false true)
  = to_pipeline_file (λ _ _, None) stage_train.
Proof.
  refine (pipeline_file_order_independent (λ _ _, None) stage_train
    (mkStage "train" (Some "python train.py") "." "dvc.yaml"
       (reverse (deps stage_train)) (reverse (outs stage_train)) false true)
    _ _ _ _ _ _ _ _ _ _).
  - reflexivity.
  - reflexivity.
  - reflexivity.
  - reflexivity.
  - reflexivity.
  - reflexivity.
  - apply reverse_Permutation.
  - apply reverse_Permutation.
  - refine (bool_decide_unpack _ _). by vm_compute.
  - refine (bool_decide_unpack _ _). by vm_compute.
Defined.

(** ** The shape of the serialised entries *)

Lemma od_set_not_nil {V} (k : string) (v : V) (d : list (string * V)) :
  OrderedDict.set k v d ≠ [].
Proof.
  destruct d as [|[k' v'] d]; simpl; [done|]. by destruct (String.eqb k k').
Qed.

Lemma od_fold_set_nil {V} (l d : list (string * V)) :
  fold_left (λ d kv, OrderedDict.set kv.1 kv.2 d) l d = [] → d = [] ∧ l = [].
Proof.
  revert d. induction l as [|[k v] l IH]; intros d; simpl; [done|].
  intros E. apply IH in E as [E _]. by apply od_set_not_nil in E.
Qed.

Lemma od_of_pairs_nil {V} (l : list (string * V)) :
  OrderedDict.of_pairs l = [] → l = [].
Proof. intros E. by apply od_fold_set_nil in E as [_ ?]. Qed.

Lemma get_flags_nil (out : Output) :
  _get_flags out = [] ↔
  use_cache out = true ∧ persist out = false
  ∧ ∀ props, plot out = FlagDict props → props = [].
Proof.
  split.
  - intros E%od_of_pairs_nil.
    destruct (use_cache out), (persist out); simpl in E; try done.
    split_and!; [done..|]. intros props Hp. rewrite Hp in E. simpl in E.
    by destruct props.
  - intros (Hc & Hp & Hprops). by apply get_flags_default.
Qed.

(** X3: the keys of a pipeline-file record are written in the fixed order
    cmd, wdir, deps, params, outs, metrics, plots, frozen, always_changed,
    each at most once. *)
Theorem pipeline_file_key_order
    (resolve_wdir : string → string → option string) (stage : Stage) :
  ∃ r, to_pipeline_file resolve_wdir stage = [(name stage, YDict r)]
       ∧ r.*1 `sublist_of`
           [PARAM_CMD; PARAM_WDIR; PARAM_DEPS; PARAM_PARAMS; PARAM_OUTS;
            PARAM_METRICS; PARAM_PLOTS; PARAM_FROZEN; PARAM_ALWAYS_CHANGED]
       ∧ NoDup r.*1.
Proof.
  eexists. split; [apply pipeline_record_eq|]. split.
  - rewrite <- (pipeline_fields_keys resolve_wdir stage).
    apply fmap_sublist, sublist_filter.
  - apply filter_keys_NoDup, pipeline_fields_NoDup.
Qed.

(** X4: an output is written as its bare path exactly when it is cached,
    not persistent and carries no plot properties; any other output is
    written as a one-key mapping from its path to a non-empty mapping of
    flags. *)
Theorem serialize_out_shape (out : Output) :
  (_serialize_out out = YStr (def_path out) ↔
   use_cache out = true ∧ persist out = false
   ∧ ∀ props, plot out = FlagDict props → props = [])
  ∧ (_serialize_out out = YStr (def_path out)
     ∨ _get_flags out ≠ []
       ∧ _serialize_out out = YDict [(def_path out, YDict (_get_flags out))]).
Proof.
  rewrite <- get_flags_nil. unfold _serialize_out. simpl.
  case_bool_decide as E; simpl.
  - split; [done|]. by left.
  - split; [|by right]. split; [done|]. intros E'. by rewrite E' in E.
Qed.

(** X5: the flags of an output are written cache first, persist second and
    then the plot properties in the order the plot dictionary holds them,
    unsorted. *)
Theorem get_flags_order (out : Output) :
  (∀ props, plot out = FlagDict props →
     NoDup (props.*1) ∧ (PARAM_CACHE ∉ props.*1)
     ∧ (PARAM_PERSIST ∉ props.*1)) →
  _get_flags out =
    (if use_cache out then [] else [(PARAM_CACHE, YBool false)])
    ++ (if persist out then [(PARAM_PERSIST, YBool true)] else [])
    ++ match plot out with FlagDict props => props | FlagBool _ => [] end.
Proof.
  intros Hp. unfold _get_flags.
  assert ((match plot out with
           | FlagDict props => if flag_truthy (plot out) then props else []
           | FlagBool _ => []
           end)
          = match plot out with FlagDict props => props | FlagBool _ => [] end)
    as ->.
  { destruct (plot out) as [b|props]; [done|]. simpl.
    case_bool_decide; by subst. }
  replace (if negb (use_cache out) then [(PARAM_CACHE, YBool false)] else [])
    with (if use_cache out then [] else [(PARAM_CACHE, YBool false)])
    by (by destruct (use_cache out)).
  apply od_of_pairs_NoDup.
  destruct (plot out) as [b|props].
  - destruct (use_cache out), (persist out); simpl;
      refine (bool_decide_unpack _ _); by vm_compute.
  - destruct (Hp props eq_refl) as (Hnd & Hc & Hpe).
    destruct (use_cache out), (persist out); simpl;
      repeat (apply NoDup_cons; split); try done.
    rewrite not_elem_of_cons. split; [done|]. done.
Qed.

Lemma get_flags_order_witness :
  _get_flags out_scores = [("cache", YBool false); ("persist", YBool true)]
  ∧ _get_flags out_curve = [("x", YStr "fpr")].
Proof.
  split.
  - refine (get_flags_order out_scores _). intros props E.
    simpl in E. discriminate E.
  - refine (get_flags_order out_curve _). intros props E.
    simpl in E. injection E as <-. simpl.
    split; [|split]; refine (bool_decide_unpack _ _); by vm_compute.
Defined.

(** ** Every list of a pipeline-file record is in path order *)

Lemma entry_path_serialize_out (out : Output) :
  entry_path (_serialize_out out) = Some (def_path out).
Proof. unfold _serialize_out. by destruct (negb _). Qed.

Lemma bucket_partition_Permutation (l : list Output) :
  filter in_outs l ++ filter in_metrics l ++ filter in_plots l ≡ₚ l.
Proof.
  induction l as [|o l IH]; [done|].
  rewrite !filter_cons.
  repeat case_decide; simpl; unfold in_outs, in_metrics, in_plots in *;
    destruct (flag_truthy (plot o)), (flag_truthy (metric o));
    simpl in *; try tauto;
    rewrite <- ?Permutation_middle; by rewrite IH.
Qed.

(** X6: in each of the three buckets of [_serialize_outs] every entry
    carries the path of its output, the paths are in ascending order, and
    together the buckets hold the path of every output exactly once. *)
Theorem serialize_outs_sorted (outputs : list Output) :
  ∃ po pm pp : list string,
    entry_path <$> (_serialize_outs outputs).1.1 = Some <$> po
    ∧ entry_path <$> (_serialize_outs outputs).1.2 = Some <$> pm
    ∧ entry_path <$> (_serialize_outs outputs).2 = Some <$> pp
    ∧ Sorted str_le po ∧ Sorted str_le pm ∧ Sorted str_le pp
    ∧ po ++ pm ++ pp ≡ₚ def_path <$> outputs.
Proof.
  exists (def_path <$> filter in_outs (sort_by_path outputs)),
         (def_path <$> filter in_metrics (sort_by_path outputs)),
         (def_path <$> filter in_plots (sort_by_path outputs)).
  unfold _serialize_outs. rewrite serialize_outs_loop. simpl.
  rewrite <- !list_fmap_compose.
  split_and!.
  - apply list_fmap_ext. intros i o _. apply entry_path_serialize_out.
  - apply list_fmap_ext. intros i o _. apply entry_path_serialize_out.
  - apply list_fmap_ext. intros i o _. apply entry_path_serialize_out.
  - apply sorted_filter_Sorted.
  - apply sorted_filter_Sorted.
  - apply sorted_filter_Sorted.
  - rewrite <- !fmap_app, bucket_partition_Permutation.
    by rewrite sort_by_path_perm.
Qed.

(** X7: the [deps] list of a pipeline-file record holds the paths of the
    stage's path dependencies in ascending order, each as often as it is
    declared; the key is absent exactly when there is no path dependency. *)
Theorem pipeline_file_deps_sorted
    (resolve_wdir : string → string → option string) (stage : Stage) :
  ∃ r paths,
    to_pipeline_file resolve_wdir stage = [(name stage, YDict r)]
    ∧ Sorted str_le paths
    ∧ paths ≡ₚ def_path <$> (split_params_deps stage).2
    ∧ OrderedDict.get PARAM_DEPS r =
        match paths with [] => None | _ => Some (YList (YStr <$> paths)) end.
Proof.
  exists (filter (λ kv, truthy kv.2) (pipeline_fields resolve_wdir stage)),
         (sorted id (def_path <$> (split_params_deps stage).2)).
  split_and!.
  - apply pipeline_record_eq.
  - apply sorted_id_Sorted.
  - apply sorted_perm.
  - assert ((PARAM_DEPS,
             YList (YStr <$> sorted id
                               (def_path <$> (split_params_deps stage).2)))
            ∈ pipeline_fields resolve_wdir stage) as Hin.
    { unfold pipeline_fields.
      destruct (split_params_deps stage) as [ps ds].
      destruct (_serialize_outs (outs stage)) as [[??]?]. simpl.
      field_in_list. }
    destruct (sorted id _) as [|p paths] eqn:E.
    + by apply (pipeline_record_dropped _ _ _ _ Hin).
    + by apply (pipeline_record_present _ _ _ _ Hin).
Qed.

(** ** Lock records: errors and optional keys *)

Lemma truthy_YStr_inv (s : string) : truthy (YStr s) = false → s = "".
Proof. simpl. by destruct (String.eqb_spec s ""). Qed.

Lemma assert_cmd (o : option string) :
  (assert (yaml_of_option o) = Raise AssertionError
   ∧ (o = None ∨ o = Some ""))
  ∨ (assert (yaml_of_option o) = Return () ∧ ∃ c, o = Some c ∧ c ≠ "").
Proof.
  unfold assert. destruct o as [c|]; simpl; [|left; split; [done|by left]].
  destruct (String.eqb_spec c ""); simpl.
  - left. split; [done|]. right. by subst.
  - right. split; [done|]. by exists c.
Qed.

(** The lock record of a stage with command [c], before the entries are
    compared with [lock_item]. *)
Lemma lockfile_record_form (stage : Stage) (c : string) :
  cmd stage = Some c → c ≠ "" →
  let ds := sort_by_path (split_params_deps stage).2 in
  let os := sort_by_path (outs stage) in
  let ps := _serialize_params_values (split_params_deps stage).1 in
  to_single_stage_lockfile stage =
    Return
      ([(PARAM_CMD, YStr c)]
       ++ optional_field PARAM_DEPS ds (YList (YDict <$> (lock_entry <$> ds)))
       ++ optional_field PARAM_PARAMS ps (YDict (prod_map id YDict <$> ps))
       ++ optional_field PARAM_OUTS os (YList (YDict <$> (lock_entry <$> os)))).
Proof.
  intros Hcmd Hc ds os ps.
  unfold to_single_stage_lockfile. rewrite Hcmd.
  unfold assert. cbn [yaml_of_option]. rewrite (truthy_YStr c Hc).
  cbn [mbind result_bind].
  subst ps ds os. destruct (split_params_deps stage) as [params deps].
  cbn [fst snd] in *.
  rewrite <- !list_fmap_compose, !truthy_YList_fmap.
  destruct (sort_by_path deps) as [|d0 ds0];
    destruct (_serialize_params_values params) as [|p0 ps0];
    destruct (sort_by_path (outs stage)) as [|o0 os0];
    repeat case_bool_decide; try done.
Qed.

(** X8: [to_lockfile] fails exactly when the stage has no name or no
    command, and then always with an assertion error; when it succeeds the
    result is a single entry under the stage's name whose record starts
    with the command. *)
Theorem to_lockfile_errors (stage : Stage) :
  (to_lockfile stage = Raise AssertionError ↔
   name stage = "" ∨ cmd stage = None ∨ cmd stage = Some "")
  ∧ (∀ e, to_lockfile stage = Raise e → e = AssertionError)
  ∧ (∀ l, to_lockfile stage = Return l →
       ∃ c rest, cmd stage = Some c ∧ c ≠ "" ∧ name stage ≠ ""
                 ∧ l = [(name stage, YDict ((PARAM_CMD, YStr c) :: rest))]).
Proof.
  unfold to_lockfile, assert.
  destruct (truthy (YStr (name stage))) eqn:En; cbn [mbind result_bind].
  - assert (name stage ≠ "") as Hn.
    { intros E. rewrite E in En. done. }
    destruct (assert_cmd (cmd stage)) as [[Ea Hc]|[Ea (c & Hc & Hne)]].
    + assert (to_single_stage_lockfile stage = Raise AssertionError) as ->.
      { unfold to_single_stage_lockfile. by rewrite Ea. }
      cbn [mbind result_bind]. split_and!; [|congruence|done].
      split; [tauto|done].
    + rewrite (lockfile_record_form stage c Hc Hne).
      cbn [mbind result_bind]. split_and!.
      * split; [done|]. intros [?|[?|?]]; congruence.
      * done.
      * intros l [= <-]. by eexists c, _.
  - apply truthy_YStr_inv in En. split_and!; [|congruence|done].
    split; [tauto|done].
Qed.

Lemma serialize_params_values_nil_loop
    (l : list ParamsDependency) (acc : OrderedDict.t (OrderedDict.t yaml)) :
  fold_left
    (λ key_vals param_dep,
       let '(path, params) := dumpd param_dep in
       match params with
       | ParamsDict d =>
           let kv :=
             (λ key, (key, d !!! key)) <$> sorted id (params_keys params) in
           let key_vals :=
             OrderedDict.set path (OrderedDict.of_pairs kv) key_vals in
           if String.eqb path DEFAULT_PARAMS_FILE
           then OrderedDict.move_to_front path key_vals
           else key_vals
       | ParamsList _ => key_vals
       end)
    l acc = [] ↔ acc = [] ∧ Forall (λ p, ¬ is_dict p) l.
Proof.
  revert acc. induction l as [|p l IH]; intros acc.
  - simpl. split; [by intros ->|by intros [-> _]].
  - cbn [fold_left]. rewrite IH, Forall_cons. unfold is_dict.
    change (dumpd p) with (def_path p, params p). cbv beta iota.
    destruct (params p) as [d|keys]; [|tauto].
    split; [|tauto]. intros [E _]. exfalso. revert E.
    destruct (String.eqb _ _).
    + unfold OrderedDict.move_to_front.
      destruct (OrderedDict.get _ _); [done|]. apply od_set_not_nil.
    + apply od_set_not_nil.
Qed.

Lemma serialize_params_values_nil (ps : list ParamsDependency) :
  _serialize_params_values ps = [] ↔ Forall (λ p, ¬ is_dict p) ps.
Proof.
  unfold _serialize_params_values. rewrite serialize_params_values_nil_loop.
  unfold sort_by_path. rewrite sorted_perm. tauto.
Qed.

Lemma optional_field_get {A} (k k' : string) (l : list A) (v : yaml)
    (rest : list (string * yaml)) :
  OrderedDict.get k (optional_field k' l v ++ rest) =
    if String.eqb k k' then
      match l with [] => OrderedDict.get k rest | _ => Some v end
    else OrderedDict.get k rest.
Proof.
  destruct l; simpl; [by destruct (String.eqb k k')|done].
Qed.

(** X9: in a lock record [deps] is present exactly when the stage has a
    path dependency, [outs] exactly when it has an output, and [params]
    exactly when some parameter dependency holds a dictionary (an empty
    one counts, a bare list of keys does not); the keys come in the order
    cmd, deps, params, outs. *)
Theorem lockfile_optional_keys (stage : Stage) (r : OrderedDict.t yaml) :
  to_single_stage_lockfile stage = Return r →
  (OrderedDict.get PARAM_DEPS r = None ↔ (split_params_deps stage).2 = [])
  ∧ (OrderedDict.get PARAM_OUTS r = None ↔ outs stage = [])
  ∧ (OrderedDict.get PARAM_PARAMS r = None ↔
     Forall (λ p, ¬ is_dict p) (split_params_deps stage).1)
  ∧ r.*1 `sublist_of` [PARAM_CMD; PARAM_DEPS; PARAM_PARAMS; PARAM_OUTS].
Proof.
  intros E.
  destruct (assert_cmd (cmd stage)) as [[Ea Hc]|[Ea (c & Hc & Hne)]].
  { unfold to_single_stage_lockfile in E. by rewrite Ea in E. }
  pose proof (lockfile_record_form stage c Hc Hne) as F. cbv zeta in F.
  rewrite F in E. clear F.
  rewrite <- serialize_params_values_nil.
  assert (sort_by_path (split_params_deps stage).2 = [] ↔
          (split_params_deps stage).2 = []) as Hd.
  { split; [apply sorted_nil_inv|by intros ->]. }
  assert (sort_by_path (outs stage) = [] ↔ outs stage = []) as Ho.
  { split; [apply sorted_nil_inv|by intros ->]. }
  rewrite <- Hd, <- Ho.
  destruct (sort_by_path (split_params_deps stage).2) as [|d0 ds];
    destruct (sort_by_path (outs stage)) as [|o0 os];
    destruct (_serialize_params_values (split_params_deps stage).1)
      as [|p0 ps];
    injection E as <-; simpl.
  all: split_and!; try done.
  all: repeat first [ apply sublist_nil_l | apply sublist_skip
                    | apply sublist_cons ].
Qed.

Lemma lockfile_optional_keys_witness :
  OrderedDict.get PARAM_DEPS
    [("cmd", YStr "echo");
     ("params", YDict [("params.yaml", YDict [])])] = None
  ∧ OrderedDict.get PARAM_PARAMS
      [("cmd", YStr "echo");
       ("params", YDict [("params.yaml", YDict [])])] ≠ None.
Proof.
  pose proof (lockfile_optional_keys
    (mkStage "s" (Some "echo") "." "dvc.yaml"
       [ParamsDep (mkParamsDependency "params.yaml" (ParamsDict ∅));
        ParamsDep (mkParamsDependency "other.yaml" (ParamsList ["k"]))]
       [] false false)
    [("cmd", YStr "echo"); ("params", YDict [("params.yaml", YDict [])])]
    eq_refl) as (Hd & _ & Hp & _).
  split; [by apply Hd|]. intros E. apply Hp in E.
  apply Forall_cons in E as [E _]. apply E. exact I.
Defined.

(** ** Parameter files: lookup and independence of the values *)

Lemma lock_params_get (p : ParamsDependency) (d : gmap string yaml) k :
  params p = ParamsDict d → OrderedDict.get k (lock_params p).2 = d !! k.
Proof.
  intros Ep. unfold lock_params. rewrite Ep. cbn [snd].
  assert (sorted_keys p ≡ₚ (map_to_list d).*1) as Hperm.
  { unfold sorted_keys. rewrite Ep. apply sorted_perm. }
  destruct (d !! k) as [v|] eqn:Ek.
  - apply od_get_NoDup.
    + rewrite fmap_fst_pairing, Hperm. apply NoDup_fst_map_to_list.
    + apply list_elem_of_fmap. exists k. split.
      * by rewrite lookup_total_alt, Ek.
      * rewrite Hperm. apply list_elem_of_fmap. exists (k, v).
        split; [done|]. by apply elem_of_map_to_list.
  - apply od_get_None. rewrite fmap_fst_pairing, Hperm.
    intros ([k' v] & -> & Hin%elem_of_map_to_list)%list_elem_of_fmap.
    simpl in Ek. congruence.
Qed.

(** X10: in the [params] mapping of a lock record, looking up a parameter
    file and then a key returns the value the dependency holds for that
    key, and finds nothing for a key the dependency does not hold, as long
    as no two parameter dependencies share a path. *)
Theorem params_values_lookup
    (ps : list ParamsDependency) (p : ParamsDependency)
    (d : gmap string yaml) :
  NoDup (def_path <$> ps) → p ∈ ps → params p = ParamsDict d →
  ∃ kv, OrderedDict.get (def_path p) (_serialize_params_values ps) = Some kv
        ∧ ∀ k, OrderedDict.get k kv = d !! k.
Proof.
  intros Hnd Hin Ep. exists (lock_params p).2.
  split; [|intros k; by apply lock_params_get].
  unfold _serialize_params_values.
  assert (NoDup (def_path <$> sort_by_path ps)) as Hnd'.
  { by rewrite sort_by_path_perm. }
  assert (p ∈ sort_by_path ps) as Hin' by by rewrite sort_by_path_perm.
  rewrite serialize_params_values_loop by by rewrite app_nil_l.
  rewrite app_nil_l.
  set (l := sort_by_path ps) in *.
  assert (is_dict p) as Hdict by (unfold is_dict; by rewrite Ep).
  apply od_get_NoDup.
  - rewrite fmap_app, <- !list_fmap_compose.
    change (fst ∘ lock_params) with (def_path : ParamsDependency → string).
    apply NoDup_app. split_and!.
    + eapply sublist_NoDup; [exact Hnd'|]. apply fmap_sublist, sublist_filter.
    + intros x (q & -> & [[Hq _] _]%list_elem_of_filter)%list_elem_of_fmap
             (q' & E & [[Hq' _] _]%list_elem_of_filter)%list_elem_of_fmap.
      apply Hq'. unfold is_default in *. congruence.
    + eapply sublist_NoDup; [exact Hnd'|]. apply fmap_sublist, sublist_filter.
  - apply elem_of_app. destruct (decide (is_default p)) as [Hdef|Hdef].
    + left. apply list_elem_of_fmap. exists p. split; [done|].
      by apply list_elem_of_filter.
    + right. apply list_elem_of_fmap. exists p. split; [done|].
      by apply list_elem_of_filter.
Qed.

Lemma params_values_lookup_witness :
  ∃ kv, OrderedDict.get "z.yaml"
          (_serialize_params_values [params_z; params_default; params_a])
        = Some kv
        ∧ ∀ k, OrderedDict.get k kv = (<["k" := YStr "v"]> ∅ : gmap _ _) !! k.
Proof.
  refine (params_values_lookup [params_z; params_default; params_a]
            params_z _ _ _ _).
  - refine (bool_decide_unpack _ _). by vm_compute.
  - apply list_elem_of_here.
  - reflexivity.
Defined.

(** Two lists of parameter dependencies that agree, position by position,
    on the file and on the set of keys. *)
Lemma insert_sorted_Forall2 {A} (key : A → string) (R : A → A → Prop)
    (x y : A) (l l' : list A) :
  (∀ a b, R a b → key a = key b) →
  R x y → Forall2 R l l' →
  Forall2 R (insert_sorted key x l) (insert_sorted key y l').
Proof.
  intros Hkey Hxy Hl. induction Hl as [|a b l l' Hab Hl IH]; simpl.
  - by repeat constructor.
  - rewrite <- (Hkey _ _ Hxy), <- (Hkey _ _ Hab).
    destruct (String.leb (key x) (key a)); by repeat constructor.
Qed.

Lemma sorted_Forall2 {A} (key : A → string) (R : A → A → Prop)
    (l l' : list A) :
  (∀ a b, R a b → key a = key b) →
  Forall2 R l l' → Forall2 R (sorted key l) (sorted key l').
Proof.
  intros Hkey Hl. induction Hl; simpl; [constructor|].
  by apply insert_sorted_Forall2.
Qed.

(** X11: the [params] list of a pipeline-file record depends only on the
    file and the key names of each parameter dependency: dependencies that
    hold other values, or that hold their keys as a bare list instead of a
    dictionary, serialise alike. *)
Theorem serialize_params_keys_ignores_values
    (ps ps' : list ParamsDependency) :
  Forall2 (λ p p', def_path p = def_path p'
                   ∧ params_keys (params p) ≡ₚ params_keys (params p'))
          ps ps' →
  _serialize_params_keys ps = _serialize_params_keys ps'.
Proof.
  intros H. unfold _serialize_params_keys.
  apply (sorted_Forall2 def_path) in H; [|by intros a b [? _]].
  unfold sort_by_path. generalize (@nil yaml) at 2 4.
  induction H as [|p p' l l' [Hp Hk] Hl IH]; intros acc; [done|].
  cbn [fold_left]. change (dumpd p) with (def_path p, params p).
  change (dumpd p') with (def_path p', params p'). cbv beta iota.
  rewrite <- Hp.
  rewrite (sorted_strings_Permutation (params_keys (params p'))
             (params_keys (params p))) by done.
  apply IH.
Qed.

Lemma serialize_params_keys_ignores_values_witness :
  _serialize_params_keys [params_z; params_default; params_a]
  = _serialize_params_keys
      [ mkParamsDependency "z.yaml" (ParamsList ["k"]);
        mkParamsDependency "params.yaml" (ParamsList ["lr"; "alpha"]);
        mkParamsDependency "a.yaml"
          (ParamsDict (<["b" := YNone]> (<["z" := YNone]> ∅))) ].
Proof.
  apply serialize_params_keys_ignores_values.
  repeat first [apply List.Forall2_nil | apply List.Forall2_cons];
    (split; [reflexivity|]);
    refine (bool_decide_unpack _ _); by vm_compute.
Defined.

Lemma serialize_params_keys_nil_loop
    (l : list ParamsDependency) (keys : list yaml) :
  fold_left
    (λ keys param_dep,
       let '(path, params) := dumpd param_dep in
       let k := sorted id (params_keys params) in
       if bool_decide (k = []) then keys
       else if String.eqb path DEFAULT_PARAMS_FILE then (YStr <$> k) ++ keys
       else keys ++ [YDict [(path, YList (YStr <$> k))]])
    l keys = [] ↔
  keys = [] ∧ Forall (λ p, params_keys (params p) = []) l.
Proof.
  revert keys. induction l as [|p l IH]; intros keys.
  - simpl. split; [by intros ->|by intros [-> _]].
  - cbn [fold_left]. rewrite IH, Forall_cons.
    change (dumpd p) with (def_path p, params p). cbv beta iota zeta.
    case_bool_decide as Ek.
    + apply sorted_nil_inv in Ek. tauto.
    + split.
      * intros [E _]. exfalso. destruct (String.eqb _ _).
        -- apply app_eq_nil in E as [E _].
           apply fmap_nil_inv in E. done.
        -- by apply app_eq_nil in E as [_ ?].
      * intros (_ & E & _). by rewrite E in Ek.
Qed.

(** X12: the [params] key of a pipeline-file record is absent exactly when
    no parameter dependency of the stage names a key. *)
Theorem pipeline_file_params_presence
    (resolve_wdir : string → string → option string) (stage : Stage) :
  ∃ r, to_pipeline_file resolve_wdir stage = [(name stage, YDict r)]
       ∧ (OrderedDict.get PARAM_PARAMS r = None ↔
          Forall (λ p, params_keys (params p) = [])
                 (split_params_deps stage).1).
Proof.
  exists (filter (λ kv, truthy kv.2) (pipeline_fields resolve_wdir stage)).
  split; [apply pipeline_record_eq|].
  assert (_serialize_params_keys (split_params_deps stage).1 = [] ↔
          Forall (λ p, params_keys (params p) = [])
                 (split_params_deps stage).1) as <-.
  { unfold _serialize_params_keys. rewrite serialize_params_keys_nil_loop.
    unfold sort_by_path. rewrite sorted_perm. tauto. }
  assert ((PARAM_PARAMS,
           YList (_serialize_params_keys (split_params_deps stage).1))
          ∈ pipeline_fields resolve_wdir stage) as Hin.
  { unfold pipeline_fields.
    destruct (split_params_deps stage) as [ps ds].
    destruct (_serialize_outs (outs stage)) as [[??]?]. simpl.
    field_in_list. }
  destruct (_serialize_params_keys _) as [|k ks] eqn:E.
  - split; [done|]. intros _.
    by apply (pipeline_record_dropped _ _ _ _ Hin).
  - split; [|done]. intros Hg.
    by rewrite (pipeline_record_present _ _ _ _ Hin) in Hg.
Qed.

(** ** Plots: unsetting display properties *)


Lemma od_remove_filter {V} (k : string) (d : list (string * V)) :
  OrderedDict.remove k d = filter (λ kv, kv.1 ≠ k) d.
Proof.
  induction d as [|[k' v] d IH]; [done|]. rewrite filter_cons.
  cbn [OrderedDict.remove fst].
  destruct (String.eqb_spec k k') as [->|Hne].
  - rewrite decide_False by (intros H; by apply H). done.
  - rewrite decide_True by done. by rewrite IH.
Qed.

Lemma od_get_is_Some {V} (k : string) (d : OrderedDict.t V) :
  is_Some (OrderedDict.get k d) ↔ k ∈ OrderedDict.keys d.
Proof.
  rewrite <- not_eq_None_Some, od_get_None. unfold OrderedDict.keys.
  split; [apply dec_stable|by intros ??].
Qed.

Lemma od_get_filter {V} (P : string * V → Prop) `{∀ x, Decision (P x)}
    (Q : string → Prop) (k : string) (d : list (string * V)) :
  (∀ kv, P kv ↔ Q kv.1) →
  (Q k → OrderedDict.get k (filter P d) = OrderedDict.get k d)
  ∧ (¬ Q k → OrderedDict.get k (filter P d) = None).
Proof.
  intros HPQ. induction d as [|[k' v] d [IH1 IH2]]; [done|].
  rewrite filter_cons.
  destruct (decide (P (k', v))) as [Hk'|Hk']; cbn [OrderedDict.get];
    destruct (String.eqb_spec k k') as [->|Hne]; try done.
  - split; [done|]. intros Hn. exfalso. by apply Hn, (HPQ (k', v)).
  - split; [|done]. intros Hq. exfalso. by apply Hk', HPQ.
Qed.

Lemma filter_all {A} (P : A → Prop) `{∀ x, Decision (P x)} (l : list A) :
  (∀ x, x ∈ l → P x) → filter P l = l.
Proof.
  induction l as [|x l IH]; intros Hl; [done|].
  rewrite filter_cons, decide_True by apply Hl, list_elem_of_here.
  rewrite IH; [done|]. intros y Hy. by apply Hl, list_elem_of_further.
Qed.

Lemma pop_all_outcome (props : list string) (plot : Plots.props_t) :
  (∃ plot', Plots.pop_all props plot = (Plots.Ok (), plot'))
  ∨ (∃ k plot', Plots.pop_all props plot = (Plots.Err (Plots.KeyError k), plot')
                ∧ k ∈ props ∧ k ∉ OrderedDict.keys plot').
Proof.
  revert plot. induction props as [|p props IH]; intros plot; simpl.
  - left. by eexists.
  - unfold Plots.pop. destruct (OrderedDict.get p plot) as [v|] eqn:E.
    + destruct (IH (OrderedDict.remove p plot))
        as [[plot' ->]|(k & plot' & -> & Hk & Hk')].
      * left. by eexists.
      * right. exists k, plot'. split_and!; [done| |done].
        by apply list_elem_of_further.
    + right. exists p, plot. split_and!; [done| |].
      * apply list_elem_of_here.
      * by apply od_get_None in E.
Qed.

Lemma pop_all_Ok (props : list string) (plot plot' : Plots.props_t) :
  Plots.pop_all props plot = (Plots.Ok (), plot') ↔
  NoDup props ∧ (∀ p, p ∈ props → p ∈ OrderedDict.keys plot)
  ∧ plot' = filter (λ kv, kv.1 ∉ props) plot.
Proof.
  unfold Plots.props_t, OrderedDict.t in *.
  revert plot. induction props as [|p props IH]; intros plot; simpl.
  - split.
    + intros [= <-]. split_and!; [constructor|by intros ? ?%elem_of_nil|].
      symmetry. apply filter_all. by intros ? _ ?%elem_of_nil.
    + intros (_ & _ & ->). f_equal. symmetry.
      apply filter_all. by intros ? _ ?%elem_of_nil.
  - unfold Plots.pop. destruct (OrderedDict.get p plot) as [v|] eqn:E.
    + rewrite IH, NoDup_cons, od_remove_filter.
      assert (p ∈ OrderedDict.keys plot) as Hp.
      { apply od_get_is_Some. by rewrite E. }
      assert (filter (λ kv : string * yaml, kv.1 ∉ props)
                (filter (λ kv, kv.1 ≠ p) plot)
              = filter (λ kv : string * yaml, kv.1 ∉ p :: props) plot) as ->.
      { rewrite list_filter_filter. apply list_filter_iff.
        intros [k w]. simpl. rewrite not_elem_of_cons. tauto. }
      unfold OrderedDict.keys.
      split.
      * intros (Hnd & Hin & ->). split_and!; [|done| |done].
        -- intros Hpin. apply Hin in Hpin.
           apply list_elem_of_fmap in Hpin as ([k w] & -> & Hf).
           apply list_elem_of_filter in Hf as [Hf _]. by apply Hf.
        -- intros q [->|Hq]%elem_of_cons; [done|].
           apply Hin in Hq. apply list_elem_of_fmap in Hq as ([k w] & -> & Hf).
           apply list_elem_of_filter in Hf as [_ Hf].
           by apply (list_elem_of_fmap_2 fst) in Hf.
      * intros ((Hp' & Hnd) & Hin & ->). split_and!; [done| |done].
        intros q Hq.
        assert (q ∈ plot.*1) as Hq' by (apply Hin; by right).
        apply list_elem_of_fmap in Hq' as ([k w] & -> & Hf).
        apply list_elem_of_fmap. exists (k, w). split; [done|].
        apply list_elem_of_filter. split; [|done]. simpl. by intros ->.
    + split; [done|]. intros (_ & Hin & _). exfalso.
      apply od_get_None in E. apply E, Hin, list_elem_of_here.
Qed.

Lemma unset_missing_empty (props : list string) (plot : Plots.props_t) :
  (list_to_set props ∖ list_to_set (OrderedDict.keys plot) : gset string) = ∅
  ↔ ∀ p, p ∈ props → p ∈ OrderedDict.keys plot.
Proof.
  split.
  - intros E p Hp. destruct (decide (p ∈ OrderedDict.keys plot)); [done|].
    exfalso. apply (not_elem_of_empty (C := gset string) p). rewrite <- E.
    apply elem_of_difference. by rewrite !elem_of_list_to_set.
  - intros H. apply set_eq. intros p.
    rewrite elem_of_difference, !elem_of_list_to_set.
    split; [|by intros ?%not_elem_of_empty]. intros [Hp Hn]. exfalso.
    by apply Hn, H.
Qed.

(** X13: unsetting distinct properties that the plot all has removes
    exactly those and leaves the others in place, in their order and with
    their values. *)
Theorem unset_removes (props : list string) (plot : Plots.props_t) :
  NoDup props → (∀ p, p ∈ props → p ∈ OrderedDict.keys plot) →
  Plots._unset props plot = (Plots.Ok (), filter (λ kv, kv.1 ∉ props) plot)
  ∧ ∀ k, OrderedDict.get k (filter (λ kv, kv.1 ∉ props) plot)
         = if decide (k ∈ props) then None else OrderedDict.get k plot.
Proof.
  unfold Plots.props_t, OrderedDict.t in *.
  intros Hnd Hin. split.
  - unfold Plots._unset. rewrite bool_decide_false.
    + by apply pop_all_Ok.
    + intros H. by apply H, unset_missing_empty.
  - intros k.
    destruct (od_get_filter (λ kv : string * yaml, kv.1 ∉ props)
                (λ k, k ∉ props) k plot) as [H1 H2]; [done|].
    destruct (decide (k ∈ props)); [apply H2; tauto|by apply H1].
Qed.

(** X14: when a property to unset is not in the plot, [_unset] raises
    [PropsNotFoundError] naming exactly the missing properties, and removes
    nothing. *)
Theorem unset_missing (props : list string) (plot : Plots.props_t)
    (p : string) :
  p ∈ props → p ∉ OrderedDict.keys plot →
  ∃ missing : gset string,
    Plots._unset props plot
    = (Plots.Err (Plots.PropsNotFoundError missing), plot)
    ∧ ∀ q, q ∈ missing ↔ q ∈ props ∧ q ∉ OrderedDict.keys plot.
Proof.
  intros Hp Hn. eexists. split.
  - unfold Plots._unset. rewrite bool_decide_true; [done|].
    intros E. rewrite unset_missing_empty in E. by apply Hn, E.
  - intros q. by rewrite elem_of_difference, !elem_of_list_to_set.
Qed.

(** X15: when every property to unset is in the plot but one is named
    twice, [_unset] raises [KeyError] for a property it has already
    removed. *)
Theorem unset_repeated (props : list string) (plot : Plots.props_t) :
  (∀ p, p ∈ props → p ∈ OrderedDict.keys plot) → ¬ NoDup props →
  ∃ k plot', Plots._unset props plot = (Plots.Err (Plots.KeyError k), plot')
             ∧ k ∈ props ∧ k ∈ OrderedDict.keys plot
             ∧ k ∉ OrderedDict.keys plot'.
Proof.
  intros Hin Hdup. unfold Plots._unset. rewrite bool_decide_false.
  - destruct (pop_all_outcome props plot)
      as [[plot' E]|(k & plot' & E & Hk & Hk')].
    + apply pop_all_Ok in E as [Hnd _]. done.
    + exists k, plot'. split_and!; [done..|by apply Hin|done].
  - intros H. by apply H, unset_missing_empty.
Qed.

Lemma unset_removes_witness :
  Plots._unset ["y"] [("x", YStr "a"); ("y", YStr "b"); ("title", YStr "t")]
  = (Plots.Ok (), [("x", YStr "a"); ("title", YStr "t")]).
Proof.
  refine (proj1 (unset_removes ["y"]
    [("x", YStr "a"); ("y", YStr "b"); ("title", YStr "t")] _ _)).
  - refine (bool_decide_unpack _ _). by vm_compute.
  - intros p Hp. apply list_elem_of_singleton in Hp as ->.
    refine (bool_decide_unpack _ _). by vm_compute.
Defined.

Lemma unset_missing_witness :
  ∃ missing : gset string,
    Plots._unset ["x"; "z"] [("x", YStr "a")]
    = (Plots.Err (Plots.PropsNotFoundError missing), [("x", YStr "a")])
    ∧ ∀ q, q ∈ missing ↔
           q ∈ ["x"; "z"] ∧ q ∉ OrderedDict.keys [("x", YStr "a")].
Proof.
  refine (unset_missing ["x"; "z"] [("x", YStr "a")] "z" _ _);
    refine (bool_decide_unpack _ _); by vm_compute.
Defined.

Lemma unset_repeated_witness :
  ∃ k plot',
    Plots._unset ["x"; "x"] [("x", YStr "a"); ("y", YStr "b")]
    = (Plots.Err (Plots.KeyError k), plot')
    ∧ k ∈ ["x"; "x"]
    ∧ k ∈ OrderedDict.keys [("x", YStr "a"); ("y", YStr "b")]
    ∧ k ∉ OrderedDict.keys plot'.
Proof.
  refine (unset_repeated ["x"; "x"] [("x", YStr "a"); ("y", YStr "b")] _ _).
  - intros p Hp. apply elem_of_cons in Hp as [->|Hp];
      [|apply list_elem_of_singleton in Hp as ->];
      refine (bool_decide_unpack _ _); by vm_compute.
  - refine (bool_decide_unpack _ _). by vm_compute.
Defined.

(** ** Plots: modifying display properties *)

Lemma od_fold_set_fresh_get {V} (k : string) (l d : list (string * V)) :
  k ∉ l.*1 →
  OrderedDict.get k (fold_left (λ d kv, OrderedDict.set kv.1 kv.2 d) l d)
  = OrderedDict.get k d.
Proof.
  revert d. induction l as [|[k' v'] l IH]; intros d Hk; [done|].
  rewrite fmap_cons, not_elem_of_cons in Hk. destruct Hk as [Hne Hk].
  cbn [fold_left fst snd]. rewrite IH, od_get_set by done.
  by destruct (String.eqb_spec k k').
Qed.

Lemma od_fold_set_get {V} (k : string) (l d : list (string * V)) :
  NoDup l.*1 →
  OrderedDict.get k (fold_left (λ d kv, OrderedDict.set kv.1 kv.2 d) l d)
  = match OrderedDict.get k l with
    | Some v => Some v
    | None => OrderedDict.get k d
    end.
Proof.
  revert d. induction l as [|[k' v'] l IH]; intros d Hnd; [done|].
  rewrite fmap_cons, NoDup_cons in Hnd. destruct Hnd as [Hk' Hnd].
  cbn [fold_left fst snd OrderedDict.get].
  destruct (String.eqb_spec k k') as [->|Hne].
  - rewrite od_fold_set_fresh_get, od_get_set by done.
    by rewrite String.eqb_refl.
  - rewrite IH, od_get_set by done.
    by destruct (String.eqb_spec k k').
Qed.

Section plots_modify_facts.
Variable get_template : yaml → Plots.res unit.
Variable verify_metric : Plots.Out → Plots.res unit.

#[local] Abbreviation modify := (Plots.modify get_template verify_metric).

(** What a successful [modify] went through. *)
Lemma modify_Ok repo path props unset out :
  modify repo path props unset = Plots.Ok out →
  ∃ out0 plot1,
    Plots.find_outs_by_path repo path = Plots.Ok [out0]
    ∧ Plots.path_info out = Plots.path_info out0
    ∧ (plot1 = filter (λ kv, kv.1 ∉ default [] unset)
                 (Plots.as_dict (Plots.plot out0)))
    ∧ Plots.plot out =
        (if bool_decide (Plots.update plot1 (default [] props) = [])
         then Plots.PlotBool true
         else Plots.PlotDict (Plots.update plot1 (default [] props)))
    ∧ verify_metric out = Plots.Ok ().
Proof.
  unfold Plots.modify.
  destruct (match OrderedDict.get "template" (default [] props) with
            | Some t => if truthy t then get_template t else Plots.Ok ()
            | None => Plots.Ok ()
            end) as [[]|e]; cbn [mbind Plots.res_bind]; [|done].
  destruct (Plots.find_outs_by_path repo path) as [found|e];
    cbn [mbind Plots.res_bind]; [|done].
  destruct found as [|out0 [|??]]; [done| |done].
  destruct (negb _ && _); [done|]. intros H.
  rename H into E.
  exists out0. unfold Plots.props_t, OrderedDict.t in *.
  destruct unset as [[|u us]|]; cbn [default].
  1, 3: exists (Plots.as_dict (Plots.plot out0));
    cbn [mbind Plots.res_bind] in E;
    destruct (verify_metric _) as [[]|e] eqn:Ev in E;
    cbn [mbind Plots.res_bind] in E; [|done];
    injection E as <-; split_and!; try done;
    symmetry; apply filter_all; by intros ? _ ?%elem_of_nil.
  destruct (Plots._unset (u :: us) _) as [[[]|e] d] eqn:Eu in E;
    cbn [mbind Plots.res_bind] in E; [|done].
  exists d. destruct (verify_metric _) as [[]|e] eqn:Ev in E;
    cbn [mbind Plots.res_bind] in E; [|done].
  injection E as <-. split_and!; try done.
  unfold Plots._unset in Eu.
  destruct (bool_decide _) in Eu; [done|].
  by apply pop_all_Ok in Eu as (_ & _ & ->).
Qed.

(** X16: an output that [modify] hands on is always a plot: its plot
    attribute is [True] or a non-empty dictionary, so that the stage
    serialiser lists it under [plots]. *)
Theorem modify_makes_plot repo path props unset out :
  modify repo path props unset = Plots.Ok out →
  Plots.plot_truthy (Plots.plot out) = true
  ∧ ∃ f, Plots.as_flag (Plots.plot out) = Some f
         ∧ flag_truthy f = true
         ∧ ∀ o : Output,
             plot o = f → _serialize_outs [o] = ([], [], [_serialize_out o]).
Proof.
  intros (out0 & plot1 & _ & _ & _ & Hp & _)%modify_Ok.
  rewrite Hp. case_bool_decide as E.
  - split; [done|]. exists (FlagBool true). split_and!; [done..|].
    intros o Ho. unfold _serialize_outs. simpl. by rewrite Ho.
  - split; [simpl; by rewrite bool_decide_false|].
    eexists. split_and!; [done| |].
    + simpl. by rewrite bool_decide_false.
    + intros o Ho. unfold _serialize_outs. simpl. rewrite Ho. simpl.
      by rewrite bool_decide_false.
Qed.

(** X17: after a successful [modify] a property holds the value given for
    it if one was given, is absent if it was unset and not given again, and
    keeps its former value otherwise; the properties of an output that was
    no dictionary plot start out empty. *)
Theorem modify_lookup repo path props unset out0 out :
  NoDup (OrderedDict.keys (default [] props)) →
  Plots.find_outs_by_path repo path = Plots.Ok [out0] →
  modify repo path props unset = Plots.Ok out →
  Plots.path_info out = Plots.path_info out0
  ∧ ∀ k, OrderedDict.get k (Plots.as_dict (Plots.plot out)) =
         match OrderedDict.get k (default [] props) with
         | Some v => Some v
         | None =>
             if decide (k ∈ default [] unset) then None
             else OrderedDict.get k (Plots.as_dict (Plots.plot out0))
         end.
Proof.
  intros Hnd Hfind (out0' & plot1 & Hfind' & Hpath & Hplot1 & Hp & _)%modify_Ok.
  rewrite Hfind in Hfind'. injection Hfind' as <-.
  split; [done|]. intros k.
  assert (Plots.as_dict (Plots.plot out)
          = Plots.update plot1 (default [] props)) as ->.
  { rewrite Hp. case_bool_decide as E; [by rewrite E|done]. }
  unfold Plots.update. rewrite od_fold_set_get by done.
  destruct (OrderedDict.get k (default [] props)); [done|].
  rewrite Hplot1. unfold Plots.props_t, OrderedDict.t in *.
  destruct (od_get_filter (λ kv : string * yaml, kv.1 ∉ default [] unset)
              (λ k, k ∉ default [] unset) k
              (Plots.as_dict (Plots.plot out0))) as [H1 H2]; [done|].
  destruct (decide (k ∈ default [] unset)); [apply H2; tauto|by apply H1].
Qed.

(** X18: asking [modify] to unset properties of an output that is not a
    plot raises [NotAPlotError], even when the list of properties to unset
    is empty. *)
Theorem modify_not_a_plot repo path props unset out0 :
  (∀ t, OrderedDict.get "template" (default [] props) = Some t →
        truthy t = true → get_template t = Plots.Ok ()) →
  Plots.find_outs_by_path repo path = Plots.Ok [out0] →
  Plots.plot_truthy (Plots.plot out0) = false →
  modify repo path props (Some unset)
  = Plots.Err (Plots.NotAPlotError (Plots.path_info out0)).
Proof.
  intros Ht Hfind Hp. unfold Plots.modify.
  assert (match OrderedDict.get "template" (default [] props) with
          | Some t => if truthy t then get_template t else Plots.Ok ()
          | None => Plots.Ok ()
          end = Plots.Ok ()) as ->.
  { destruct (OrderedDict.get _ _) as [t|]; [|done].
    destruct (truthy t) eqn:Et; [|done]. by apply Ht. }
  cbn [mbind Plots.res_bind]. rewrite Hfind. cbn [mbind Plots.res_bind].
  rewrite Hp. done.
Qed.
End plots_modify_facts.

(** ** Plots: collecting the plots of a revision *)

Lemma od_set_keys {V} (k k' : string) (v : V) (d : list (string * V)) :
  k ∈ OrderedDict.keys (OrderedDict.set k' v d) ↔
  k = k' ∨ k ∈ OrderedDict.keys d.
Proof.
  rewrite <- !od_get_is_Some, od_get_set.
  destruct (String.eqb_spec k k') as [->|Hne].
  - split; [by left|by eexists].
  - split; [by right|by intros [?|?]].
Qed.

Section plots_collect_facts.
Variable project : Plots.props_t → Plots.props_t.

#[local] Abbreviation _plot_props := (Plots._plot_props project).
#[local] Abbreviation comprehension := (Plots.comprehension project).
#[local] Abbreviation _collect_plots := (Plots._collect_plots project).

Lemma plot_props_Ok (out : Plots.Out) :
  Plots.plot_truthy (Plots.plot out) = true →
  (∀ l, Plots.plot out ≠ Plots.PlotList l) →
  ∃ props, _plot_props out = Plots.Ok props.
Proof.
  intros Ht Hl. unfold Plots._plot_props. rewrite Ht. simpl.
  destruct (Plots.plot out) as [b|d|l]; [by eexists..|].
  by destruct (Hl l).
Qed.

Lemma plot_props_list (out : Plots.Out) (l : list yaml) :
  Plots.plot_truthy (Plots.plot out) = true →
  Plots.plot out = Plots.PlotList l →
  _plot_props out
  = Plots.Err
      (Plots.DvcException "Multiple plots per data file not supported.").
Proof.
  intros Ht Hl. unfold Plots._plot_props. rewrite Ht. simpl. by rewrite Hl.
Qed.

Lemma plot_props_cases (out : Plots.Out) :
  Plots.plot_truthy (Plots.plot out) = true →
  (∃ props, _plot_props out = Plots.Ok props
            ∧ ∀ l, Plots.plot out ≠ Plots.PlotList l)
  ∨ (∃ l, Plots.plot out = Plots.PlotList l)
    ∧ _plot_props out
      = Plots.Err
          (Plots.DvcException "Multiple plots per data file not supported.").
Proof.
  intros Ht. destruct (Plots.plot out) as [b|d|ys] eqn:Ep.
  - left. destruct (plot_props_Ok out) as [props ->]; rewrite ?Ep; try done.
    by exists props.
  - left. destruct (plot_props_Ok out) as [props ->]; rewrite ?Ep; try done.
    by exists props.
  - right. split; [by eexists|]. apply (plot_props_list out ys); by rewrite Ep.
Qed.

Lemma comprehension_yield (l : list Plots.Out)
    (acc : OrderedDict.t Plots.props_t) (log : list Plots.event) :
  Forall (λ out, Plots.plot_truthy (Plots.plot out) = true) l →
  (Exists (λ out, ∃ l, Plots.plot out = Plots.PlotList l) l
   ∧ comprehension (Plots.Yield <$> l) acc log
     = (Plots.Err
          (Plots.DvcException "Multiple plots per data file not supported."),
        log))
  ∨ (Forall (λ out, ∀ l, Plots.plot out ≠ Plots.PlotList l) l
     ∧ ∃ plots, comprehension (Plots.Yield <$> l) acc log
                = (Plots.Ok plots, log)
                ∧ ∀ p, p ∈ OrderedDict.keys plots ↔
                       p ∈ OrderedDict.keys acc
                       ∨ p ∈ Plots.path_info <$> l).
Proof.
  intros Hl. revert acc. induction Hl as [|out l Ht Hl IH]; intros acc.
  - right. split; [constructor|]. exists acc. split; [done|].
    intros p. rewrite fmap_nil, elem_of_nil. tauto.
  - rewrite fmap_cons. cbn [Plots.comprehension].
    destruct (plot_props_cases out Ht) as [(props & -> & Hnl)|[Hex ->]].
    + destruct (IH (OrderedDict.set (Plots.path_info out) props acc))
        as [[Hex ->]|(Hall & plots & -> & Hkeys)].
      * left. split; [by apply Exists_cons_tl|done].
      * right. split; [by constructor|]. exists plots. split; [done|].
        intros p. rewrite Hkeys, od_set_keys, fmap_cons, elem_of_cons. tauto.
    + left. split; [|done]. by apply Exists_cons_hd.
Qed.

(** X19: without targets [_collect_plots] takes every output whose plot
    attribute is set and skips the others silently: it logs nothing, never
    raises [NotAPlotError], and fails only on an output that holds a list
    of plots; the result has an entry for the path of each plot. *)
Theorem collect_plots_all (repo : Plots.Repo) (rev : string) :
  (_collect_plots repo [] rev).2 = []
  ∧ (∀ o, (_collect_plots repo [] rev).1 ≠ Plots.Err (Plots.NotAPlotError o))
  ∧ ((∃ plots, (_collect_plots repo [] rev).1 = Plots.Ok plots) ↔
     ∀ out l, out ∈ List.concat (Plots.stages repo) →
              Plots.plot out = Plots.PlotList l → l = [])
  ∧ (∀ plots p,
       (_collect_plots repo [] rev).1 = Plots.Ok plots →
       (p ∈ OrderedDict.keys plots ↔
        ∃ out, out ∈ List.concat (Plots.stages repo)
               ∧ Plots.plot_truthy (Plots.plot out) = true
               ∧ Plots.path_info out = p)).
Proof.
  unfold Plots._collect_plots.
  set (outs := filter (λ out, Plots.plot_truthy (Plots.plot out) = true)
                 (List.concat (Plots.stages repo))).
  assert (Forall (λ out, Plots.plot_truthy (Plots.plot out) = true) outs)
    as Hall.
  { apply Forall_forall. by intros out [? _]%list_elem_of_filter. }
  destruct (comprehension_yield outs [] [] Hall)
    as [[Hex ->]|(Hnl & plots & -> & Hkeys)]; cbn [fst snd].
  - split_and!; [done..| |done].
    split; [by intros [??]|]. intros H. exfalso.
    apply Exists_exists in Hex as (out & Hin & l & Hl).
    apply list_elem_of_filter in Hin as [Ht Hin].
    rewrite (H out l Hin Hl) in Hl. rewrite Hl in Ht. done.
  - split_and!; [done..| |].
    + split; [|by eexists]. intros _ out l Hin Hl.
      destruct l as [|y l]; [done|]. exfalso.
      rewrite Forall_forall in Hnl. apply (Hnl out) in Hl; [done|].
      apply list_elem_of_filter. split; [|done]. by rewrite Hl.
    + intros plots' p [= <-]. rewrite Hkeys. split.
      * intros [[]%elem_of_nil|(out & -> & Hin)%list_elem_of_fmap].
        apply list_elem_of_filter in Hin as [??]. by exists out.
      * intros (out & Hin & Ht & <-). right.
        apply list_elem_of_fmap_2. by apply list_elem_of_filter.
Qed.

Lemma targets_to_outs_cons (repo : Plots.Repo) (rev t : string)
    (targets : list string) :
  Plots._targets_to_outs repo rev (t :: targets)
  = match Plots.find_outs_by_path repo t with
    | Plots.Ok [out] => Plots.Yield out
    | Plots.Ok _ => Plots.Raise Plots.ValueError
    | Plots.Err Plots.OutputNotFoundError => Plots.Warning t rev
    | Plots.Err e => Plots.Raise e
    end :: Plots._targets_to_outs repo rev targets.
Proof. done. Qed.

Lemma comprehension_targets (repo : Plots.Repo) (rev : string)
    (targets : list string) (acc : OrderedDict.t Plots.props_t)
    (log : list Plots.event) :
  (∀ t, t ∈ targets →
        Plots.find_outs_by_path repo t = Plots.Err Plots.OutputNotFoundError
        ∨ ∃ out, Plots.find_outs_by_path repo t = Plots.Ok [out]
                 ∧ Plots.plot_truthy (Plots.plot out) = true
                 ∧ ∀ l, Plots.plot out ≠ Plots.PlotList l) →
  ∃ plots,
    comprehension (Plots._targets_to_outs repo rev targets) acc log
    = (Plots.Ok plots,
       log ++ omap (λ t, match Plots.find_outs_by_path repo t with
                         | Plots.Err Plots.OutputNotFoundError =>
                             Some (Plots.NotFound t rev)
                         | _ => None
                         end) targets)
    ∧ ∀ p, p ∈ OrderedDict.keys plots ↔
           p ∈ OrderedDict.keys acc
           ∨ ∃ t out, t ∈ targets
                      ∧ Plots.find_outs_by_path repo t = Plots.Ok [out]
                      ∧ Plots.path_info out = p.
Proof.
  revert acc log. induction targets as [|t targets IH]; intros acc log Hts.
  - exists acc. split; [by rewrite app_nil_r|]. intros p.
    split; [by left|]. intros [?|(t & ? & []%elem_of_nil & _)]. done.
  - rewrite targets_to_outs_cons. cbn [omap list_omap].
    destruct (Hts t) as [E|(out & E & Ht & Hl)]; [apply list_elem_of_here| |];
      rewrite E; cbn [Plots.comprehension].
    + destruct (IH acc (log ++ [Plots.NotFound t rev]))
        as (plots & -> & Hkeys).
      { intros t' Ht'. by apply Hts, list_elem_of_further. }
      exists plots. split; [by rewrite <- app_assoc|].
      intros p. rewrite Hkeys. split; (intros [?|(t' & out & Hin & E' & Hp)];
        [by left|right; exists t', out]).
      * split_and!; [by apply list_elem_of_further|done..].
      * apply elem_of_cons in Hin as [->|Hin]; [congruence|done].
    + destruct (plot_props_Ok out Ht Hl) as [props ->].
      destruct (IH (OrderedDict.set (Plots.path_info out) props acc) log)
        as (plots & -> & Hkeys).
      { intros t' Ht'. by apply Hts, list_elem_of_further. }
      exists plots. split; [done|].
      intros p. rewrite Hkeys, od_set_keys. split.
      * intros [[->|?]|(t' & out' & Hin & E' & Hp)].
        -- right. exists t, out. split_and!; [apply list_elem_of_here|done..].
        -- by left.
        -- right. exists t', out'.
           split_and!; [by apply list_elem_of_further|done..].
      * intros [?|(t' & out' & Hin & E' & Hp)]; [by left; right|].
        apply elem_of_cons in Hin as [->|Hin].
        -- left. left. congruence.
        -- right. by exists t', out'.
Qed.

(** X20: with targets, a target that is not found is skipped with a
    warning; when every other target names a single plot output the call
    succeeds, with one warning per missing target in the order given and
    an entry for each target found, and for these only. *)
Theorem collect_plots_targets (repo : Plots.Repo) (rev : string)
    (targets : list string) :
  targets ≠ [] →
  (∀ t, t ∈ targets →
        Plots.find_outs_by_path repo t = Plots.Err Plots.OutputNotFoundError
        ∨ ∃ out, Plots.find_outs_by_path repo t = Plots.Ok [out]
                 ∧ Plots.plot_truthy (Plots.plot out) = true
                 ∧ ∀ l, Plots.plot out ≠ Plots.PlotList l) →
  ∃ plots,
    _collect_plots repo targets rev
    = (Plots.Ok plots,
       omap (λ t, match Plots.find_outs_by_path repo t with
                  | Plots.Err Plots.OutputNotFoundError =>
                      Some (Plots.NotFound t rev)
                  | _ => None
                  end) targets)
    ∧ ∀ p, p ∈ OrderedDict.keys plots ↔
           ∃ t out, t ∈ targets
                    ∧ Plots.find_outs_by_path repo t = Plots.Ok [out]
                    ∧ Plots.path_info out = p.
Proof.
  intros Hne Hts. unfold Plots._collect_plots.
  destruct targets as [|t targets]; [done|].
  destruct (comprehension_targets repo rev (t :: targets) [] [] Hts)
    as (plots & E & Hkeys).
  exists plots. split; [done|]. intros p. rewrite Hkeys.
  split; [|by right]. by intros [[]%elem_of_nil|?].
Qed.

(** X21: with targets, the first target that names an output which is not
    a plot makes [_collect_plots] raise [NotAPlotError], whereas the same
    output is skipped silently when no target is given. *)
Theorem collect_plots_target_not_plot (repo : Plots.Repo) (rev : string)
    (pre post : list string) (t : string) (out : Plots.Out) :
  (∀ t, t ∈ pre →
        Plots.find_outs_by_path repo t = Plots.Err Plots.OutputNotFoundError
        ∨ ∃ out, Plots.find_outs_by_path repo t = Plots.Ok [out]
                 ∧ Plots.plot_truthy (Plots.plot out) = true
                 ∧ ∀ l, Plots.plot out ≠ Plots.PlotList l) →
  Plots.find_outs_by_path repo t = Plots.Ok [out] →
  Plots.plot_truthy (Plots.plot out) = false →
  (_collect_plots repo (pre ++ t :: post) rev).1
  = Plots.Err (Plots.NotAPlotError (Plots.path_info out)).
Proof.
  intros Hpre Hfind Hp. unfold Plots._collect_plots.
  assert (∀ acc log,
            (comprehension
               (Plots._targets_to_outs repo rev (pre ++ t :: post))
               acc log).1
            = Plots.Err (Plots.NotAPlotError (Plots.path_info out))) as H.
  { induction pre as [|t' pre IH]; intros acc log.
    - rewrite app_nil_l, targets_to_outs_cons, Hfind.
      cbn [Plots.comprehension]. unfold Plots._plot_props. by rewrite Hp.
    - rewrite <- app_comm_cons, targets_to_outs_cons.
      destruct (Hpre t') as [E|(out' & E & Ht & Hl)];
        [apply list_elem_of_here| |]; rewrite E; cbn [Plots.comprehension].
      + apply IH. intros ??. by apply Hpre, list_elem_of_further.
      + destruct (plot_props_Ok out' Ht Hl) as [props ->].
        apply IH. intros ??. by apply Hpre, list_elem_of_further. }
  destruct (pre ++ t :: post) eqn:E; [by destruct pre|]. apply H.
Qed.
End plots_collect_facts.

(** ** Plots: grouping the data by plot file *)

Lemma for_each_app {S A} (body : S → A → Plots.res unit * S)
    (l1 l2 : list A) (st : S) :
  Plots.for_each body (l1 ++ l2) st
  = match Plots.for_each body l1 st with
    | (Plots.Ok _, st) => Plots.for_each body l2 st
    | (Plots.Err e, st) => (Plots.Err e, st)
    end.
Proof.
  revert st. induction l1 as [|x l1 IH]; intros st; [done|].
  cbn [app Plots.for_each]. destruct (body st x) as [[[]|e] st']; [|done].
  apply IH.
Qed.

(** An invariant of the loop body holds when the loop ends, however it
    ends. *)
Lemma for_each_inv {S A} (body : S → A → Plots.res unit * S)
    (I : S → Prop) (l : list A) (st : S) :
  I st →
  (∀ st x, x ∈ l → I st → I (body st x).2) →
  I (Plots.for_each body l st).2.
Proof.
  revert st. induction l as [|x l IH]; intros st Hst Hbody; [done|].
  cbn [Plots.for_each].
  pose proof (Hbody st x (list_elem_of_here _ _) Hst) as Hx.
  destruct (body st x) as [[[]|e] st']; [|done].
  apply IH; [done|]. intros st'' y Hy. by apply Hbody, list_elem_of_further.
Qed.

(** A loop whose body fails exactly on the items that are not [good], and
    then with [e], fails exactly when some item is not [good]. *)
Lemma for_each_outcome {S A} (body : S → A → Plots.res unit * S)
    (I : S → Prop) (good : A → Prop) (e : Plots.error)
    (l : list A) (st : S) :
  I st →
  (∀ st x, x ∈ l → I st →
     I (body st x).2
     ∧ ((body st x).1 = Plots.Ok () ∧ good x
        ∨ (body st x).1 = Plots.Err e ∧ ¬ good x)) →
  I (Plots.for_each body l st).2
  ∧ ((Plots.for_each body l st).1 = Plots.Ok () ∧ Forall good l
     ∨ (Plots.for_each body l st).1 = Plots.Err e ∧ ¬ Forall good l).
Proof.
  revert st. induction l as [|x l IH]; intros st Hst Hbody.
  - split; [done|]. left. by split.
  - cbn [Plots.for_each].
    destruct (Hbody st x (list_elem_of_here _ _) Hst) as [HI Hx].
    destruct (body st x) as [r st'] eqn:E. cbn [fst snd] in *.
    destruct Hx as [[-> Hg]|[-> Hb]].
    + destruct (IH st' HI) as [HI' Hl].
      { intros st'' y Hy. by apply Hbody, list_elem_of_further. }
      split; [done|].
      destruct Hl as [[E' Hl]|[E' Hl]]; [left|right]; (split; [done|]).
      * by constructor.
      * by intros [_ ?]%Forall_cons.
    + split; [done|]. right. split; [done|]. by intros [? _]%Forall_cons.
Qed.

Section plots_prepare_facts.
Variable props : Plots.props_t.

(** What one step of the inner loop does to the table of plots. *)
Lemma prepare_plot_plots (rev datafile : string) (d : Plots.desc)
    (st : Plots.prepared) :
  let r := Plots.prepare_plot props rev st (datafile, d) in
  ((∃ e, r.1 = Plots.Err e) ∧ Plots.plots r.2 = Plots.plots st)
  ∨ (r.1 = Plots.Ok ()
     ∧ ∃ saved blob,
         OrderedDict.get datafile (Plots.plots st) = Some saved
         ∧ Plots.desc_data d = Some blob
         ∧ Plots.plots r.2 =
             OrderedDict.set datafile
               (Plots.mkPlotDesc (Plots.plot_props saved)
                  (OrderedDict.set rev blob (Plots.plot_data saved)))
               (Plots.plots st))
  ∨ (r.1 = Plots.Ok ()
     ∧ ∃ blob,
         OrderedDict.get datafile (Plots.plots st) = None
         ∧ Plots.desc_data d = Some blob
         ∧ Plots.plots r.2 =
             OrderedDict.set datafile
               (Plots.mkPlotDesc (Plots.merge (Plots.desc_props d) props)
                  [(rev, blob)])
               (Plots.plots st)).
Proof.
  unfold Plots.prepare_plot.
  destruct (OrderedDict.get datafile (Plots.plots st)) as [saved|] eqn:Eg.
  - destruct (negb _).
    + destruct (OrderedDict.get datafile (Plots.props_revs st)) as [rev0|];
        [|left; split; [by eexists|done]].
      destruct (Plots.desc_data d) as [blob|] eqn:Ed;
        [|left; split; [by eexists|done]].
      right. left. split; [done|]. by exists saved, blob.
    + destruct (Plots.desc_data d) as [blob|] eqn:Ed;
        [|left; split; [by eexists|done]].
      right. left. split; [done|]. by exists saved, blob.
  - destruct (Plots.desc_data d) as [blob|] eqn:Ed;
      [|left; split; [by eexists|done]].
    right. right. split; [done|]. by exists blob.
Qed.

(** The properties recorded for a data file never change once set. *)
Lemma prepare_plot_keeps (rev : string) (entry : string * Plots.desc)
    (st : Plots.prepared) (datafile : string) (ps : Plots.props_t) :
  (∃ pd, OrderedDict.get datafile (Plots.plots st) = Some pd
         ∧ Plots.plot_props pd = ps) →
  ∃ pd, OrderedDict.get datafile
          (Plots.plots (Plots.prepare_plot props rev st entry).2) = Some pd
        ∧ Plots.plot_props pd = ps.
Proof.
  intros (pd & Hg & Hp). destruct entry as [f d].
  destruct (prepare_plot_plots rev f d st)
    as [[_ ->]|[(_ & saved & blob & Hs & _ & ->)|(_ & blob & Hn & _ & ->)]].
  - by exists pd.
  - rewrite od_get_set. destruct (String.eqb_spec datafile f) as [->|Hne].
    + eexists. split; [done|]. simpl. congruence.
    + by exists pd.
  - rewrite od_get_set. destruct (String.eqb_spec datafile f) as [->|Hne].
    + congruence.
    + by exists pd.
Qed.

Lemma prepare_files_keeps (rev : string) (files : OrderedDict.t Plots.desc)
    (st : Plots.prepared) (datafile : string) (ps : Plots.props_t) :
  (∃ pd, OrderedDict.get datafile (Plots.plots st) = Some pd
         ∧ Plots.plot_props pd = ps) →
  ∃ pd, OrderedDict.get datafile
          (Plots.plots
             (Plots.for_each (Plots.prepare_plot props rev) files st).2)
        = Some pd
        ∧ Plots.plot_props pd = ps.
Proof.
  intros H.
  apply (for_each_inv (Plots.prepare_plot props rev)
           (λ st, ∃ pd, OrderedDict.get datafile (Plots.plots st) = Some pd
                        ∧ Plots.plot_props pd = ps)); [done|].
  intros st' x _. apply prepare_plot_keeps.
Qed.

#[local] Abbreviation visit data :=
  (λ (st : Plots.prepared) (rev : string),
     match OrderedDict.get rev data with
     | None => (Plots.Ok (), st)
     | Some files => Plots.for_each (Plots.prepare_plot props rev) files st
     end).

Lemma prepare_revs_keeps (data : Plots.data_t) (revs : list string)
    (st : Plots.prepared) (datafile : string) (ps : Plots.props_t) :
  (∃ pd, OrderedDict.get datafile (Plots.plots st) = Some pd
         ∧ Plots.plot_props pd = ps) →
  ∃ pd, OrderedDict.get datafile
          (Plots.plots (Plots.for_each (visit data) revs st).2) = Some pd
        ∧ Plots.plot_props pd = ps.
Proof.
  intros H.
  apply (for_each_inv (visit data)
           (λ st, ∃ pd, OrderedDict.get datafile (Plots.plots st) = Some pd
                        ∧ Plots.plot_props pd = ps)); [done|].
  intros st' rev _ H'. destruct (OrderedDict.get rev data) as [files|];
    [|done]. by apply prepare_files_keeps.
Qed.

Lemma merge_get (a : Plots.props_t) (k : string) (v : yaml) :
  NoDup (OrderedDict.keys props) → OrderedDict.get k props = Some v →
  OrderedDict.get k (Plots.merge a props) = Some v.
Proof.
  intros Hnd Hk. unfold Plots.merge, OrderedDict.of_pairs.
  rewrite fold_left_app, od_fold_set_get by done. by rewrite Hk.
Qed.

(** X22: in what [_prepare_plots] returns, every property given on the
    command line holds the value given there, whatever the output
    definition says. *)
Theorem prepare_plots_props_override (data : Plots.data_t)
    (revs : option (list string)) (plots : OrderedDict.t Plots.plot_desc)
    (log : list Plots.event) :
  NoDup (OrderedDict.keys props) →
  Plots._prepare_plots data revs props = (Plots.Ok plots, log) →
  ∀ datafile pd k v,
    OrderedDict.get datafile plots = Some pd →
    OrderedDict.get k props = Some v →
    OrderedDict.get k (Plots.plot_props pd) = Some v.
Proof.
  intros Hnd. unfold Plots._prepare_plots.
  set (revs' := match revs with
                | Some revs => revs
                | None => OrderedDict.keys data
                end).
  pose (I := λ st : Plots.prepared,
          ∀ datafile pd k v,
            OrderedDict.get datafile (Plots.plots st) = Some pd →
            OrderedDict.get k props = Some v →
            OrderedDict.get k (Plots.plot_props pd) = Some v).
  assert (I (Plots.for_each (visit data) revs'
               (Plots.mkPrepared [] [] [])).2) as HI.
  { apply for_each_inv; [by intros ????|].
    intros st rev _ Hst. destruct (OrderedDict.get rev data) as [files|];
      [|done].
    apply for_each_inv; [done|]. clear st Hst.
    intros st [f d] _ Hst datafile pd k v.
    destruct (prepare_plot_plots rev f d st)
      as [[_ ->]|[(_ & saved & blob & Hs & _ & ->)|(_ & blob & Hn & _ & ->)]].
    - apply Hst.
    - rewrite od_get_set. destruct (String.eqb_spec datafile f) as [->|Hne].
      + intros [= <-]. simpl. by apply (Hst f saved).
      + apply Hst.
    - rewrite od_get_set. destruct (String.eqb_spec datafile f) as [->|Hne].
      + intros [= <-]. simpl. by apply merge_get.
      + apply Hst. }
  destruct (Plots.for_each _ _ _) as [[[]|e] st]; [|done].
  intros [= <- _]. apply HI.
Qed.

Lemma prepare_files_untouched (rev : string)
    (files : OrderedDict.t Plots.desc) (st : Plots.prepared)
    (datafile : string) :
  OrderedDict.get datafile files = None →
  OrderedDict.get datafile (Plots.plots st) = None →
  OrderedDict.get datafile
    (Plots.plots (Plots.for_each (Plots.prepare_plot props rev) files st).2)
  = None.
Proof.
  intros Hf%od_get_None Hst.
  apply (for_each_inv (Plots.prepare_plot props rev)
           (λ st, OrderedDict.get datafile (Plots.plots st) = None));
    [done|].
  intros st' [f d] Hin Hst'.
  assert (datafile ≠ f) as Hne.
  { intros ->. apply Hf. by apply (list_elem_of_fmap_2 fst) in Hin. }
  destruct (prepare_plot_plots rev f d st')
    as [[_ ->]|[(_ & saved & blob & Hs & _ & ->)|(_ & blob & Hn & _ & ->)]];
    [done| |]; rewrite od_get_set; by destruct (String.eqb_spec datafile f).
Qed.

Lemma prepare_files_sets (rev : string) (files : OrderedDict.t Plots.desc)
    (st st' : Plots.prepared) (datafile : string) (entry : Plots.desc) :
  OrderedDict.get datafile files = Some entry →
  OrderedDict.get datafile (Plots.plots st) = None →
  Plots.for_each (Plots.prepare_plot props rev) files st = (Plots.Ok (), st') →
  ∃ pd, OrderedDict.get datafile (Plots.plots st') = Some pd
        ∧ Plots.plot_props pd = Plots.merge (Plots.desc_props entry) props.
Proof.
  revert st. induction files as [|[f d] files IH]; intros st Hf Hst; [done|].
  cbn [Plots.for_each OrderedDict.get] in *.
  pose proof (prepare_plot_plots rev f d st) as Hstep. cbv zeta in Hstep.
  destruct (Plots.prepare_plot props rev st (f, d)) as [r st1] eqn:E.
  cbn [fst snd] in Hstep.
  destruct Hstep
    as [[[e ->] _]|[(-> & saved & blob & Hs & _ & Hp)
                   |(-> & blob & Hn & _ & Hp)]]; [done| |]; intros Hrest.
  - destruct (String.eqb_spec datafile f) as [->|Hne]; [congruence|].
    apply (IH st1); [done| |done].
    rewrite Hp, od_get_set. by destruct (String.eqb_spec datafile f).
  - destruct (String.eqb_spec datafile f) as [->|Hne].
    + injection Hf as ->.
      pose proof (prepare_files_keeps rev files st1 f
                    (Plots.merge (Plots.desc_props entry) props)) as Hk.
      rewrite Hrest in Hk. apply Hk.
      rewrite Hp, od_get_set, String.eqb_refl. by eexists.
    + apply (IH st1); [done| |done].
      rewrite Hp, od_get_set. by destruct (String.eqb_spec datafile f).
Qed.

(** X23: when revisions disagree on the properties of a data file, the
    first of the revisions asked for that has the file decides:
    [_prepare_plots] returns the properties of that revision, overridden
    by those of the command line. *)
Theorem prepare_plots_first_rev_wins (data : Plots.data_t)
    (pre post : list string) (rev datafile : string)
    (files : OrderedDict.t Plots.desc) (entry : Plots.desc)
    (plots : OrderedDict.t Plots.plot_desc) (log : list Plots.event) :
  (∀ rev' files', rev' ∈ pre → OrderedDict.get rev' data = Some files' →
                  OrderedDict.get datafile files' = None) →
  OrderedDict.get rev data = Some files →
  OrderedDict.get datafile files = Some entry →
  Plots._prepare_plots data (Some (pre ++ rev :: post)) props
  = (Plots.Ok plots, log) →
  ∃ pd, OrderedDict.get datafile plots = Some pd
        ∧ Plots.plot_props pd = Plots.merge (Plots.desc_props entry) props.
Proof.
  intros Hpre Hrev Hentry. unfold Plots._prepare_plots.
  rewrite for_each_app.
  assert (OrderedDict.get datafile
            (Plots.plots (Plots.for_each (visit data) pre
                            (Plots.mkPrepared [] [] [])).2) = None) as H0.
  { apply (for_each_inv (visit data)
             (λ st, OrderedDict.get datafile (Plots.plots st) = None));
      [done|].
    intros st rev' Hin Hst.
    destruct (OrderedDict.get rev' data) as [files'|] eqn:E; [|done].
    apply prepare_files_untouched; [|done]. by apply (Hpre rev'). }
  destruct (Plots.for_each (visit data) pre _) as [[[]|e] st0]; [|done].
  cbn [snd] in H0. cbn [Plots.for_each]. rewrite Hrev.
  destruct (Plots.for_each (Plots.prepare_plot props rev) files st0)
    as [[[]|e] st1] eqn:E1; [|done].
  pose proof (prepare_files_sets rev files st0 st1 datafile entry
                Hentry H0 E1) as H1.
  pose proof (prepare_revs_keeps data post st1 datafile _ H1) as H2.
  destruct (Plots.for_each (visit data) post st1) as [[[]|e] st2]; [|done].
  by intros [= <- _].
Qed.

(** X24: revisions asked for that have no data are passed over:
    [_prepare_plots] returns the same for the revisions that have data
    alone. *)
Theorem prepare_plots_skips_missing_revs (data : Plots.data_t)
    (revs : list string) :
  Plots._prepare_plots data (Some revs) props
  = Plots._prepare_plots data
      (Some (filter (λ rev, is_Some (OrderedDict.get rev data)) revs)) props.
Proof.
  unfold Plots._prepare_plots.
  assert (∀ st,
            Plots.for_each (visit data) revs st
            = Plots.for_each (visit data)
                (filter (λ rev, is_Some (OrderedDict.get rev data)) revs) st)
    as ->; [|done].
  induction revs as [|rev revs IH]; intros st; [done|].
  rewrite filter_cons. destruct (decide _) as [[files E]|Hn].
  - cbn [Plots.for_each]. rewrite E.
    destruct (Plots.for_each (Plots.prepare_plot props rev) files st)
      as [[[]|e] st']; [apply IH|done].
  - cbn [Plots.for_each].
    destruct (OrderedDict.get rev data); [by destruct Hn|]. apply IH.
Qed.

Lemma prepare_plot_outcome (rev : string) (entry : string * Plots.desc)
    (st : Plots.prepared) :
  Plots.linked st →
  Plots.linked (Plots.prepare_plot props rev st entry).2
  ∧ ((Plots.prepare_plot props rev st entry).1 = Plots.Ok ()
     ∧ is_Some (Plots.desc_data entry.2)
     ∨ (Plots.prepare_plot props rev st entry).1
       = Plots.Err (Plots.KeyError "data")
       ∧ ¬ is_Some (Plots.desc_data entry.2)).
Proof.
  intros Hst. destruct entry as [f d]. unfold Plots.prepare_plot.
  cbn [snd].
  destruct (OrderedDict.get f (Plots.plots st)) as [saved|] eqn:Eg.
  - destruct (Hst f) as [rev0 E0]; [by eexists|]. rewrite E0.
    destruct (negb _); destruct (Plots.desc_data d) as [blob|];
      cbn [fst snd];
      (split; [|first [left; split; [done|by eexists]
                      |right; split; [done|by intros [??]]]]);
      intros k; cbn [Plots.plots Plots.props_revs];
      rewrite ?od_get_set; try apply Hst;
      destruct (String.eqb_spec k f) as [->|?]; try apply Hst;
      intros _; by eexists.
  - destruct (Plots.desc_data d) as [blob|]; cbn [fst snd].
    + split; [|left; split; [done|by eexists]].
      intros k. cbn [Plots.plots Plots.props_revs]. rewrite !od_get_set.
      destruct (String.eqb_spec k f); [done|apply Hst].
    + split; [done|]. right. split; [done|by intros [??]].
Qed.

Lemma prepare_plots_outcome (data : Plots.data_t)
    (revs : option (list string)) :
  let visited := default (OrderedDict.keys data) revs in
  let complete :=
    ∀ rev files entry,
      rev ∈ visited → OrderedDict.get rev data = Some files →
      entry ∈ files → is_Some (Plots.desc_data entry.2) in
  (complete →
   ∃ plots, (Plots._prepare_plots data revs props).1 = Plots.Ok plots)
  ∧ (¬ complete →
     (Plots._prepare_plots data revs props).1
     = Plots.Err (Plots.KeyError "data")).
Proof.
  intros visited complete. unfold Plots._prepare_plots.
  assert (match revs with
          | Some revs => revs
          | None => OrderedDict.keys data
          end = visited) as -> by by destruct revs.
  pose (good := λ rev : string,
          ∀ files, OrderedDict.get rev data = Some files →
                   Forall (λ entry : string * Plots.desc,
                             is_Some (Plots.desc_data entry.2)) files).
  assert (complete ↔ Forall good visited) as Hc.
  { unfold complete, good. rewrite Forall_forall.
    split.
    - intros H rev Hin files Hf. apply Forall_forall. intros entry He.
      by apply (H rev files).
    - intros H rev files entry Hin Hf He.
      specialize (H rev Hin files Hf). rewrite Forall_forall in H.
      by apply H. }
  destruct (for_each_outcome (visit data) Plots.linked good
              (Plots.KeyError "data") visited (Plots.mkPrepared [] [] []))
    as [_ H].
  { intros k [? ?]. done. }
  { intros st rev _ Hst. unfold good.
    destruct (OrderedDict.get rev data) as [files|] eqn:E.
    - destruct (for_each_outcome (Plots.prepare_plot props rev) Plots.linked
                  (λ entry, is_Some (Plots.desc_data entry.2))
                  (Plots.KeyError "data") files st Hst) as [HI H].
      { intros st' entry _ Hst'. by apply prepare_plot_outcome. }
      split; [done|].
      destruct H as [[-> Hall]|[-> Hn]]; [left|right]; (split; [done|]).
      + by intros ? [= <-].
      + intros H. by apply Hn, H.
    - split; [done|]. left. split; [done|]. by intros ? [=]. }
  rewrite Hc.
  destruct (Plots.for_each (visit data) visited _) as [r st].
  cbn [fst snd] in *.
  destruct H as [[-> Hall]|[-> Hn]]; (split; [|done]).
  - intros _. by eexists.
  - done.
Qed.

(** X25: [_prepare_plots] fails exactly when a data file of a revision it
    visits comes without data, and then with [KeyError] for the key
    [data]. *)
Theorem prepare_plots_fails (data : Plots.data_t)
    (revs : option (list string)) :
  let visited := default (OrderedDict.keys data) revs in
  let complete :=
    ∀ rev files entry,
      rev ∈ visited → OrderedDict.get rev data = Some files →
      entry ∈ files → is_Some (Plots.desc_data entry.2) in
  (complete →
   ∃ plots, (Plots._prepare_plots data revs props).1 = Plots.Ok plots)
  ∧ (¬ complete →
     (Plots._prepare_plots data revs props).1
     = Plots.Err (Plots.KeyError "data")).
Proof. apply prepare_plots_outcome. Qed.
End plots_prepare_facts.

(** ** Plots: collecting over revisions and showing *)

Section plots_collect_revs_facts.
Variable project : Plots.props_t → Plots.props_t.
Variable brancher : option (list string) → list (string * Plots.Repo).
Variable relpath : string → string.

#[local] Abbreviation collect := (Plots.collect project brancher relpath).



End plots_collect_revs_facts.

Section plots_show_facts.
Variable project : Plots.props_t → Plots.props_t.
Variable brancher : option (list string) → list (string * Plots.Repo).
Variable relpath : string → string.
Variable _render :
  string → OrderedDict.t string → Plots.props_t → Plots.res string.

#[local] Abbreviation collect := (Plots.collect project brancher relpath).
#[local] Abbreviation show :=
  (Plots.show project brancher relpath _render).

Lemma show_checks_nil (targets : list string) :
  (Plots.for_each
     (λ (_ : unit) target,
        match Plots.any_data target [] with
        | Plots.Ok true => (Plots.Ok (), ())
        | Plots.Ok false =>
            (Plots.Err (Plots.NoMetricInHistoryError target), ())
        | Plots.Err e => (Plots.Err e, ())
        end) targets ()).1
  = match targets with
    | t :: _ => Plots.Err (Plots.NoMetricInHistoryError t)
    | [] => Plots.Ok ()
    end.
Proof. by destruct targets. Qed.

(** X27: when nothing was collected, [show] raises
    [NoMetricInHistoryError] for the first target if targets were given
    and [NoPlotsError] otherwise, and renders nothing. *)
Theorem show_no_data (targets : option (string + list string))
    (revs : option (list string)) (props : option Plots.props_t)
    (log : list Plots.event) :
  collect targets revs = (Plots.Ok [], log) →
  show targets revs props
  = (Plots.Err
       match Plots.as_list targets with
       | t :: _ => Plots.NoMetricInHistoryError t
       | [] => Plots.NoPlotsError
       end, log).
Proof.
  intros E. unfold Plots.show. rewrite E. cbn [fmap list_fmap].
  rewrite show_checks_nil. by destruct (Plots.as_list targets).
Qed.

Lemma show_checks_app (values : list (OrderedDict.t Plots.desc))
    (pre post : list string) :
  (∀ t, t ∈ pre → Plots.any_data t values = Plots.Ok true) →
  (Plots.for_each
     (λ (_ : unit) target,
        match Plots.any_data target values with
        | Plots.Ok true => (Plots.Ok (), ())
        | Plots.Ok false =>
            (Plots.Err (Plots.NoMetricInHistoryError target), ())
        | Plots.Err e => (Plots.Err e, ())
        end) (pre ++ post) ()).1
  = (Plots.for_each
       (λ (_ : unit) target,
          match Plots.any_data target values with
          | Plots.Ok true => (Plots.Ok (), ())
          | Plots.Ok false =>
              (Plots.Err (Plots.NoMetricInHistoryError target), ())
          | Plots.Err e => (Plots.Err e, ())
          end) post ()).1.
Proof.
  induction pre as [|t pre IH]; intros Hpre; [done|].
  cbn [app Plots.for_each]. rewrite (Hpre t) by apply list_elem_of_here.
  apply IH. intros ??. by apply Hpre, list_elem_of_further.
Qed.

Lemma any_data_missing (t : string)
    (before after : list (OrderedDict.t Plots.desc))
    (files : OrderedDict.t Plots.desc) :
  Forall (λ fs, ∃ entry, OrderedDict.get t fs = Some entry
                         ∧ Plots.desc_data entry = None) before →
  OrderedDict.get t files = None →
  Plots.any_data t (before ++ files :: after) = Plots.Err (Plots.KeyError t).
Proof.
  intros Hb Hf. induction Hb as [|fs before (entry & Hg & Hd) _ IH]; simpl.
  - by rewrite Hf.
  - by rewrite Hg, Hd.
Qed.

(** X28: when a target has no entry in one of the revisions collected, and
    the revisions before it hold no data for it, [show] raises [KeyError]
    for the target instead of [NoMetricInHistoryError], even if a later
    revision holds its data. *)
Theorem show_target_missing_in_rev
    (targets : option (string + list string))
    (revs : option (list string)) (props : option Plots.props_t)
    (data before after : Plots.data_t) (log : list Plots.event)
    (pre post : list string) (t rev : string)
    (files : OrderedDict.t Plots.desc) :
  collect targets revs = (Plots.Ok data, log) →
  Plots.as_list targets = pre ++ t :: post →
  (∀ t', t' ∈ pre → Plots.any_data t' data.*2 = Plots.Ok true) →
  data = before ++ (rev, files) :: after →
  Forall (λ fs, ∃ entry, OrderedDict.get t fs.2 = Some entry
                         ∧ Plots.desc_data entry = None) before →
  OrderedDict.get t files = None →
  show targets revs props = (Plots.Err (Plots.KeyError t), log).
Proof.
  intros E Ht Hpre Hdata Hb Hf. unfold Plots.show. rewrite E, Ht.
  rewrite show_checks_app by done. cbn [Plots.for_each].
  rewrite Hdata, fmap_app, fmap_cons. cbn [snd].
  rewrite any_data_missing; [done| |done].
  apply Forall_fmap. by apply (Forall_impl _ _ _ Hb).
Qed.

(** X29: without targets, when a data file collected for a revision that
    is to be rendered could not be read, [show] fails with [KeyError] for
    the key [data]. *)
Theorem show_unreadable (targets : option (string + list string))
    (revs : option (list string)) (props : option Plots.props_t)
    (data : Plots.data_t) (log : list Plots.event)
    (rev : string) (files : OrderedDict.t Plots.desc)
    (entry : string * Plots.desc) :
  collect targets revs = (Plots.Ok data, log) →
  Plots.as_list targets = [] →
  rev ∈ default (OrderedDict.keys data) revs →
  OrderedDict.get rev data = Some files →
  entry ∈ files → Plots.desc_data entry.2 = None →
  (show targets revs props).1 = Plots.Err (Plots.KeyError "data").
Proof.
  intros E Ht Hrev Hfiles He Hd. unfold Plots.show. rewrite E, Ht.
  cbn [Plots.for_each fst]. rewrite bool_decide_false.
  2: { intros ->. done. }
  unfold Plots.render.
  destruct (prepare_plots_outcome (default [] props) data revs) as [_ H].
  destruct (Plots._prepare_plots data revs (default [] props)) as [r log'].
  cbn [fst] in H. rewrite H; [done|].
  intros Hc. specialize (Hc rev files entry Hrev Hfiles He).
  rewrite Hd in Hc. by destruct Hc.
Qed.

End plots_show_facts.

Lemma modify_makes_plot_witness :
  Plots.plot_truthy (Plots.PlotBool true) = true
  ∧ ∃ f, Plots.as_flag (Plots.PlotBool true) = Some f
         ∧ flag_truthy f = true
         ∧ ∀ o : Output,
             plot o = f → _serialize_outs [o] = ([], [], [_serialize_out o]).
Proof.
  refine (modify_makes_plot (λ _, Plots.Ok ()) (λ _, Plots.Ok ())
            repo_v1 "curve.csv" None (Some ["x"; "y"])
            (Plots.mkOut "curve.csv" (Plots.PlotBool true)) _).
  vm_compute. reflexivity.
Defined.

Lemma modify_lookup_witness :
  Plots.path_info
    (Plots.mkOut "curve.csv"
       (Plots.PlotDict
          [("y", YStr "tpr"); ("x", YStr "a"); ("title", YStr "t")]))
  = Plots.path_info plot_curve
  ∧ ∀ k,
      OrderedDict.get k
        [("y", YStr "tpr"); ("x", YStr "a"); ("title", YStr "t")]
      = match OrderedDict.get k [("x", YStr "a"); ("title", YStr "t")] with
        | Some v => Some v
        | None =>
            if decide (k ∈ ["x"]) then None
            else OrderedDict.get k [("x", YStr "fpr"); ("y", YStr "tpr")]
        end.
Proof.
  refine (modify_lookup (λ _, Plots.Ok ()) (λ _, Plots.Ok ())
            repo_v1 "curve.csv"
            (Some [("x", YStr "a"); ("title", YStr "t")]) (Some ["x"])
            plot_curve
            (Plots.mkOut "curve.csv"
               (Plots.PlotDict
                  [("y", YStr "tpr"); ("x", YStr "a"); ("title", YStr "t")]))
            _ _ _).
  - refine (bool_decide_unpack _ _). by vm_compute.
  - vm_compute. reflexivity.
  - vm_compute. reflexivity.
Defined.

Lemma modify_not_a_plot_witness :
  Plots.modify (λ _, Plots.Ok ()) (λ _, Plots.Ok ()) repo_v1 "model.pkl"
    (Some [("title", YStr "t")]) (Some [])
  = Plots.Err (Plots.NotAPlotError "model.pkl").
Proof.
  refine (modify_not_a_plot (λ _, Plots.Ok ()) (λ _, Plots.Ok ())
            repo_v1 "model.pkl" (Some [("title", YStr "t")]) []
            plain_model _ _ _).
  - intros t _ _. reflexivity.
  - vm_compute. reflexivity.
  - reflexivity.
Defined.

Lemma collect_plots_targets_witness :
  ∃ plots,
    Plots._collect_plots example_project repo_v1
      ["loss.csv"; "curve.csv"] "v1"
    = (Plots.Ok plots, [Plots.NotFound "loss.csv" "v1"])
    ∧ ∀ p, p ∈ OrderedDict.keys plots ↔
           ∃ t out, t ∈ ["loss.csv"; "curve.csv"]
                    ∧ Plots.find_outs_by_path repo_v1 t = Plots.Ok [out]
                    ∧ Plots.path_info out = p.
Proof.
  refine (collect_plots_targets example_project repo_v1 "v1"
            ["loss.csv"; "curve.csv"] _ _).
  - discriminate.
  - intros t Ht. apply elem_of_cons in Ht as [->|Ht];
      [|apply list_elem_of_singleton in Ht as ->].
    + left. vm_compute. reflexivity.
    + right. exists plot_curve. split; [vm_compute; reflexivity|].
      split; [reflexivity|]. intros l. discriminate.
Defined.

Lemma collect_plots_target_not_plot_witness :
  (Plots._collect_plots example_project repo_v1
     (["loss.csv"] ++ "model.pkl" :: ["curve.csv"]) "v1").1
  = Plots.Err (Plots.NotAPlotError "model.pkl").
Proof.
  refine (collect_plots_target_not_plot example_project repo_v1 "v1"
            ["loss.csv"] ["curve.csv"] "model.pkl" plain_model _ _ _).
  - intros t Ht. apply list_elem_of_singleton in Ht as ->.
    left. vm_compute. reflexivity.
  - vm_compute. reflexivity.
  - reflexivity.
Defined.

Lemma prepare_plots_props_override_witness :
  OrderedDict.get "x"
    (Plots.plot_props
       (Plots.mkPlotDesc [("x", YStr "index")]
          [("v2", "tpr,fpr"); ("v1", "fpr,tpr")]))
  = Some (YStr "index").
Proof.
  refine (prepare_plots_props_override [("x", YStr "index")] data_two_revs
            (Some ["v2"; "v1"])
            [("curve.csv",
              Plots.mkPlotDesc [("x", YStr "index")]
                [("v2", "tpr,fpr"); ("v1", "fpr,tpr")])]
            [] _ _ "curve.csv" _ "x" (YStr "index") _ _).
  - refine (bool_decide_unpack _ _). by vm_compute.
  - vm_compute. reflexivity.
  - reflexivity.
  - reflexivity.
Defined.

Lemma prepare_plots_first_rev_wins_witness :
  ∃ pd,
    OrderedDict.get "curve.csv"
      [("curve.csv",
        Plots.mkPlotDesc [("x", YStr "tpr"); ("title", YStr "t")]
          [("v2", "tpr,fpr"); ("v1", "fpr,tpr")])] = Some pd
    ∧ Plots.plot_props pd
      = Plots.merge [("x", YStr "tpr")] [("title", YStr "t")].
Proof.
  refine (prepare_plots_first_rev_wins [("title", YStr "t")] data_two_revs
            ["v0"] ["v1"] "v2" "curve.csv"
            [("curve.csv", Plots.mkDesc [("x", YStr "tpr")] (Some "tpr,fpr"))]
            (Plots.mkDesc [("x", YStr "tpr")] (Some "tpr,fpr"))
            _ [Plots.Inconsistent "curve.csv" "v2" "v1"] _ _ _ _).
  - intros rev' files' Hin%list_elem_of_singleton. subst rev'.
    vm_compute. discriminate.
  - reflexivity.
  - reflexivity.
  - vm_compute. reflexivity.
Defined.

Lemma show_no_data_witness :
  Plots.show example_project (λ _, []) id example_render
    (Some (inl "curve.csv")) None None
  = (Plots.Err (Plots.NoMetricInHistoryError "curve.csv"), []).
Proof.
  refine (show_no_data example_project (λ _, []) id example_render
            (Some (inl "curve.csv")) None None [] _).
  reflexivity.
Defined.

Lemma show_target_missing_in_rev_witness :
  Plots.show example_project (example_brancher repo_no_cache) id
    example_render (Some (inr ["curve.csv"; "loss.csv"]))
    (Some ["v1"; "v2"]) None
  = (Plots.Err (Plots.KeyError "loss.csv"),
     [Plots.NotFound "loss.csv" "v1"]).
Proof.
  refine (show_target_missing_in_rev example_project
            (example_brancher repo_no_cache) id example_render
            (Some (inr ["curve.csv"; "loss.csv"])) (Some ["v1"; "v2"]) None
            _ [] _ [Plots.NotFound "loss.csv" "v1"]
            ["curve.csv"] [] "loss.csv" "v1" _ _ _ _ _ _ _).
  - vm_compute. reflexivity.
  - reflexivity.
  - intros t' Ht'%list_elem_of_singleton. subst t'. vm_compute. reflexivity.
  - reflexivity.
  - constructor.
  - reflexivity.
Defined.

Lemma show_unreadable_witness :
  (Plots.show example_project (example_brancher repo_no_cache) id
     example_render None None None).1
  = Plots.Err (Plots.KeyError "data").
Proof.
  refine (show_unreadable example_project (example_brancher repo_no_cache)
            id example_render None None None _ _ "workspace"
            [("curve.csv",
              Plots.mkDesc [("x", YStr "fpr"); ("y", YStr "tpr")] None)]
            ("curve.csv",
             Plots.mkDesc [("x", YStr "fpr"); ("y", YStr "tpr")] None)
            _ _ _ _ _ _).
  - vm_compute. reflexivity.
  - reflexivity.
  - apply list_elem_of_here.
  - reflexivity.
  - apply list_elem_of_here.
  - reflexivity.
Defined.


(** ** The add / cache / hasher contract *)

Import Repo.

Ltac destruct_mapM k e rb E :=
  match goal with
  | |- context [@mapM M _ _ _ _ ?f ?l ?r] =>
      destruct (@mapM M _ _ _ _ f l r) as [[k|e] rb] eqn:E
  end.

Section repo_facts.
Variable digest : string → ContentId.
Variable serialize : list (path_info * ContentId) → string.
Variable LARGE_DIR_SIZE : nat.

#[local] Abbreviation hash := (hash digest serialize).
#[local] Abbreviation add := (add digest serialize).
#[local] Abbreviation status := (status digest serialize).
#[local] Abbreviation run_dep := (run_dep digest serialize).
#[local] Abbreviation checkout := (checkout digest serialize).

Lemma bind_run {A B} (m : M A) (k : A → M B) (r : repo) :
  (m ≫= k) r =
    match m r with
    | (Return a, r') => k a r'
    | (Raise e, r') => (Raise e, r')
    end.
Proof. reflexivity. Qed.

Lemma validate_rejects r p q s h :
  outputs r !! q = Some (s, h) → s ≠ stage_file p → overlapping p q →
  ∃ e, (e = OutputDuplicationError ∨ e = OverlappingOutputPathsError)
       ∧ validate p r = (Raise e, r).
Proof.
  intros Hq Hs Hov.
  assert (Hex : q ≠ p →
                map_Exists (λ q _, q ≠ p ∧ overlapping p q) (outputs r)).
  { intros Hne. exists q, (s, h). auto. }
  unfold validate. rewrite bind_run. unfold get. rewrite bind_run.
  destruct (outputs r !! p) as [[s' h']|] eqn:E.
  - case_bool_decide as Hs'; cbn.
    + assert (q ≠ p) by (intros ->; congruence).
      rewrite bool_decide_true by auto. eauto.
    + eauto.
  - cbn. assert (q ≠ p) by (intros ->; congruence).
    rewrite bool_decide_true by auto. eauto.
Qed.

(** C2: when another stage already declares an Output at the path, above it
    or below it, [add] raises [OutputDuplicationError] or
    [OverlappingOutputPathsError] at validation: nothing has been hashed,
    stored or linked, and the repository, with its tracking records, is as
    before. *)
Theorem add_overlap_rejected r p q s h :
  outputs r !! q = Some (s, h) → s ≠ stage_file p → overlapping p q →
  ∃ e, (e = OutputDuplicationError ∨ e = OverlappingOutputPathsError)
       ∧ add p r = (Raise e, r).
Proof.
  intros Hq Hs Hov.
  destruct (validate_rejects r p q s h Hq Hs Hov) as (e & He & Hv).
  exists e. split; [done|]. unfold Repo.add. rewrite bind_run, Hv. done.
Qed.

(** *** Hasher memoization *)

Lemma memoized_hit p fp h compute r :
  state r !! p = Some (fp, h) → memoized p fp compute r = (Return h, r).
Proof.
  intros H. unfold memoized. rewrite bind_run. unfold get. rewrite H.
  by rewrite bool_decide_true.
Qed.

Lemma hash_hit r p fp h :
  fingerprint_of r p = Some fp → state r !! p = Some (fp, h) →
  hash p r = (Return h, r).
Proof.
  intros Hfp Hst. unfold Repo.hash. rewrite bind_run. unfold get.
  unfold fingerprint_of in Hfp.
  destruct (resolve r p) as [[i f]|] eqn:E.
  - unfold hash_file. rewrite bind_run. unfold get. rewrite bind_run, E.
    cbn [unwrap]. injection Hfp as <-. by apply memoized_hit.
  - rewrite bind_run, Hfp. cbn [unwrap]. by apply memoized_hit.
Qed.

#[local] Abbreviation step := (step digest serialize).
#[local] Abbreviation steps := (steps digest serialize).
#[local] Abbreviation add_targets := (add_targets digest serialize).
#[local] Abbreviation hash_file := (hash_file digest).
#[local] Abbreviation hash_dir := (hash_dir digest serialize).

Lemma step_clean r p o : clean r p → step p o r = (Return (), r).
Proof.
  intros (fp & s & h & Hfp & Hst & Hout). destruct o; simpl.
  - unfold Repo.status. rewrite !bind_run, (hash_hit r p fp h) by done. done.
  - unfold Repo.run_dep. by rewrite !bind_run, (hash_hit r p fp h).
  - unfold Repo.checkout. rewrite !bind_run. unfold get. rewrite Hout.
    cbn [unwrap]. rewrite bind_run. cbn. rewrite Hfp.
    rewrite bind_run, (hash_hit r p fp h) by done.
    by rewrite bool_decide_true.
Qed.

Lemma steps_clean r p ops : clean r p → steps p ops r = (Return (), r).
Proof.
  intros Hc. induction ops as [|o ops IH]; [done|].
  simpl. by rewrite bind_run, step_clean.
Qed.

Lemma refresh_state r p h fp :
  fingerprint_of r p = Some fp →
  refresh p h r = (Return (), set_state <[p := (fp, h)]> r).
Proof.
  intros H. unfold refresh. rewrite bind_run. unfold get. by rewrite H.
Qed.

Lemma refresh_missing r p h :
  fingerprint_of r p = None → refresh p h r = (Return (), r).
Proof.
  intros H. unfold refresh. rewrite bind_run. unfold get. by rewrite H.
Qed.

Lemma add_clean r p r1 :
  add p r = (Return (), r1) → is_Some (fingerprint_of r1 p) → clean r1 p.
Proof.
  unfold Repo.add. rewrite bind_run.
  destruct (validate p r) as [[[]|e] ra]; [|done].
  rewrite bind_run. destruct (hash p ra) as [[h|e] rb]; [|done].
  rewrite bind_run. unfold get. rewrite bind_run.
  match goal with
  | |- context [(if ?b then ?x else ?y) rb] =>
      destruct ((if b then x else y) rb) as [[targets|e] rc]; [|done]
  end.
  rewrite bind_run.
  match goal with
  | |- context [@mapM M _ _ _ _ ?f targets rc] =>
      destruct (@mapM M _ _ _ _ f targets rc) as [[l|e] rd]; [|done]
  end.
  rewrite bind_run.
  destruct (fingerprint_of rd p) as [fp|] eqn:Hfp.
  - rewrite (refresh_state _ _ _ fp Hfp). unfold modify. intros [= <-] _.
    exists fp, (stage_file p), h. split_and!.
    + exact Hfp.
    + cbn. apply lookup_insert_eq.
    + cbn. apply lookup_insert_eq.
  - rewrite (refresh_missing _ _ _ Hfp). unfold modify. intros [= <-] [fp Hfp'].
    change (fingerprint_of rd p = Some fp) in Hfp'. congruence.
Qed.


(** C3: a path whose current fingerprint matches its stored record hashes
    to the stored ContentId with the repository, call log included, left as
    it is; hence after [add], any sequence of [status], [run] and [checkout]
    on the content, still in the workspace, computes no content hash. *)
Theorem hasher_memoization :
  (∀ r p fp h,
     fingerprint_of r p = Some fp → state r !! p = Some (fp, h) →
     hash p r = (Return h, r))
  ∧ (∀ r p r1 ops,
       add p r = (Return (), r1) → is_Some (fingerprint_of r1 p) →
       steps p ops r1 = (Return (), r1)
       ∧ hash_count (steps p ops r1).2 = hash_count r1).
Proof.
  split.
  - apply hash_hit.
  - intros r p r1 ops Hadd Hfp.
    pose proof (steps_clean r1 p ops (add_clean r p r1 Hadd Hfp)) as E.
    by rewrite E.
Qed.

(** *** Frames *)

Lemma hasher_update_id r :
  hasher_update (state r) (dir_objects r) (trace r ++ []) r = r.
Proof. destruct r. unfold hasher_update. simpl. by rewrite app_nil_r. Qed.

Lemma hasher_only_refl r : hasher_only r r.
Proof. exists (state r), (dir_objects r), []. by rewrite hasher_update_id. Qed.

Lemma hasher_only_trans r1 r2 r3 :
  hasher_only r1 r2 → hasher_only r2 r3 → hasher_only r1 r3.
Proof.
  intros (st & dobj & evs & -> & H1) (st' & dobj' & evs' & -> & H2).
  exists st', dobj', (evs ++ evs'). split.
  - unfold hasher_update. simpl. by rewrite app_assoc.
  - by apply Forall_app.
Qed.

Lemma hasher_only_state r f : hasher_only r (set_state f r).
Proof.
  exists (f (state r)), (dir_objects r), []. split; [|done].
  unfold hasher_update, set_state. by rewrite app_nil_r.
Qed.

Lemma hasher_only_dir_objects r f : hasher_only r (set_dir_objects f r).
Proof.
  exists (state r), (f (dir_objects r)), []. split; [|done].
  unfold hasher_update, set_dir_objects. by rewrite app_nil_r.
Qed.

Lemma hasher_only_emit r p : hasher_only r (emit (EvHash p) r).
Proof.
  exists (state r), (dir_objects r), [EvHash p]. split; [done|].
  by repeat constructor.
Qed.

Lemma memoized_frame p fp (compute : M ContentId) r :
  (∀ r res r', compute r = (res, r') → hasher_only r r') →
  ∀ res r', memoized p fp compute r = (res, r') → hasher_only r r'.
Proof.
  intros Hc res r'. unfold memoized. rewrite bind_run. unfold get.
  assert (Hmiss : ∀ res r',
    (h ← compute; _ ← modify (set_state <[p := (fp, h)]>); mret h) r = (res, r')
    → hasher_only r r').
  { clear res r'. intros res r'. rewrite bind_run.
    destruct (compute r) as [[h|e] ra] eqn:E.
    - rewrite bind_run. unfold modify. intros [= _ <-].
      eapply hasher_only_trans; [by eapply Hc|apply hasher_only_state].
    - intros [= _ <-]. by eapply Hc. }
  destruct (state r !! p) as [[fp' h]|]; [|apply Hmiss].
  case_bool_decide; [|apply Hmiss].
  intros [= _ <-]. apply hasher_only_refl.
Qed.

Lemma hash_file_frame p r res r' :
  hash_file p r = (res, r') → hasher_only r r'.
Proof.
  unfold hash_file. rewrite bind_run. unfold get. rewrite bind_run.
  destruct (resolve r p) as [[i f]|]; cbn [unwrap].
  - apply memoized_frame. clear. intros r res r'. rewrite bind_run.
    unfold modify. intros [= _ <-]. apply hasher_only_emit.
  - intros [= _ <-]. apply hasher_only_refl.
Qed.

Lemma mapM_hash_file_frame d l r res r' :
  mapM (λ q, h ← hash_file q; mret (relative d q, h)) l r = (res, r') →
  hasher_only r r'.
Proof.
  revert r res r'. induction l as [|q l IH]; intros r res r'.
  - intros [= _ <-]. apply hasher_only_refl.
  - cbn [mapM]. rewrite !bind_run.
    destruct (hash_file q r) as [[h|e] ra] eqn:E.
    + apply hash_file_frame in E. cbn [mret M_ret]. rewrite bind_run.
      destruct_mapM k e' rb E'.
      * intros [= _ <-]. eapply hasher_only_trans; [done|by eapply IH].
      * intros [= _ <-]. eapply hasher_only_trans; [done|by eapply IH].
    + apply hash_file_frame in E. by intros [= _ <-].
Qed.

Lemma hash_dir_frame d r res r' :
  hash_dir d r = (res, r') → hasher_only r r'.
Proof.
  unfold hash_dir. rewrite bind_run. unfold get. rewrite bind_run.
  destruct_mapM entries e ra E; apply mapM_hash_file_frame in E.
  - rewrite !bind_run. unfold modify. cbn. intros [= _ <-].
    eapply hasher_only_trans; [done|].
    eapply hasher_only_trans; [apply hasher_only_emit|].
    apply hasher_only_dir_objects.
  - by intros [= _ <-].
Qed.

Lemma hash_frame p r res r' : hash p r = (res, r') → hasher_only r r'.
Proof.
  unfold Repo.hash. rewrite bind_run. unfold get.
  destruct (resolve r p) as [[i f]|].
  - apply hash_file_frame.
  - rewrite bind_run. destruct (dir_fingerprint r p) as [fp|]; cbn [unwrap].
    + apply memoized_frame. intros. by eapply hash_dir_frame.
    + intros [= _ <-]. apply hasher_only_refl.
Qed.


(** *** Re-adding settled content *)

Lemma link_ok_hasher_only r r' p h :
  hasher_only r r' → link_ok r' p h = link_ok r p h.
Proof. by intros (st & dobj & evs & -> & _). Qed.

Lemma link_ok_has r p h : link_ok r p h = true → has h r = true.
Proof.
  unfold link_ok, has. destruct (cache r !! h); [|done].
  intros _. by apply bool_decide_eq_true.
Qed.

Lemma refresh_frame p h r :
  ∃ r', refresh p h r = (Return (), r') ∧ hasher_only r r'.
Proof.
  destruct (fingerprint_of r p) as [fp|] eqn:E.
  - rewrite (refresh_state _ _ _ fp E). eexists. split; [done|].
    apply hasher_only_state.
  - rewrite (refresh_missing _ _ _ E). eexists. split; [done|].
    apply hasher_only_refl.
Qed.

Lemma commit_file_settled r p h :
  link_ok r p h = true →
  ∃ r', commit_file p h r = (Return (), r') ∧ hasher_only r r'.
Proof.
  intros Hok. unfold commit_file. rewrite bind_run. unfold get.
  rewrite (link_ok_has _ _ _ Hok). rewrite bind_run. cbn [mret M_ret].
  rewrite bind_run. rewrite Hok. rewrite bind_run. cbn [mret M_ret].
  apply refresh_frame.
Qed.

Lemma mapM_commit_settled (targets : list (path_info * ContentId)) r :
  Forall (λ '(q, hq), link_ok r q hq = true) targets →
  ∃ l r', mapM (λ '(q, hq), commit_file q hq) targets r = (Return l, r')
          ∧ hasher_only r r'.
Proof.
  revert r. induction targets as [|[q hq] targets IH]; intros r Hall.
  { exists [], r. split; [done|apply hasher_only_refl]. }
  apply Forall_cons in Hall as [Hq Hall].
  destruct (commit_file_settled r q hq Hq) as (ra & Hc & Hra).
  destruct (IH ra) as (l & rb & Hm & Hrb).
  { eapply Forall_impl; [exact Hall|]. intros [q' hq'] H.
    by rewrite (link_ok_hasher_only r ra). }
  exists (() :: l), rb. split.
  - cbn [mapM]. rewrite bind_run, Hc, bind_run, Hm. done.
  - by eapply hasher_only_trans.
Qed.

Lemma validate_state p r res r' : validate p r = (res, r') → r' = r.
Proof.
  unfold validate. rewrite bind_run. unfold get. rewrite bind_run.
  destruct (outputs r !! p) as [[s h]|].
  - case_bool_decide; cbn; [|by intros [= _ <-]].
    case_bool_decide; by intros [= _ <-].
  - cbn. case_bool_decide; by intros [= _ <-].
Qed.

Lemma load_dir_object_state p h r res r' :
  load_dir_object p h r = (res, r') → r' = r.
Proof.
  unfold load_dir_object. rewrite bind_run. unfold get. rewrite bind_run.
  destruct (dir_objects r !! h); cbn; by intros [= _ <-].
Qed.

Lemma hasher_only_fields r r' :
  hasher_only r r' →
  inodes r' = inodes r ∧ workspace r' = workspace r ∧ cache r' = cache r
  ∧ ∃ evs, trace r' = trace r ++ evs ∧ Forall (λ e, is_hash e = true) evs.
Proof. intros (st & dobj & evs & -> & H). split_and!; eauto. Qed.

(** C1 (amended): re-adding a tracked path whose current hash is the
    recorded ContentId, and whose files are still linked to their cache
    entries the way the strategy in effect links them ([link_ok]: a hard
    link or symlink to the read-only cache entry, or under copy and reflink
    a file of its own), touches nothing but the Hasher's tables: no copy
    into the cache, no link, no change of protection. *)
Theorem readd_settled_is_noop r p s h :
  outputs r !! p = Some (s, h) →
  (hash p r).1 = Return h →
  Forall (λ '(q, hq), link_ok r q hq = true) (add_targets p r) →
  readd_is_noop digest serialize r p.
Proof.
  intros _ _ Hs res r'. clear s h. unfold Repo.add. rewrite bind_run.
  destruct (validate p r) as [[[]|e] ra] eqn:Ev;
    apply validate_state in Ev as ->;
    [|intros [= _ <-]; apply hasher_only_fields, hasher_only_refl].
  rewrite bind_run. unfold add_targets in Hs.
  destruct (hash p r) as [[h|e] r1] eqn:Eh;
    pose proof (hash_frame _ _ _ _ Eh) as H1;
    [|intros [= _ <-]; by apply hasher_only_fields].
  rewrite bind_run. unfold get. rewrite bind_run.
  assert (Ht : ∃ targets,
    (if bool_decide (is_Some (resolve r1 p)) then mret [(p, h)]
     else load_dir_object p h) r1 = (Return targets, r1)
    ∧ Forall (λ '(q, hq), link_ok r q hq = true) targets
    ∨ ∃ e, (if bool_decide (is_Some (resolve r1 p)) then mret [(p, h)]
            else load_dir_object p h) r1 = (Raise e, r1)).
  { case_bool_decide.
    - exists [(p, h)]. by left.
    - destruct (load_dir_object p h r1) as [[ts|e] rx] eqn:El;
        pose proof (load_dir_object_state _ _ _ _ _ El) as ->.
      + exists ts. by left.
      + exists []. right. by exists e. }
  destruct Ht as (targets & [[-> Hall]|[e ->]]);
    [|intros [= _ <-]; by apply hasher_only_fields].
  rewrite bind_run.
  destruct (mapM_commit_settled targets r1) as (l & r2 & -> & H2).
  { eapply Forall_impl; [exact Hall|]. intros [q hq] H.
    by rewrite (link_ok_hasher_only r r1). }
  rewrite bind_run.
  destruct (refresh_frame p h r2) as (r3 & -> & H3).
  unfold modify. intros [= _ <-].
  assert (H : hasher_only r r3).
  { eapply hasher_only_trans; [done|]. by eapply hasher_only_trans. }
  apply hasher_only_fields in H as (? & ? & ? & ?). by split_and!.
Qed.

(** *** Well-formed repositories *)

Lemma well_formed_hasher_only r r' :
  hasher_only r r' → well_formed r → well_formed r'.
Proof. by intros (st & dobj & evs & -> & _). Qed.

Lemma well_formed_resolve r p :
  well_formed r → is_Some (workspace r !! p) → is_Some (resolve r p).
Proof.
  intros (H1 & H2 & H3) [[i|h] E]; unfold resolve; rewrite E.
  - destruct (H2 _ _ E) as [f ->]. by eexists.
  - destruct (H3 _ _ E) as [i Hi]. rewrite Hi. simpl.
    destruct (H1 _ _ Hi) as [f ->]. by eexists.
Qed.

Lemma resolve_workspace r p :
  is_Some (resolve r p) → is_Some (workspace r !! p).
Proof.
  unfold resolve. destruct (workspace r !! p); [by eexists|]. by intros [? ?].
Qed.

Lemma prefix_emit r e : trace r `prefix_of` trace (emit e r).
Proof. by exists [e]. Qed.

Lemma store_ok p h r :
  is_Some (resolve r p) → well_formed r →
  ∃ r', store p h r = (Return (), r') ∧ well_formed r' ∧ is_Some (cache r' !! h)
        ∧ workspace r' = workspace r ∧ outputs r' = outputs r
        ∧ link_type r' = link_type r ∧ trace r `prefix_of` trace r'.
Proof.
  intros [[i f] E] (H1 & H2 & H3). unfold store. rewrite bind_run. unfold get.
  rewrite bind_run, E. cbn [unwrap mret M_ret].
  eexists. split; [reflexivity|]. split_and!; cbn; try done.
  - unfold well_formed. cbn. split_and!.
    + intros h' i' [[-> <-]|[_ Hh]]%lookup_insert_Some;
        apply lookup_insert_is_Some'; eauto.
    + intros p' i' Hp. apply lookup_insert_is_Some'. eauto.
    + intros p' h' Hp. apply lookup_insert_is_Some'. eauto.
  - apply lookup_insert_is_Some'. by left.
  - by exists [EvStore h].
Qed.

Lemma materialize_ok h p r :
  well_formed r → is_Some (cache r !! h) → is_Some (workspace r !! p) →
  ∃ r', materialize h p r = (Return (), r') ∧ well_formed r'
        ∧ dom (workspace r') = dom (workspace r)
        ∧ cache r' = cache r ∧ outputs r' = outputs r
        ∧ link_type r' = link_type r ∧ trace r `prefix_of` trace r'
        ∧ (link_type r = Hardlink → link_ok r' p h = true).
Proof.
  intros (H1 & H2 & H3) [i Hi] Hp.
  destruct (H1 _ _ Hi) as [f Hf].
  unfold materialize. rewrite bind_run. unfold get.
  rewrite bind_run, Hi. cbn [unwrap mret M_ret].
  rewrite bind_run, Hf. cbn [unwrap mret M_ret].
  destruct (link_type r) eqn:El;
    (eexists; split; [reflexivity|]);
    split_and!; cbn; rewrite ?El; try done.
  all: try (by apply dom_insert_lookup_L).
  all: try (by (eexists; rewrite <- ?app_assoc)).
  all: try (intros _; unfold link_ok; cbn; rewrite Hi, El, lookup_insert_eq;
            rewrite bool_decide_true by done;
            by rewrite lookup_alter_eq, Hf).
  all: unfold well_formed; cbn; split_and!.
  all: intros x y Hx;
    try (apply lookup_insert_Some in Hx as [[-> Heq]|[_ Hx]];
         [try discriminate; try injection Heq as <-|]);
    rewrite ?lookup_alter_is_Some, ?lookup_insert_is_Some'; eauto.
Qed.

Lemma hasher_only_prefix r r' :
  hasher_only r r' → trace r `prefix_of` trace r'.
Proof. intros (st & dobj & evs & -> & _). by exists evs. Qed.

Lemma hasher_only_frame r r' :
  hasher_only r r' →
  workspace r' = workspace r ∧ outputs r' = outputs r
  ∧ link_type r' = link_type r.
Proof. by intros (st & dobj & evs & -> & _). Qed.

Lemma commit_file_ok p h r :
  well_formed r → is_Some (workspace r !! p) →
  ∃ r', commit_file p h r = (Return (), r') ∧ well_formed r'
        ∧ dom (workspace r') = dom (workspace r)
        ∧ outputs r' = outputs r ∧ link_type r' = link_type r
        ∧ trace r `prefix_of` trace r'
        ∧ (link_type r = Hardlink → link_ok r' p h = true).
Proof.
  intros Hwf Hp.
  assert (∃ ra, (if has h r then mret () else store p h) r = (Return (), ra)
                ∧ well_formed ra ∧ is_Some (cache ra !! h)
                ∧ workspace ra = workspace r ∧ outputs ra = outputs r
                ∧ link_type ra = link_type r ∧ trace r `prefix_of` trace ra)
    as (ra & Ea & Hwfa & Hca & Hwsa & Houta & Hlta & Htra).
  { destruct (has h r) eqn:Hhas.
    - exists r. split_and!; try done. by apply bool_decide_eq_true in Hhas.
    - apply store_ok; [by apply well_formed_resolve|done]. }
  assert (∃ rb, (if link_ok ra p h then mret () else materialize h p) ra
                = (Return (), rb)
                ∧ well_formed rb ∧ dom (workspace rb) = dom (workspace r)
                ∧ outputs rb = outputs r ∧ link_type rb = link_type r
                ∧ trace r `prefix_of` trace rb
                ∧ (link_type r = Hardlink → link_ok rb p h = true))
    as (rb & Eb & Hwfb & Hwsb & Houtb & Hltb & Htrb & Hokb).
  { destruct (link_ok ra p h) eqn:Hok.
    - exists ra. split_and!; try done. by rewrite Hwsa.
    - destruct (materialize_ok h p ra)
        as (rb & -> & ? & Hd & ? & ? & ? & ? & Hl);
        [done|done|by rewrite Hwsa|].
      exists rb. split_and!; try done; try congruence.
      + by etrans.
      + intros El. apply Hl. congruence. }
  destruct (refresh_frame p h rb) as (r' & Er & Hr).
  exists r'. split_and!.
  - unfold commit_file. rewrite bind_run. unfold get.
    rewrite bind_run, Ea, bind_run. cbn [get].
    by rewrite bind_run, Eb.
  - by eapply well_formed_hasher_only.
  - destruct (hasher_only_frame _ _ Hr) as (-> & _). done.
  - destruct (hasher_only_frame _ _ Hr) as (_ & -> & _). done.
  - destruct (hasher_only_frame _ _ Hr) as (_ & _ & ->). done.
  - etrans; [done|]. by apply hasher_only_prefix.
  - intros El. rewrite (link_ok_hasher_only rb r') by done. auto.
Qed.

Lemma validate_ok r p : can_add r p → validate p r = (Return (), r).
Proof.
  intros [Hown Hno]. unfold validate. rewrite bind_run. unfold get.
  rewrite bind_run.
  assert (Hex : ¬ map_Exists (λ q _, q ≠ p ∧ overlapping p q) (outputs r)).
  { intros (q & v & Hq & Hne & Hov). by eapply Hno. }
  destruct (outputs r !! p) as [[s h]|] eqn:E.
  - rewrite bool_decide_true by eauto. cbn.
    by rewrite bool_decide_false.
  - cbn. by rewrite bool_decide_false.
Qed.

Lemma hash_file_ok p r :
  is_Some (resolve r p) → ∃ h r', hash p r = (Return h, r').
Proof.
  intros [[i f] E]. unfold Repo.hash. rewrite bind_run. unfold get. rewrite E.
  unfold hash_file. rewrite bind_run. unfold get. rewrite bind_run, E.
  cbn [unwrap mret M_ret]. unfold memoized. rewrite bind_run. unfold get.
  destruct (state r !! p) as [[fp h]|]; [case_bool_decide|]; eauto.
Qed.

Lemma resolve_hasher_only r r' p :
  hasher_only r r' → resolve r' p = resolve r p.
Proof. by intros (st & dobj & evs & -> & _). Qed.

(** Adding a file of a well-formed repository succeeds. *)
Lemma add_ok p r :
  well_formed r → is_Some (workspace r !! p) → can_add r p →
  ∃ r' h, add p r = (Return (), r') ∧ well_formed r'
          ∧ dom (workspace r') = dom (workspace r)
          ∧ outputs r' = <[p := (stage_file p, h)]> (outputs r)
          ∧ link_type r' = link_type r
          ∧ trace r `prefix_of` trace r'
          ∧ (link_type r = Hardlink → link_ok r' p h = true).
Proof.
  intros Hwf Hp Hcan.
  pose proof (well_formed_resolve _ _ Hwf Hp) as Hres.
  destruct (hash_file_ok p r Hres) as (h & r1 & Eh).
  pose proof (hash_frame _ _ _ _ Eh) as H1.
  destruct (hasher_only_frame _ _ H1) as (Hws1 & Hout1 & Hlt1).
  destruct (commit_file_ok p h r1)
    as (r2 & Ec & Hwf2 & Hd2 & Hout2 & Hlt2 & Htr2 & Hok2).
  { by eapply well_formed_hasher_only. }
  { by rewrite Hws1. }
  destruct (refresh_frame p h r2) as (r3 & Er & H3).
  destruct (hasher_only_frame _ _ H3) as (Hws3 & Hout3 & Hlt3).
  exists (set_outputs <[p := (stage_file p, h)]> r3), h. split_and!.
  - unfold Repo.add. rewrite bind_run, (validate_ok r p Hcan).
    rewrite bind_run, Eh, bind_run. unfold get. rewrite bind_run.
    rewrite bool_decide_true by (by rewrite (resolve_hasher_only r r1)).
    cbn [mret M_ret]. rewrite bind_run. cbn [mapM].
    rewrite bind_run, Ec. rewrite bind_run. cbn [mret M_ret].
    by rewrite bind_run, Er.
  - change (well_formed r3). by eapply well_formed_hasher_only.
  - cbn. congruence.
  - cbn. congruence.
  - cbn. congruence.
  - cbn. etrans; [by apply hasher_only_prefix|].
    etrans; [done|]. by apply hasher_only_prefix.
  - intros El. unfold link_ok. cbn.
    change (link_ok r3 p h = true).
    rewrite (link_ok_hasher_only r2 r3) by done. apply Hok2. congruence.
Qed.

(** *** Hard links *)





(** *** Recursive add *)

Lemma overlapping_refl p : overlapping p p.
Proof. by left. Qed.

Lemma mapM_add_ok (ts : list path_info) r :
  NoDup ts →
  (∀ q, q ∈ ts → is_Some (workspace r !! q)) →
  (∀ q q', q ∈ ts → q' ∈ ts → overlapping q q' → q = q') →
  (∀ q q' v, q ∈ ts → outputs r !! q' = Some v → ¬ overlapping q q') →
  well_formed r →
  ∃ l r', mapM add ts r = (Return l, r') ∧ trace r `prefix_of` trace r'.
Proof.
  revert r. induction ts as [|q ts IH]; intros r Hnd Hws Hfree Hout Hwf.
  { by exists [], r. }
  apply NoDup_cons in Hnd as [Hq Hnd].
  assert (Hcan : can_add r q).
  { split.
    - intros s h E. exfalso. eapply Hout; [apply list_elem_of_here|done|].
      apply overlapping_refl.
    - intros q' v E _. eapply Hout; [apply list_elem_of_here|done]. }
  destruct (add_ok q r Hwf (Hws q (list_elem_of_here _ _)) Hcan)
    as (r1 & h & E1 & Hwf1 & Hd1 & Hout1 & _ & Htr1 & _).
  destruct (IH r1) as (l & r2 & E2 & Htr2); [done| | | |done|].
  - intros q' Hq'. apply elem_of_dom. rewrite Hd1. apply elem_of_dom.
    by apply Hws, list_elem_of_further.
  - intros q1 q2 H1 H2. by apply Hfree; apply list_elem_of_further.
  - intros q1 q' v H1. rewrite Hout1.
    intros [[<- _]|[_ E]]%lookup_insert_Some Hov.
    + apply Hq. rewrite <- (Hfree q1 q); [done| | |done].
      * by apply list_elem_of_further.
      * apply list_elem_of_here.
    + eapply Hout; [by apply list_elem_of_further|done|done].
  - exists (() :: l), r2. split; [|by etrans].
    cbn [mapM]. by rewrite bind_run, E1, bind_run, E2.
Qed.

Lemma elem_of_members r d q :
  q ∈ members r d ↔ is_under d q ∧ is_Some (workspace r !! q).
Proof.
  unfold members. rewrite sorted_perm, list_elem_of_filter.
  rewrite list_elem_of_fmap. split.
  - intros [Hu ([q' e] & -> & Hin%elem_of_map_to_list)]. split; [done|].
    by exists e.
  - intros [Hu [e He]]. split; [done|]. exists (q, e). split; [done|].
    by apply elem_of_map_to_list.
Qed.

Lemma members_NoDup r d : NoDup (members r d).
Proof.
  unfold members. rewrite sorted_perm. apply NoDup_filter.
  apply NoDup_fst_map_to_list.
Qed.

Lemma overlapping_under d q q' :
  is_under d q → overlapping q q' → overlapping d q'.
Proof.
  intros [Hd _] [H|H].
  - left. by etrans.
  - destruct (prefix_weak_total d q' q Hd H); [by left|by right].
Qed.

(** C8: a recursive add of a directory holding more files than
    [LARGE_DIR_SIZE] logs the advisory for that directory and still
    completes with exit status 0. *)
Theorem large_dir_warning r d :
  well_formed r → prefix_free r →
  (∀ q v, outputs r !! q = Some v → ¬ overlapping d q) →
  LARGE_DIR_SIZE < List.length (members r d) →
  ∃ r', main_add_recursive digest serialize LARGE_DIR_SIZE d r = (0%Z, r')
        ∧ EvWarn d ∈ trace r'.
Proof.
  intros Hwf Hfree Hout Hlarge.
  destruct (mapM_add_ok (members r d) (emit (EvWarn d) r))
    as (l & r' & E & Htr).
  - apply members_NoDup.
  - intros q [_ Hq]%elem_of_members. exact Hq.
  - intros q q' [_ Hq]%elem_of_members [_ Hq']%elem_of_members [H|H].
    + by apply Hfree.
    + symmetry. by apply Hfree.
  - intros q q' v [Hu _]%elem_of_members Hq' Hov.
    apply (Hout q' v Hq'). by eapply overlapping_under.
  - exact Hwf.
  - exists r'. split.
    + unfold main_add_recursive, add_recursive. rewrite bind_run. unfold get.
      rewrite bool_decide_true by done. rewrite bind_run. unfold modify at 1.
      by rewrite bind_run, E.
    + destruct Htr as [evs ->]. cbn. apply elem_of_app. left.
      apply elem_of_app. right. apply list_elem_of_here.
Qed.
End repo_facts.

(** *** Deciding the side conditions of a concrete repository *)

Lemma well_formed_decide (r : repo) :
  map_Forall (λ _ i, is_Some (inodes r !! i)) (cache r) →
  map_Forall (λ _ e, entry_ok r e) (workspace r) →
  well_formed r.
Proof.
  intros H1 H2. split_and!.
  - exact H1.
  - intros p i E. exact (H2 p (Hard i) E).
  - intros p h E. exact (H2 p (Sym h) E).
Qed.

Lemma prefix_free_decide (r : repo) :
  map_Forall (λ p _, map_Forall (λ q _, p `prefix_of` q → p = q) (workspace r))
    (workspace r) →
  prefix_free r.
Proof. intros H p q [e E] [e' E']. exact (H p e E q e' E'). Qed.


(** *** The worked repository *)

Example example_add_then_operate :
  steps example_digest example_serialize ["dir"]
    [Status; Run; Checkout; Status] repo_dir_tracked
  = (Return (), repo_dir_tracked)
  ∧ hash_count repo_dir_tracked = 4.
Proof. by vm_compute. Qed.

Example example_copy_readd_copies_nothing :
  trace (add example_digest example_serialize ["foo"]
           (add example_digest example_serialize ["foo"]
              (example_repo Copy)).2).2
  = [EvHash ["foo"]; EvStore "#foo"].
Proof. by vm_compute. Qed.

Lemma add_overlap_rejected_witness :
  ∃ e, (e = OutputDuplicationError ∨ e = OverlappingOutputPathsError)
       ∧ add example_digest example_serialize ["dir"; "b"] repo_dir_tracked
         = (Raise e, repo_dir_tracked).
Proof.
  apply (add_overlap_rejected example_digest example_serialize
           repo_dir_tracked ["dir"; "b"] ["dir"] "dir.dvc"
           (example_digest
              (example_serialize
                 [(["a"], "#a"); (["b"], "#b"); (["sub"; "c"], "#c")])
            +:+ ".dir")).
  - vm_compute. reflexivity.
  - vm_compute. discriminate.
  - right. by exists ["b"].
Defined.

(** C1 (as stated) fails: [foo] was added with hard links and then
    unprotected; its hash is still the recorded ContentId, yet adding it
    again links the workspace file to the cache entry once more. *)
Lemma readd_after_unprotect_relinks :
  ¬ readd_idempotent example_digest example_serialize repo_unprotected ["foo"].
Proof.
  intros H.
  specialize (H "foo.dvc" "#foo").
  destruct (add example_digest example_serialize ["foo"] repo_unprotected)
    as [res r'] eqn:E.
  destruct (H ltac:(by vm_compute) ltac:(by vm_compute) res r' E)
    as (_ & Hws & _).
  apply (f_equal (λ m, m !! ["foo"])) in Hws.
  apply (f_equal snd) in E. simpl in E. subst r'.
  vm_compute in Hws. discriminate.
Qed.

Lemma readd_settled_is_noop_witness :
  readd_is_noop example_digest example_serialize repo_added ["foo"].
Proof.
  apply (readd_settled_is_noop example_digest example_serialize
           repo_added ["foo"] "foo.dvc" "#foo").
  - vm_compute. reflexivity.
  - vm_compute. reflexivity.
  - vm_compute. repeat constructor.
Defined.


Lemma large_dir_warning_witness :
  ∃ r', main_add_recursive example_digest example_serialize 2 ["dir"]
          (example_repo Hardlink) = (0%Z, r')
        ∧ EvWarn ["dir"] ∈ trace r'.
Proof.
  apply (large_dir_warning example_digest example_serialize 2
           (example_repo Hardlink) ["dir"]).
  - apply well_formed_decide; refine (bool_decide_unpack _ _); by vm_compute.
  - apply prefix_free_decide. refine (bool_decide_unpack _ _). by vm_compute.
  - refine (bool_decide_unpack _ _). by vm_compute.
  - vm_compute. lia.
Defined.
